(** * DiffSinger binarization pipeline: a shallow embedding

    The development follows [preprocessing/variance_binarizer.py],
    [preprocessing/acoustic_binarizer.py],
    [modules/fastspeech/acoustic_encoder.py] and [preprocessing/jp_process.py].

    Numbers.  A Python float is an IEEE 754 binary64 number, an element of a
    float tensor a binary32 number; a finite float is represented by the
    rational it denotes ([Q]), and integer tensors ([long]) are [Z].
    [torch.round] and Python's [round] both round half to even, [int]
    truncates toward zero.

    The frame arithmetic of the two [process_item] methods ([Timeline],
    [Pitch]) is embedded with the roundings of its float operations
    ([Float]); an operation whose result is not finite ends the computation
    with [NonFinite], where the code carries an infinity or a NaN along.
    The tensor operations are those of the CPU: [torch.cumsum] keeps its
    running total in double precision, a float32 tensor is divided by a
    Python float or a [long] tensor after these are converted to float32,
    and [scatter_add] adds frame by frame.
    [Aligner] reads lines 85-87 of the variance binarizer over exact
    rationals: the arithmetic that the code writes down, without the
    rounding errors of its float operations.  The scheduler and the duration
    totals of the driver are written over exact rationals as well. *)

From Stdlib Require Import QArith Qround Qabs Lqa ZArith Lia Ascii.
From Stdlib Require SpecFloat.
From stdpp Require Import gmap strings list fin_maps sorting pretty.

Local Open Scope Z_scope.

(** ** Numeric primitives *)

Module Num.

(** [torch.round] on a tensor element, and Python's built-in [round] with
    one argument: nearest integer, ties to the even neighbour. *)
Definition round_half_even (x : Q) : Z :=
  let f := Qfloor x in
  match Qcompare (x - inject_Z f) (1 # 2) with
  | Lt => f
  | Gt => f + 1
  | Eq => if Z.even f then f else f + 1
  end.

(** Python's [int(x)] on a float: truncation toward zero. *)
Definition int_trunc (x : Q) : Z := Z.quot (Qnum x) (Zpos (Qden x)).

(** Python's [sum] over a list of floats (left to right from 0). *)
Definition qsum (l : list Q) : Q := fold_left Qplus l 0%Q.

(** Integer sum of a [long] tensor. *)
Definition zsum (l : list Z) : Z := fold_right Z.add 0 l.

End Num.

(** ** Tensor primitives used by the binarizers *)

Module Tensor.

(** [torch.cumsum(x, dim=0)]: running totals, accumulated left to right. *)
Fixpoint cumsum_from (acc : Q) (l : list Q) : list Q :=
  match l with
  | [] => []
  | d :: l' => let acc' := (acc + d)%Q in acc' :: cumsum_from acc' l'
  end.

Definition cumsum (l : list Q) : list Q := cumsum_from 0%Q l.

(** [torch.diff(x, dim=0, prepend=p)]: consecutive differences of [p :: x]. *)
Fixpoint diff_prepend (p : Z) (l : list Z) : list Z :=
  match l with
  | [] => []
  | a :: l' => (a - p) :: diff_prepend a l'
  end.

(** [F.pad(x, [1, 0], value=v)]: one extra cell in front. *)
Definition pad_front {A} (v : A) (l : list A) : list A := v :: l.

(** [torch.gather(src, 0, index)]; an index outside [src] is an error. *)
Definition gather {A} (src : list A) (index : list nat) : option (list A) :=
  mapM (λ i, src !! i) index.

(** [zeros.scatter_add(0, index, vals)]: [out[index[f]] += vals[f]] for every
    position [f] of [index]; an index outside [out], or fewer values than
    indices, is an error. *)
Fixpoint scatter_add {A} (add : A → A → A) (out : list A)
    (index : list nat) (vals : list A) : option (list A) :=
  match index, vals with
  | [], _ => Some out
  | i :: index', v :: vals' =>
      match out !! i with
      | Some o => scatter_add add (<[i := add o v]> out) index' vals'
      | None => None
      end
  | _ :: _, [] => None
  end.

End Tensor.

(** ** Timeline Aligner over exact rationals
    (variance_binarizer.py, [process_item], lines 82-87)

    The arithmetic of lines 82-87 without the rounding of the float
    operations; [Timeline] below has them. *)

Module Aligner.
Import Num Tensor.

(** [ph_acc = torch.round(torch.cumsum(ph_dur_sec) / timestep + 0.5).long()] *)
Definition ph_acc (durs : list Q) (timestep : Q) : list Z :=
  map (λ c, round_half_even (c / timestep + (1 # 2))%Q) (cumsum durs).

(** [ph_dur = torch.diff(ph_acc, dim=0, prepend=[0])] *)
Definition ph_dur (durs : list Q) (timestep : Q) : list Z :=
  diff_prepend 0 (ph_acc durs timestep).

(** [seconds = sum(meta_data['ph_dur'])] *)
Definition seconds (durs : list Q) : Q := qsum durs.

(** [length = round(seconds / self.timestep)]; Python's float division
    raises [ZeroDivisionError] on a zero divisor. *)
Definition frame_length (durs : list Q) (timestep : Q) : option Z :=
  if Qeq_bool timestep 0 then None
  else Some (round_half_even (seconds durs / timestep)).

(** The frame index written by the spec: the boundary after the first [k]
    units, [round(cumulative_seconds / hop + 0.5)]. *)
Definition boundary (durs : list Q) (hop : Q) (k : nat) : Z :=
  round_half_even (qsum (take k durs) / hop + (1 # 2))%Q.

(** Modelled from the spec: [LengthRegulator] (modules/fastspeech/tts_modules,
    not part of the sources at hand).  Section 4.1: "expand into a frame->unit
    index array by repeating each unit's 1-based index for its frame count". *)
Fixpoint expand_from (unit : nat) (counts : list Z) : list nat :=
  match counts with
  | [] => []
  | c :: counts' => replicate (Z.to_nat c) unit ++ expand_from (S unit) counts'
  end.

Definition length_regulator (counts : list Z) : list nat := expand_from 1 counts.

End Aligner.

(** ** Exceptions and the error monad *)

(** The payloads of the [BinarizationError]s raised by the sources. *)
Inductive binarization_error :=
  | EmptyTokens (item_name : string)
  | DictionaryMismatch (unrecognizable missing : list string)
  | EmptyGtF0 (item_name : string).

(** An [AssertionError] is identified by the condition that failed. *)
Inductive assertion :=
  | NeedsKeyShiftEmbed
  | KeyShiftRange
  | FixedWithRandom
  | DuplicateTargets
  | NeedsSpkId
  | NumSpkTooSmall
  | FixedScale
  | NeedsSpeedEmbed
  | SpeedRange
  | UnknownDomain.

Inductive exn :=
  | ZeroDivisionError
  | IndexError
  | TypeError
  | ValueError
  | NonFinite
  | AlignmentError
  | LinAlgError
  | AssertionError (a : assertion)
  | BinarizationError (e : binarization_error).

Inductive result (A : Type) :=
  | Ok (a : A)
  | Raise (e : exn).
Arguments Ok {A} a.
Arguments Raise {A} e.

Definition rbind {A B} (r : result A) (k : A → result B) : result B :=
  match r with
  | Ok a => k a
  | Raise e => Raise e
  end.

Definition of_option {A} (e : exn) (o : option A) : result A :=
  match o with
  | Some a => Ok a
  | None => Raise e
  end.

(** [assert cond, msg] *)
Definition assert (cond : bool) (a : assertion) : result unit :=
  if cond then Ok tt else Raise (AssertionError a).

Declare Scope result_scope.
Delimit Scope result_scope with result.
Notation "'let?' x := r 'in' k" := (rbind r (λ x, k))
  (at level 10, x pattern, r at level 100, k at level 200) : result_scope.

(** ** Floating-point numbers

    A finite float is the rational it denotes.  An operation of a format
    rounds its exact result to the nearest number of the format, ties to
    even, as IEEE 754 prescribes; the rounding is computed by the division
    of the Standard Library's [SpecFloat] on the numerator and the
    denominator of the exact result.  Signed zeros are not told apart. *)

Module Float.

Definition of_Z (n : Z) : SpecFloat.spec_float :=
  match n with
  | Z0 => SpecFloat.S754_zero false
  | Zpos p => SpecFloat.S754_finite false p 0
  | Zneg p => SpecFloat.S754_finite true p 0
  end.

(** The rational denoted by a float; [None] for an infinity or a NaN. *)
Definition to_Q (x : SpecFloat.spec_float) : option Q :=
  match x with
  | SpecFloat.S754_zero _ => Some 0%Q
  | SpecFloat.S754_finite s m e =>
      let n := if s then Zneg m else Zpos m in
      Some (Qred match e with
                 | Zneg p => Qmake n (Pos.iter xO xH p)
                 | _ => inject_Z (n * 2 ^ e)
                 end)
  | _ => None
  end.

(** [x] rounded to the format with [prec] bits of precision and the
    exponent bound [emax]; [None] when the result overflows. *)
Definition round (prec emax : Z) (x : Q) : option Q :=
  to_Q (SpecFloat.SFdiv prec emax (of_Z (Qnum x)) (of_Z (Zpos (Qden x)))).

Definition f64 : Q → option Q := round 53 1024.
Definition f32 : Q → option Q := round 24 128.

(** A Python float, and an element of a float32 tensor. *)
Definition double (x : Q) : result Q := of_option NonFinite (f64 x).
Definition single (x : Q) : result Q := of_option NonFinite (f32 x).

(** Python's [a + b] and [a / b] on floats. *)
Definition add64 (a b : Q) : result Q := double (a + b).
Definition div64 (a b : Q) : result Q :=
  if Qeq_bool b 0 then Raise ZeroDivisionError else double (a / b).

(** [a + b] and [a / b] on the elements of float32 tensors; a division by
    zero gives an infinity or a NaN. *)
Definition add32 (a b : Q) : result Q := single (a + b).
Definition div32 (a b : Q) : result Q :=
  if Qeq_bool b 0 then Raise NonFinite else single (a / b).

End Float.

(** ** Timeline Aligner (variance_binarizer.py, [process_item], lines 82-92) *)

Module Timeline.
Import Num Tensor.
Local Open Scope result_scope.

(** [[f(x) for x in l]], and a tensor operation applied elementwise, for an
    [f] that may raise. *)
Fixpoint each {A B} (f : A → result B) (l : list A) : result (list B) :=
  match l with
  | [] => Ok []
  | x :: l' =>
      let? y := f x in
      let? ys := each f l' in
      Ok (y :: ys)
  end.

(** The Python floats of a list of the record: a rational that is no
    binary64 number stands for the float nearest to it, as [float] reads a
    decimal. *)
Definition as_floats (l : list Q) : result (list Q) := each Float.double l.

(** [sum(l)] on Python floats: added left to right, from 0. *)
Fixpoint sum_from (acc : Q) (l : list Q) : result Q :=
  match l with
  | [] => Ok acc
  | d :: l' =>
      let? acc' := Float.add64 acc d in
      sum_from acc' l'
  end.

(** [seconds = sum(meta_data['ph_dur'])] *)
Definition seconds (durs : list Q) : result Q := sum_from 0 durs.

(** [length = round(seconds / self.timestep)] *)
Definition frame_length (seconds timestep : Q) : result Z :=
  let? q := Float.div64 seconds timestep in
  Ok (round_half_even q).

(** [torch.FloatTensor(l)] *)
Definition float_tensor (l : list Q) : result (list Q) := each Float.single l.

(** [torch.cumsum(x, dim=0)] of a float32 tensor on the CPU: the running
    total is kept in double precision, and every prefix total is stored as
    float32. *)
Fixpoint cumsum_from (acc : Q) (l : list Q) : result (list Q) :=
  match l with
  | [] => Ok []
  | x :: l' =>
      let? acc' := Float.add64 acc x in
      let? c := Float.single acc' in
      let? cs := cumsum_from acc' l' in
      Ok (c :: cs)
  end.

Definition cumsum (l : list Q) : result (list Q) := cumsum_from 0 l.

(** [torch.round(c / timestep + 0.5).long()] on one prefix total [c];
    [t32] is the time step as float32. *)
Definition frame_index (t32 c : Q) : result Z :=
  let? q := Float.div32 c t32 in
  let? b := Float.add32 q (1 # 2) in
  Ok (round_half_even b).

(** [ph_acc = torch.round(torch.cumsum(ph_dur_sec) / timestep + 0.5).long()] *)
Definition ph_acc (ph_dur_sec : list Q) (timestep : Q) : result (list Z) :=
  let? cs := cumsum ph_dur_sec in
  let? t32 := Float.single timestep in
  each (frame_index t32) cs.

(** [ph_dur = torch.diff(ph_acc, dim=0, prepend=[0])] *)
Definition ph_dur (ph_dur_sec : list Q) (timestep : Q) : result (list Z) :=
  let? acc := ph_acc ph_dur_sec timestep in
  Ok (diff_prepend 0 acc).

(** The frame index written by the spec: the boundary after the first [k]
    units, [round(cumulative_seconds / hop + 0.5)], the cumulative duration
    being the float32 value of the sum of the first [k] durations, added
    one by one. *)
Definition boundary (ph_dur_sec : list Q) (timestep : Q) (k : nat) : result Z :=
  let? total := sum_from 0 (take k ph_dur_sec) in
  let? c := Float.single total in
  let? t32 := Float.single timestep in
  frame_index t32 c.

(** Lines 82-83 for the durations and the time step of an item. *)
Definition frame_count (durs : list Q) (timestep : Q) : result Z :=
  let? durs := as_floats durs in
  let? timestep := Float.double timestep in
  let? seconds := seconds durs in
  frame_length seconds timestep.

(** Lines 85-87 for the durations and the time step of an item. *)
Definition frame_counts (durs : list Q) (timestep : Q) : result (list Z) :=
  let? durs := as_floats durs in
  let? timestep := Float.double timestep in
  let? ph_dur_sec := float_tensor durs in
  ph_dur ph_dur_sec timestep.

(** Modelled from the spec: [get_mel2ph_torch] (utils/binarizer_utils, not part
    of the sources at hand).  Section 4.1: the boundaries are rounded as in
    [ph_acc] and differenced; it "fails with [AlignmentError] if any
    computed per-unit frame count is negative"; the counts are expanded, and
    "the last unit's frame count absorbs the difference (truncate or
    extend) so the returned array length always exactly equals the audio
    frame count". *)
Definition get_mel2ph (ph_dur_sec : list Q) (length : Z) (timestep : Q)
    : result (list nat) :=
  let? counts := ph_dur ph_dur_sec timestep in
  if existsb (λ c, c <? 0) counts then Raise AlignmentError
  else
    let mel2ph := Aligner.length_regulator counts in
    let n := Z.to_nat length in
    Ok (take n mel2ph
        ++ replicate (n - List.length mel2ph)%nat (List.length ph_dur_sec)).

(** Line 90 for the durations and the time step of an item. *)
Definition alignment (durs : list Q) (length : Z) (timestep : Q)
    : result (list nat) :=
  let? durs := as_floats durs in
  let? timestep := Float.double timestep in
  let? ph_dur_sec := float_tensor durs in
  get_mel2ph ph_dur_sec length timestep.

End Timeline.

(** ** Pitch Curve Builder, step 2 (variance_binarizer.py, lines 107-125) *)

Module Pitch.
Import Num Tensor.
Local Open Scope result_scope.

Definition b2z (b : bool) : Z := if b then 1 else 0.

(** [rest = frame_midi_pitch == 0] *)
Definition rest_mask (frame_midi_pitch : list Q) : list bool :=
  map (λ p, Qeq_bool p 0) frame_midi_pitch.

(** [(mel2dur - mel2dur_rest) + (mel2dur == mel2dur_rest)] *)
Definition divisor (mel2dur mel2dur_rest : Z) : Z :=
  (mel2dur - mel2dur_rest) + b2z (mel2dur =? mel2dur_rest).

(** The number of rest frames of unit [p]: the frames aligned to [p] whose
    pitch is zero. *)
Definition rest_frames (p : nat) (mel2ph : list nat) (frame_midi_pitch : list Q) : Z :=
  Z.of_nat (length (filter (λ x, x.1 = p ∧ Qeq_bool x.2 0 = true)
                      (zip mel2ph frame_midi_pitch))).

(** Elementwise division of a float32 tensor by a [long] tensor: the divisor
    is converted to float32. *)
Definition tdiv (p : Q) (d : Z) : result Q :=
  let? d32 := Float.single (inject_Z d) in
  Float.div32 p d32.

Fixpoint tdiv_all (ps : list Q) (ds : list Z) : result (list Q) :=
  match ps, ds with
  | p :: ps', d :: ds' =>
      let? q := tdiv p d in
      let? qs := tdiv_all ps' ds' in
      Ok (q :: qs)
  | [], [] => Ok []
  | _, _ => Raise ValueError
  end.

(** [ph_dur_rest = new_zeros(t_txt + 1).scatter_add(0, mel2ph, rest.long())[1:]] *)
Definition ph_dur_rest (t_txt : nat) (mel2ph : list nat)
    (frame_midi_pitch : list Q) : result (list Z) :=
  let? counts := of_option IndexError
    (scatter_add Z.add (replicate (S t_txt) 0) mel2ph
       (map b2z (rest_mask frame_midi_pitch))) in
  Ok (tail counts).

(** The frame-level divisors of line 122. *)
Definition frame_divisors (t_txt : nat) (ph_dur : list Z) (mel2ph : list nat)
    (frame_midi_pitch : list Q) : result (list Z) :=
  let? mel2dur := of_option IndexError (gather (pad_front 1 ph_dur) mel2ph) in
  let? dur_rest := ph_dur_rest t_txt mel2ph frame_midi_pitch in
  let? mel2dur_rest :=
    of_option IndexError (gather (pad_front 1 dur_rest) mel2ph) in
  Ok (zip_with divisor mel2dur mel2dur_rest).

(** [zeros.scatter_add(0, index, vals)] on float32 tensors:
    [out[index[f]] += vals[f]], frame by frame. *)
Fixpoint scatter_add32 (out : list Q) (index : list nat) (vals : list Q)
    : result (list Q) :=
  match index, vals with
  | [], _ => Ok out
  | i :: index', v :: vals' =>
      match out !! i with
      | Some o =>
          let? o' := Float.add32 o v in
          scatter_add32 (<[i := o']> out) index' vals'
      | None => Raise IndexError
      end
  | _ :: _, [] => Raise IndexError
  end.

(** [ph_midi]: phoneme-level mean MIDI pitch over the non-rest frames. *)
Definition ph_midi (t_txt : nat) (ph_dur : list Z) (mel2ph : list nat)
    (frame_midi_pitch : list Q) : result (list Q) :=
  let? divs := frame_divisors t_txt ph_dur mel2ph frame_midi_pitch in
  let? contrib := tdiv_all frame_midi_pitch divs in
  let? sums := scatter_add32 (replicate (S t_txt) 0%Q) mel2ph contrib in
  Ok (tail sums).

(** [processed_input['midi'] = ph_midi.long()] *)
Definition midi (t_txt : nat) (ph_dur : list Z) (mel2ph : list nat)
    (frame_midi_pitch : list Q) : result (list Z) :=
  let? m := ph_midi t_txt ph_dur mel2ph frame_midi_pitch in
  Ok (map int_trunc m).

(** The values of the frames aligned to unit [p], in the order of the
    frames. *)
Definition unit_values {A} (p : nat) (mel2ph : list nat) (vals : list A) : list A :=
  (filter (λ x, x.1 = p) (zip mel2ph vals)).*2.



(** The float32 sum of [vals], added one by one to [acc]. *)
Fixpoint sum32_from (acc : Q) (vals : list Q) : result Q :=
  match vals with
  | [] => Ok acc
  | v :: vals' =>
      let? acc' := Float.add32 acc v in
      sum32_from acc' vals'
  end.

(** The mean pitch of a unit with the pitches [pitches] and the divisor
    [d], as float32 arithmetic gives it: every pitch is divided by [d], and
    the quotients are added one by one. *)
Fixpoint mean_from (acc : Q) (d : Z) (pitches : list Q) : result Q :=
  match pitches with
  | [] => Ok acc
  | v :: pitches' =>
      let? d32 := Float.single (inject_Z d) in
      let? q := Float.div32 v d32 in
      let? acc' := Float.add32 acc q in
      mean_from acc' d pitches'
  end.

Definition unit_mean (d : Z) (pitches : list Q) : result Q := mean_from 0 d pitches.

End Pitch.

(** ** Configuration *)

(** The entries of [hparams] and [binarization_args] read by the sources. *)
Record hparams := {
  hop_size : Z;
  audio_sample_rate : Z;
  use_key_shift_embed : bool;
  use_speed_embed : bool;
  use_spk_id : bool;
  num_spk : Z;
  interp_uv : bool;
  binary_data_dir : string;
}.

(** [aug_args] of the three augmentation strategies. *)
Record pitch_args := { p_range : Q * Q; p_scale : Q }.
Record fixed_args := { f_targets : list Q; f_scale : Q }.
Record stretch_args := { s_range : Q * Q; s_domain : string; s_scale : Q }.

(** [self.augmentation_args]: a strategy is present or [None]. *)
Record augmentation_args := {
  random_pitch_shifting : option pitch_args;
  fixed_pitch_shifting : option fixed_args;
  random_time_stretching : option stretch_args;
}.

(** ** Augmentation Scheduler
    (acoustic_binarizer.py, [arrange_data_augmentation], lines 225-345) *)

Module Augment.
Import Num.

(** Which [SpectrogramStretchAugmentation] instance [task['func']] is bound to. *)
Inductive aug_kind :=
  | RandomPitchShifting
  | FixedPitchShifting
  | RandomTimeStretching.

(** [task['kwargs']]: a dict over the keys the scheduler writes. *)
Record kwargs := {
  key_shift : option Q;
  replace_spk_id : option Z;
  speed : option Q;
}.

(** An augmentation task: the dict [{'name': .., 'func': .., 'kwargs': ..}]. *)
Record aug_task := {
  name : string;
  func : aug_kind;
  kw : kwargs;
}.

(** [aug_item['kwargs']['speed'] = speed] *)
Definition set_speed (s : Q) (t : aug_task) : aug_task :=
  {| name := name t; func := func t;
     kw := {| key_shift := key_shift (kw t);
              replace_spk_id := replace_spk_id (kw t);
              speed := Some s |} |}.

(** Task dicts are shared, mutable objects: [aug_map] and [aug_list] hold
    references to them.  The store [heap] maps a reference (an index) to the
    current contents of the object. *)
Record sched := {
  heap : list aug_task;
  aug_map : gmap string (list nat);
  aug_list : list nat;
  total_scale : Q;
  draws : nat;
}.

Definition init : sched :=
  {| heap := []; aug_map := ∅; aug_list := []; total_scale := 0%Q; draws := 0 |}.

(** State and exceptions. *)
Definition M (A : Type) : Type := sched → result (A * sched).

Definition ret {A} (a : A) : M A := λ s, Ok (a, s).
Definition bind {A B} (m : M A) (k : A → M B) : M B :=
  λ s, match m s with
       | Ok (a, s') => k a s'
       | Raise e => Raise e
       end.
Definition raise {A} (e : exn) : M A := λ _, Raise e.
Definition lift {A} (r : result A) : M A :=
  λ s, match r with Ok a => Ok (a, s) | Raise e => Raise e end.

#[export] Instance sched_ret : MRet M := @ret.
#[export] Instance sched_bind : MBind M := λ A B k m, bind m k.

(** [for x in l: body(x)] *)
Fixpoint for_each {A} (l : list A) (body : A → M unit) : M unit :=
  match l with
  | [] => mret tt
  | x :: l' => body x;; for_each l' body
  end.

Definition Qlt_bool (a b : Q) : bool := negb (Qle_bool b a).

(** The part of [int(s)] that item names need: an optional sign followed by
    decimal digits.  Anything else is a [ValueError]. *)
Definition digit_of (c : Ascii.ascii) : option Z :=
  let n := Z.of_N (Ascii.N_of_ascii c) in
  if (48 <=? n) && (n <=? 57) then Some (n - 48) else None.

Fixpoint parse_digits (acc : Z) (s : string) : option Z :=
  match s with
  | EmptyString => Some acc
  | String c s' =>
      match digit_of c with
      | Some d => parse_digits (10 * acc + d) s'
      | None => None
      end
  end.

Definition parse_int (s : string) : option Z :=
  match s with
  | EmptyString => None
  | String "-"%char (String c s') => Z.opp <$> parse_digits 0 (String c s')
  | String "+"%char (String c s') => parse_digits 0 (String c s')
  | _ => parse_digits 0 s
  end.

(** [s.split(':', maxsplit=1)[0]] *)
Fixpoint before_colon (s : string) : string :=
  match s with
  | EmptyString => EmptyString
  | String c s' => if Ascii.eqb c ":"%char then EmptyString else String c (before_colon s')
  end.

(** [int(item_name.split(':', maxsplit=1)[0])] *)
Definition dataset_id (item_name : string) : result Z :=
  of_option ValueError (parse_int (before_colon item_name)).

(** [len(targets) == len(set(targets))] *)
Fixpoint distinct (l : list Q) : bool :=
  match l with
  | [] => true
  | x :: l' => forallb (λ y, negb (Qeq_bool x y)) l' && distinct l'
  end.

Section Scheduler.

(** [rnd i] is the value of the [i]-th call of [random.random()];
    [fpow] is the float power [**]. *)
Variables (rnd : nat → Q) (fpow : Q → Q → Q).
Variables (hp : hparams) (spk_count : nat) (args : augmentation_args).

(** [random.random()] *)
Definition random : M Q :=
  λ s, Ok (rnd (draws s),
           {| heap := heap s; aug_map := aug_map s; aug_list := aug_list s;
              total_scale := total_scale s; draws := S (draws s) |}).

(** [random.uniform(a, b)] is [a + (b - a) * random()]. *)
Definition uniform (a b : Q) : M Q :=
  r ← random; mret (a + (b - a) * r)%Q.

(** [random.choices(population, k=k)] is
    [[population[floor(random() * n)] for _ in range(k)]]. *)
Fixpoint choices {A} (population : list A) (k : nat) : M (list A) :=
  match k with
  | O => ret []
  | S k' =>
      r ← random;
      x ← lift (of_option IndexError
             (population !! Z.to_nat (Qfloor (r * inject_Z (Z.of_nat (length population))))));
      xs ← choices population k';
      mret (x :: xs)
  end.

(** Creation of a new task dict; the result is the reference to it. *)
Definition alloc (t : aug_task) : M nat :=
  λ s, Ok (length (heap s),
           {| heap := heap s ++ [t]; aug_map := aug_map s; aug_list := aug_list s;
              total_scale := total_scale s; draws := draws s |}).

(** Reading a task dict through a reference. *)
Definition deref (r : nat) : M aug_task :=
  λ s, match heap s !! r with
       | Some t => Ok (t, s)
       | None => Raise IndexError
       end.

(** In-place update of the task dict behind a reference. *)
Definition mutate (r : nat) (f : aug_task → aug_task) : M unit :=
  λ s, match heap s !! r with
       | Some t =>
           Ok (tt, {| heap := <[r := f t]> (heap s); aug_map := aug_map s;
                      aug_list := aug_list s; total_scale := total_scale s;
                      draws := draws s |})
       | None => Raise IndexError
       end.

(** The registration shared by every branch:
    [if n in aug_map: aug_map[n].append(task) else: aug_map[n] = [task]],
    then [aug_list.append(task)]. *)
Definition register (n : string) (r : nat) : M unit :=
  λ s, Ok (tt, {| heap := heap s;
                  aug_map := match aug_map s !! n with
                             | Some l => <[n := l ++ [r]]> (aug_map s)
                             | None => <[n := [r]]> (aug_map s)
                             end;
                  aug_list := aug_list s ++ [r];
                  total_scale := total_scale s; draws := draws s |}).

(** [total_scale += x] *)
Definition add_scale (x : Q) : M unit :=
  λ s, Ok (tt, {| heap := heap s; aug_map := aug_map s; aug_list := aug_list s;
                  total_scale := (total_scale s + x)%Q; draws := draws s |}).

Definition get_total_scale : M Q := λ s, Ok (total_scale s, s).
Definition get_aug_list : M (list nat) := λ s, Ok (aug_list s, s).

(** Lines 244-248: the shift drawn for one item. *)
Definition key_shift_of (key_shift_min key_shift_max rand : Q) : Q :=
  if Qlt_bool rand 0 then (key_shift_min * Qabs rand)%Q
  else (key_shift_max * rand)%Q.

(** Lines 230-260. *)
Definition random_pitch_stage (all_item_names : list string) : M unit :=
  match random_pitch_shifting args with
  | None => mret tt
  | Some aug_args =>
      let '(key_shift_min, key_shift_max) := p_range aug_args in
      lift (assert (use_key_shift_embed hp) NeedsKeyShiftEmbed);;
      lift (assert (Qlt_bool key_shift_min 0 && Qlt_bool 0 key_shift_max)
              KeyShiftRange);;
      let scale := p_scale aug_args in
      aug_item_names ← choices all_item_names
        (Z.to_nat (int_trunc (scale * inject_Z (Z.of_nat (length all_item_names)))));
      for_each aug_item_names (λ aug_item_name,
        rand ← uniform (-1) 1;
        r ← alloc {| name := aug_item_name; func := RandomPitchShifting;
                     kw := {| key_shift := Some (key_shift_of key_shift_min key_shift_max rand);
                              replace_spk_id := None; speed := None |} |};
        register aug_item_name r);;
      add_scale scale
  end.

(** [for i, target in enumerate(targets)], lines 277-290. *)
Fixpoint fixed_targets (all_item_names : list string) (scale : Q)
    (i : nat) (targets : list Q) : M unit :=
  match targets with
  | [] => mret tt
  | target :: targets' =>
      aug_item_names ← choices all_item_names
        (Z.to_nat (int_trunc (scale * inject_Z (Z.of_nat (length all_item_names)))));
      for_each aug_item_names (λ aug_item_name,
        ds ← lift (dataset_id aug_item_name);
        let replace := (ds + (Z.of_nat i + 1) * Z.of_nat spk_count)%Z in
        r ← alloc {| name := aug_item_name; func := FixedPitchShifting;
                     kw := {| key_shift := Some target;
                              replace_spk_id := Some replace; speed := None |} |};
        register aug_item_name r);;
      fixed_targets all_item_names scale (S i) targets'
  end.

(** Lines 262-292. *)
Definition fixed_pitch_stage (all_item_names : list string) : M unit :=
  match fixed_pitch_shifting args with
  | None => mret tt
  | Some aug_args =>
      let targets := f_targets aug_args in
      let scale := f_scale aug_args in
      lift (assert (bool_decide (random_pitch_shifting args = None)) FixedWithRandom);;
      lift (assert (distinct targets) DuplicateTargets);;
      lift (assert (use_spk_id hp) NeedsSpkId);;
      lift (assert ((1 + Z.of_nat (length targets)) * Z.of_nat spk_count <=? num_spk hp)%Z
              NumSpkTooSmall);;
      lift (assert (Qlt_bool scale 1) FixedScale);;
      fixed_targets all_item_names scale 0 targets;;
      add_scale (scale * inject_Z (Z.of_nat (length targets)))
  end.

(** An element of [aug_items] in the time-stretch stage: an item name drawn
    from [all_item_names], or a reference to a task drawn from [aug_list]. *)
Inductive aug_item :=
  | RawItem (item_name : string)
  | TaskRef (ref : nat).

(** Lines 314-320: the speed drawn for one element. *)
Definition draw_speed (domain : string) (speed_min speed_max : Q) : M Q :=
  if bool_decide (domain = "log") then
    r ← random;
    mret (speed_min * fpow (speed_max / speed_min) r)%Q
  else
    rand ← uniform (-1) 1;
    mret (if Qle_bool 0 rand then 1 + (speed_max - 1) * rand
          else 1 + (1 - speed_min) * rand)%Q.

(** Lines 321-341: the three branches on [aug_type].  A name where a task
    dict is expected (or the converse) is a [TypeError]. *)
Definition stretch_branch (aug_type : nat) (item : aug_item) (s : Q) : M unit :=
  match aug_type, item with
  | 0%nat, RawItem n =>
      r ← alloc {| name := n; func := RandomTimeStretching;
                   kw := {| key_shift := None; replace_spk_id := None;
                            speed := Some s |} |};
      register n r
  | 1%nat, TaskRef i =>
      prior ← deref i;
      aug_task ← alloc prior;
      mutate i (set_speed s);;
      register (name prior) aug_task
  | 2%nat, TaskRef i =>
      mutate i (set_speed s)
  | 0%nat, TaskRef _ | 1%nat, RawItem _ | 2%nat, RawItem _ => raise TypeError
  | _, _ => mret tt
  end.

(** The body of the loop at line 313. *)
Definition stretch_step (domain : string) (speed_min speed_max : Q)
    (x : nat * aug_item) : M unit :=
  s ← draw_speed domain speed_min speed_max;
  stretch_branch x.1 x.2 s.

(** Python's float division. *)
Definition fdiv (a b : Q) : M Q :=
  if Qeq_bool b 0 then raise ZeroDivisionError else mret (a / b)%Q.

(** Lines 294-343. *)
Definition random_time_stretch_stage (all_item_names : list string) : M unit :=
  match random_time_stretching args with
  | None => mret tt
  | Some aug_args =>
      let '(speed_min, speed_max) := s_range aug_args in
      let domain := s_domain aug_args in
      lift (assert (use_speed_embed hp) NeedsSpeedEmbed);;
      lift (assert (Qlt_bool 0 speed_min && Qlt_bool speed_min 1 && Qlt_bool 1 speed_max)
              SpeedRange);;
      lift (assert (bool_decide (domain = "log") || bool_decide (domain = "linear"))
              UnknownDomain);;
      let scale := s_scale aug_args in
      let n := inject_Z (Z.of_nat (length all_item_names)) in
      total ← get_total_scale;
      q_raw ← fdiv scale (1 + total);
      let k_from_raw := int_trunc (q_raw * n) in
      q_aug ← fdiv (total * scale) (1 + total);
      let k_from_aug := int_trunc (q_aug * n) in
      q_mut ← fdiv (total * scale) (1 + scale);
      let k_mutate := int_trunc (q_mut * n) in
      let aug_types := replicate (Z.to_nat k_from_raw) 0%nat
                       ++ replicate (Z.to_nat k_from_aug) 1%nat
                       ++ replicate (Z.to_nat k_mutate) 2%nat in
      raw ← choices all_item_names (Z.to_nat k_from_raw);
      pool ← get_aug_list;
      refs ← choices pool (Z.to_nat (k_from_aug + k_mutate));
      let aug_items := (RawItem <$> raw) ++ (TaskRef <$> refs) in
      for_each (zip aug_types aug_items) (stretch_step domain speed_min speed_max);;
      add_scale scale
  end.

(** [arrange_data_augmentation]: the three stages in their fixed order, from
    [aug_map = {}], [aug_list = []], [total_scale = 0].  The result is the
    returned [aug_map] together with the store its references point into. *)
Definition arrange_data_augmentation (all_item_names : list string) : result sched :=
  match (random_pitch_stage all_item_names;;
         fixed_pitch_stage all_item_names;;
         random_time_stretch_stage all_item_names) init with
  | Ok (_, s) => Ok s
  | Raise e => Raise e
  end.

End Scheduler.

(** [aug_map.get(item_name, [])], with every reference followed. *)
Definition tasks_for (s : sched) (item_name : string) : list aug_task :=
  omap (λ r, heap s !! r) (default [] (aug_map s !! item_name)).

(** The references, in increasing order, of the tasks named [n] in a store
    whose tasks have the names [names]. *)
Definition refs_named (names : list string) (n : string) : list nat :=
  filter (λ i, names !! i = Some n) (seq 0 (length names)).

(** The bookkeeping of the scheduler: [aug_list] holds every task in creation
    order, and [aug_map[n]] holds, in creation order, exactly the tasks
    named [n]. *)
Definition grouped (s : sched) : Prop :=
  aug_list s = seq 0 (length (heap s))
  ∧ ∀ n, default [] (aug_map s !! n) = refs_named (name <$> heap s) n.

(** A computation keeps the bookkeeping intact. *)
Definition preserves {A} (m : M A) : Prop :=
  ∀ s a s', grouped s → m s = Ok (a, s') → grouped s'.

(** The task of the random pitch stage for item [n] and draw [u] of
    [random.random()]. *)
Definition pitch_task (key_shift_min key_shift_max : Q) (n : string) (u : Q) : aug_task :=
  {| name := n; func := RandomPitchShifting;
     kw := {| key_shift :=
                Some (key_shift_of key_shift_min key_shift_max (-1 + (1 - -1) * u)%Q);
              replace_spk_id := None; speed := None |} |}.

(** [t] is a fixed pitch-shift task for the target [target] at index [i]:
    its replacement speaker id is the dataset id of its item plus
    [(i + 1) * spk_count]. *)
Definition fixed_task (spk_count : nat) (names : list string) (i : nat)
    (target : Q) (t : aug_task) : Prop :=
  ∃ orig, name t ∈ names
    ∧ dataset_id (name t) = Ok orig
    ∧ func t = FixedPitchShifting
    ∧ kw t = {| key_shift := Some target;
                replace_spk_id := Some (orig + (Z.of_nat i + 1) * Z.of_nat spk_count);
                speed := None |}.

End Augment.

(** ** Items and processed records *)

(** [temp_dict] of [AcousticBinarizer.load_meta_data]. *)
Record acoustic_meta := {
  a_wav_fn : string;
  a_ph_seq : list string;
  a_ph_dur : list Q;
  a_spk_id : Z;
}.

(** [temp_dict] of [VarianceBinarizer.load_meta_data]. *)
Record variance_meta := {
  v_spk_id : Z;
  v_wav_fn : string;
  v_ph_seq : list string;
  v_ph_dur : list Q;
  v_ph_num : list Z;
  v_note_seq : list string;
  v_note_dur : list Q;
}.

(** [processed_input] of [AcousticBinarizer.process_item]. *)
Record acoustic_record := {
  ar_name : string;
  ar_wav_fn : string;
  ar_spk_id : Z;
  ar_seconds : Q;
  ar_length : Z;
  ar_mel : list (list Q);
  ar_tokens : list Z;
  ar_ph_dur : list Q;
  ar_interp_uv : bool;
  ar_f0 : list Q;
  ar_mel2ph : list nat;
  ar_key_shift : option Q;
  ar_speed : option Q;
}.

(** [processed_input] of [VarianceBinarizer.process_item]. *)
Record variance_record := {
  vr_name : string;
  vr_wav_fn : string;
  vr_spk_id : Z;
  vr_seconds : Q;
  vr_length : Z;
  vr_tokens : list Z;
  vr_ph_dur : list Z;
  vr_ph2word : list nat;
  vr_mel2ph : list nat;
  vr_midi : list Z;
  vr_base_pitch : list Q;
  vr_delta_pitch : list Q;
  vr_uv : list bool;
}.

(** The external collaborators: phoneme encoder, spectrogram extractor, pitch
    estimator (applied to the waveform of a file), note names
    ([librosa.note_to_midi] returns an integer), the interpolation and
    smoothing of a pitch curve that has a frame which is no rest, the pitch
    scale, and the spectrogram stretcher that executes an augmentation task.
    The first four read their input and may raise. *)
Class Backend := {
  encode : list string → result (list Z);
  wav2spec : string → result (list (list Q));
  get_pitch_parselmouth : string → Z → bool → result (list Q * list bool);
  note_to_midi : string → result Z;
  base_pitch_of : list Q → list bool → list Q;
  hz_to_midi : Q → Q;
  stretch : Augment.aug_task → acoustic_record → acoustic_record;
}.

(** [uv.all()] *)
Definition all_unvoiced (uv : list bool) : bool := forallb id uv.

(** ** Coverage Validator (acoustic_binarizer.py, [check_coverage]) *)

Module Coverage.

Definition nl : string := String (ascii_of_nat 10) EmptyString.

(** Lines 80-85: the scan that accumulates [ph_occurred]. *)
Fixpoint scan (ph_occurred : list string) (items : list (string * acoustic_meta))
    : result (list string) :=
  match items with
  | [] => Ok ph_occurred
  | (item_name, meta) :: items' =>
      let ph_occurred := ph_occurred ++ a_ph_seq meta in
      if bool_decide (length ph_occurred = 0%nat)
      then Raise (BinarizationError (EmptyTokens item_name))
      else scan ph_occurred items'
  end.

(** Lines 86-89: occurrences are counted for required phonemes only. *)
Definition count (ph_required : gset string) (ph_occurred : list string)
    (phoneme_map : gmap string nat) : gmap string nat :=
  fold_left (λ m ph, if bool_decide (ph ∈ ph_required) then alter S ph m else m)
    ph_occurred phoneme_map.

(** [sorted(..)] on strings. *)
Definition sorted (l : list string) : list string := merge_sort String.le l.

(** The [end] argument of the [i]-th entry (lines 94-99). *)
Definition entry_end (n i : nat) : string :=
  if bool_decide (Z.of_nat i = Z.of_nat n - 1) then nl
  else if bool_decide (i mod 10 = 9)%nat then "," +:+ nl
  else ", ".

(** One [print(f"'{key}': {phoneme_map[key]}", end=end)]. *)
Definition entry (n : nat) (phoneme_map : gmap string nat) (i : nat) (key : string)
    : string :=
  "'" +:+ key +:+ "': " +:+ pretty (default 0%nat (phoneme_map !! key))
      +:+ entry_end n i.

(** Lines 92-100: what is printed before the chart is drawn. *)
Definition distribution (ph_required : gset string) (phoneme_map : gmap string nat)
    : list string :=
  ("===== Phoneme Distribution Summary =====" +:+ nl)
  :: imap (entry (size ph_required) phoneme_map)
       (sorted (elements (dom phoneme_map))).

(** Lines 92-100 and 119: what is printed when the chart has been saved. *)
Definition summary (ph_required : gset string) (phoneme_map : gmap string nat)
    (filename : string) : list string :=
  distribution ph_required phoneme_map
  ++ ["| save summary to '" +:+ filename +:+ "'" +:+ nl].

(** The width of the figure, [int(len(ph_required) * 0.8)], in inches. *)
Definition figure_width (ph_required : gset string) : result Z :=
  rbind (Float.double (8 # 10)) (λ factor,
  rbind (Float.double (inject_Z (Z.of_nat (size ph_required)) * factor)) (λ w,
  Ok (Num.int_trunc w))).

(** [os.path.join(dir, 'phoneme_distribution.jpg')] *)
Definition summary_file (dir : string) : string :=
  if bool_decide (dir = EmptyString) then "phoneme_distribution.jpg"
  else if bool_decide (String.get (String.length dir - 1) dir = Some "/"%char)
  then dir +:+ "phoneme_distribution.jpg"
  else dir +:+ "/" +:+ "phoneme_distribution.jpg".

(** [check_coverage]: the printed lines and the outcome.  [phoneme_list] is
    the result of [build_phoneme_list()]; [items] is [self.items] in
    insertion order.  [chart] stands for the calls of matplotlib in lines
    102-118, from [plt.figure] to [plt.savefig]: given the width of the
    figure, the bars and the file name, it draws and saves the chart, or
    raises. *)
Definition check_coverage (chart : Z → gmap string nat → string → result unit)
    (hp : hparams) (phoneme_list : list string)
    (items : list (string * acoustic_meta)) : list string * result unit :=
  let ph_required : gset string := list_to_set phoneme_list in
  let phoneme_map : gmap string nat := gset_to_gmap 0%nat ph_required in
  match scan [] items with
  | Raise e => ([], Raise e)
  | Ok ph_occurred =>
      let phoneme_map := count ph_required ph_occurred phoneme_map in
      let occurred : gset string := list_to_set ph_occurred in
      let filename := summary_file (binary_data_dir hp) in
      match rbind (figure_width ph_required)
                  (λ width, chart width phoneme_map filename) with
      | Raise e => (distribution ph_required phoneme_map, Raise e)
      | Ok _ =>
          let out := summary ph_required phoneme_map filename in
          if bool_decide (occurred ≠ ph_required) then
            let unrecognizable_phones := occurred ∖ ph_required in
            let missing_phones := ph_required ∖ occurred in
            (out, Raise (BinarizationError
                    (DictionaryMismatch (sorted (elements unrecognizable_phones))
                                        (sorted (elements missing_phones)))))
          else (out, Ok tt)
      end
  end.

End Coverage.

(** ** Parallel Binarization Driver, serial mode
    (acoustic_binarizer.py, [process_data_split], lines 128-185) *)

Module Driver.
Import Num.

(** The record store ([builder]), the length index and the duration totals;
    [finalized] records [builder.finalize()] and the write of the
    [.lengths] file, [raised] the exception that ended the split, if any. *)
Record outcome (R : Type) := {
  store : list R;
  lengths : list Z;
  total_sec : Q;
  total_raw_sec : Q;
  finalized : bool;
  raised : option exn;
}.
Arguments store {R} _.
Arguments lengths {R} _.
Arguments total_sec {R} _.
Arguments total_raw_sec {R} _.
Arguments finalized {R} _.
Arguments raised {R} _.

Section Split.
Context {Meta R : Type}.
Variables (name_of : R → string) (length_of : R → Z) (seconds_of : R → Q).
Variable process_item : string → Meta → result (option R).
Variable run_task : Augment.aug_task → R → R.

Definition start : outcome R :=
  {| store := []; lengths := []; total_sec := 0; total_raw_sec := 0;
     finalized := false; raised := None |}.

(** [builder.add_item(x); lengths.append(x['length']); total_sec += x['seconds']] *)
Definition add_item (raw : bool) (x : R) (o : outcome R) : outcome R :=
  {| store := store o ++ [x];
     lengths := lengths o ++ [length_of x];
     total_sec := (total_sec o + seconds_of x)%Q;
     total_raw_sec := if raw then (total_raw_sec o + seconds_of x)%Q
                      else total_raw_sec o;
     finalized := finalized o; raised := raised o |}.

(** [postprocess(_item)], lines 145-160. *)
Definition postprocess (aug : Augment.sched) (item : option R) (o : outcome R)
    : outcome R :=
  match item with
  | None => o
  | Some x =>
      fold_left (λ o task, add_item false (run_task task x) o)
        (Augment.tasks_for aug (name_of x)) (add_item true x o)
  end.

(** The serial loop, lines 171-173: an exception of [process_item] leaves
    the loop and the function. *)
Fixpoint serial (aug : Augment.sched) (args : list (string * Meta))
    (o : outcome R) : outcome R :=
  match args with
  | [] => o
  | (item_name, meta) :: args' =>
      match process_item item_name meta with
      | Raise e =>
          {| store := store o; lengths := lengths o; total_sec := total_sec o;
             total_raw_sec := total_raw_sec o; finalized := finalized o;
             raised := Some e |}
      | Ok item => serial aug args' (postprocess aug item o)
      end
  end.

(** Lines 175-178. *)
Definition finalize (o : outcome R) : outcome R :=
  match raised o with
  | Some _ => o
  | None =>
      {| store := store o; lengths := lengths o; total_sec := total_sec o;
         total_raw_sec := total_raw_sec o; finalized := true; raised := None |}
  end.

(** [process_data_split] with [num_workers = 0].  [schedule] is the result of
    [self.arrange_data_augmentation(prefix)] when [apply_augmentation] holds;
    an exception there ends the split before the first item is processed. *)
Definition process_data_split (args : list (string * Meta))
    (apply_augmentation : bool) (schedule : result Augment.sched) : outcome R :=
  if apply_augmentation then
    match schedule with
    | Raise e =>
        {| store := []; lengths := []; total_sec := 0; total_raw_sec := 0;
           finalized := false; raised := Some e |}
    | Ok aug => finalize (serial aug args start)
    end
  else finalize (serial Augment.init args start).

End Split.
End Driver.

(** ** The acoustic binarizer *)

Module Acoustic.
Import Num.
Local Open Scope result_scope.

Section Binarizer.
Context `{Backend}.
Variable hp : hparams.

(** [process_item], lines 187-202: [processed_input] as it is before the
    pitch is estimated, the keys set later being empty. *)
Definition processed_input (item_name : string) (meta_data : acoustic_meta)
    : result acoustic_record :=
  let? mel := wav2spec (a_wav_fn meta_data) in
  let length := Z.of_nat (List.length mel) in
  let? seconds :=
    (if audio_sample_rate hp =? 0 then Raise ZeroDivisionError
     else Float.double
            (inject_Z (length * hop_size hp) / inject_Z (audio_sample_rate hp))%Q) in
  let? tokens := encode (a_ph_seq meta_data) in
  let? durs := Timeline.as_floats (a_ph_dur meta_data) in
  let? ph_dur := Timeline.float_tensor durs in
  Ok {|
    ar_name := item_name;
    ar_wav_fn := a_wav_fn meta_data;
    ar_spk_id := a_spk_id meta_data;
    ar_seconds := seconds;
    ar_length := length;
    ar_mel := mel;
    ar_tokens := tokens;
    ar_ph_dur := ph_dur;
    ar_interp_uv := interp_uv hp;
    ar_f0 := [];
    ar_mel2ph := [];
    ar_key_shift := None;
    ar_speed := None;
  |}.

(** [process_item], lines 187-223.  The time step that [get_mel2ph_torch]
    takes from [hparams] is [hop_size / audio_sample_rate]. *)
Definition process_item (item_name : string) (meta_data : acoustic_meta)
    : result (option acoustic_record) :=
  let? x := processed_input item_name meta_data in
  let? estimate :=
    get_pitch_parselmouth (a_wav_fn meta_data) (ar_length x) (interp_uv hp) in
  if all_unvoiced estimate.2
  then Raise (BinarizationError (EmptyGtF0 item_name))
  else
    let? f0 := Timeline.float_tensor estimate.1 in
    let? timestep :=
      Float.double (inject_Z (hop_size hp) / inject_Z (audio_sample_rate hp))%Q in
    let? mel2ph := Timeline.get_mel2ph (ar_ph_dur x) (ar_length x) timestep in
    Ok (Some {|
      ar_name := ar_name x;
      ar_wav_fn := ar_wav_fn x;
      ar_spk_id := ar_spk_id x;
      ar_seconds := ar_seconds x;
      ar_length := ar_length x;
      ar_mel := ar_mel x;
      ar_tokens := ar_tokens x;
      ar_ph_dur := ar_ph_dur x;
      ar_interp_uv := ar_interp_uv x;
      ar_f0 := f0;
      ar_mel2ph := mel2ph;
      ar_key_shift := if use_key_shift_embed hp then Some 0%Q else None;
      ar_speed := if use_speed_embed hp then Some 1%Q else None;
    |}).

(** [process_data_split(prefix, num_workers=0, apply_augmentation)], where
    [items] is [self.meta_data_iterator(prefix)]. *)
Definition process_data_split (rnd : nat → Q) (fpow : Q → Q → Q)
    (spk_count : nat) (args : augmentation_args)
    (items : list (string * acoustic_meta)) (apply_augmentation : bool)
    : Driver.outcome acoustic_record :=
  Driver.process_data_split ar_name ar_length ar_seconds process_item stretch
    items apply_augmentation
    (Augment.arrange_data_augmentation rnd fpow hp spk_count args items.*1).

(** [len(self.augmentation_args) > 0], for [augmentation_args] whose keys
    are the configured strategies. *)
Definition augmented (args : augmentation_args) : bool :=
  bool_decide (is_Some (random_pitch_shifting args))
  || bool_decide (is_Some (fixed_pitch_shifting args))
  || bool_decide (is_Some (random_time_stretching args)).

(** [process], lines 65-72, once [super().process()] (basics/base_binarizer,
    not part of the sources at hand) has returned: [valid_items] and
    [train_items] are what [self.meta_data_iterator] yields for the two
    prefixes, and [num_workers] is 0.  The result is the outcome of the
    valid split and, when that split has raised nothing, the outcome of the
    train split. *)
Definition process (rnd : nat → Q) (fpow : Q → Q → Q)
    (spk_count : nat) (args : augmentation_args)
    (valid_items train_items : list (string * acoustic_meta))
    : Driver.outcome acoustic_record * option (Driver.outcome acoustic_record) :=
  let valid := process_data_split rnd fpow spk_count args valid_items false in
  match Driver.raised valid with
  | Some _ => (valid, None)
  | None =>
      (valid,
       Some (process_data_split rnd fpow spk_count args train_items (augmented args)))
  end.

End Binarizer.
End Acoustic.

(** ** The variance binarizer *)

Module Variance.
Import Num Tensor.
Local Open Scope result_scope.

Section Binarizer.
Context `{Backend}.
Variable timestep : Q.

(** [note_pitch], line 112: the MIDI number of a note, 0 for a rest, as an
    element of a float32 tensor. *)
Definition note_pitch_of (n : string) : result Q :=
  if bool_decide (n = "rest") then Ok 0%Q
  else
    let? k := note_to_midi n in
    Float.single (inject_Z k).

(** Lines 127-137: [interp1d] is given the positions and the pitches of the
    frames that are no rest, and raises [ValueError] when there is none;
    otherwise the rest frames are filled in and the curve is smoothed. *)
Definition base_pitch (frame_midi_pitch : list Q) (rest : list bool)
    : result (list Q) :=
  if forallb id rest then Raise ValueError
  else Ok (base_pitch_of frame_midi_pitch rest).

(** [process_item], lines 82-137: [processed_input] as it is before the
    pitch is estimated, the keys set later being empty.  [self.timestep] is
    a Python float. *)
Definition processed_input (item_name : string) (meta_data : variance_meta)
    : result variance_record :=
  let? durs := Timeline.as_floats (v_ph_dur meta_data) in
  let? note_durs := Timeline.as_floats (v_note_dur meta_data) in
  let? timestep := Float.double timestep in
  let? seconds := Timeline.seconds durs in
  let? length := Timeline.frame_length seconds timestep in
  let t_txt := List.length (v_ph_seq meta_data) in
  let? ph_dur_sec := Timeline.float_tensor durs in
  let? ph_dur := Timeline.ph_dur ph_dur_sec timestep in
  let ph2word := Aligner.length_regulator (v_ph_num meta_data) in
  let? mel2ph := Timeline.get_mel2ph ph_dur_sec length timestep in
  let? tokens := encode (v_ph_seq meta_data) in
  let? note_dur := Timeline.float_tensor note_durs in
  let? mel2note :=
    Timeline.get_mel2ph note_dur (Z.of_nat (List.length mel2ph)) timestep in
  let? note_pitch := Timeline.each note_pitch_of (v_note_seq meta_data) in
  let? frame_midi_pitch :=
    of_option IndexError (gather (pad_front 0%Q note_pitch) mel2note) in
  let? midi := Pitch.midi t_txt ph_dur mel2ph frame_midi_pitch in
  let? base_pitch := base_pitch frame_midi_pitch (Pitch.rest_mask frame_midi_pitch) in
  Ok {|
    vr_name := item_name;
    vr_wav_fn := v_wav_fn meta_data;
    vr_spk_id := v_spk_id meta_data;
    vr_seconds := seconds;
    vr_length := length;
    vr_tokens := tokens;
    vr_ph_dur := ph_dur;
    vr_ph2word := ph2word;
    vr_mel2ph := mel2ph;
    vr_midi := midi;
    vr_base_pitch := base_pitch;
    vr_delta_pitch := [];
    vr_uv := [];
  |}.

(** [process_item], lines 81-149. *)
Definition process_item (item_name : string) (meta_data : variance_meta)
    : result (option variance_record) :=
  let? x := processed_input item_name meta_data in
  let? estimate := get_pitch_parselmouth (v_wav_fn meta_data) (vr_length x) true in
  if all_unvoiced estimate.2 then Ok None
  else
    let? delta_pitch :=
      Timeline.each (λ fb, Float.single (hz_to_midi fb.1 - fb.2)%Q)
        (zip estimate.1 (vr_base_pitch x)) in
    Ok (Some {|
      vr_name := vr_name x;
      vr_wav_fn := vr_wav_fn x;
      vr_spk_id := vr_spk_id x;
      vr_seconds := vr_seconds x;
      vr_length := vr_length x;
      vr_tokens := vr_tokens x;
      vr_ph_dur := vr_ph_dur x;
      vr_ph2word := vr_ph2word x;
      vr_mel2ph := vr_mel2ph x;
      vr_midi := vr_midi x;
      vr_base_pitch := vr_base_pitch x;
      vr_delta_pitch := delta_pitch;
      vr_uv := estimate.2;
    |}).

(** [arrange_data_augmentation] returns [{}]. *)
Definition arrange_data_augmentation : result Augment.sched := Ok Augment.init.

(** Modelled from the spec: [BaseBinarizer.process_data_split]
    (basics/base_binarizer, not part of the sources at hand).  Section 4.5:
    "skip items whose processing returned no result ...; append the record to
    the store; accumulate its frame length and duration; then apply all
    queued augmentation tasks for that item name"; the store is finalized
    after all items are consumed.  This is the serial driver of the acoustic
    binarizer; with an empty schedule no task is ever run. *)
Definition process_data_split (items : list (string * variance_meta))
    : Driver.outcome variance_record :=
  Driver.process_data_split vr_name vr_length vr_seconds process_item (λ _ x, x)
    items false arrange_data_augmentation.

End Binarizer.
End Variance.

(** ** Sample data *)

Module Samples.

(** A stand-in for the external collaborators: the file ["silent.wav"] is
    entirely unvoiced, every other file is voiced on every frame. *)
Definition backend : Backend := {|
  encode := λ ph_seq, Ok (map (λ _, 0) ph_seq);
  wav2spec := λ _, Ok [[0%Q]; [0%Q]];
  get_pitch_parselmouth := λ wav_fn length _,
    if bool_decide (wav_fn = "silent.wav")
    then Ok (replicate (Z.to_nat length) 0%Q, replicate (Z.to_nat length) true)
    else Ok (replicate (Z.to_nat length) 440%Q, replicate (Z.to_nat length) false);
  note_to_midi := λ _, Ok 60;
  base_pitch_of := λ pitch _, pitch;
  hz_to_midi := λ f, f;
  stretch := λ _ x, x;
|}.

(** A stand-in for matplotlib, which cannot save a figure of width zero. *)
Definition chart (width : Z) (bars : gmap string nat) (filename : string)
    : result unit :=
  if width =? 0 then Raise LinAlgError else Ok tt.

(** A variance item whose second duration is negative. *)
Definition backwards : variance_meta := {|
  v_spk_id := 0; v_wav_fn := "voiced.wav";
  v_ph_seq := ["a"; "b"]; v_ph_dur := [1; -(1 # 2)]%Q; v_ph_num := [2];
  v_note_seq := ["C4"]; v_note_dur := [1 # 2]%Q;
|}.


(** An entirely unvoiced variance item whose only note that is no rest has
    no frame. *)
Definition all_rest : variance_meta := {|
  v_spk_id := 0; v_wav_fn := "silent.wav";
  v_ph_seq := ["a"]; v_ph_dur := [3]%Q; v_ph_num := [1];
  v_note_seq := ["rest"; "C4"]; v_note_dur := [3; 0]%Q;
|}.

(** The item of the row [r] of a dataset [raw] with the id 0, as the loader
    of the variance binarizer leaves it. *)
Definition all_rest_loaded : variance_meta := {|
  v_spk_id := 0; v_wav_fn := "raw/wavs/r.wav";
  v_ph_seq := ["a"]; v_ph_dur := [3]%Q; v_ph_num := [1];
  v_note_seq := ["rest"; "C4"]; v_note_dur := [3; 0]%Q;
|}.

(** A fixed sequence of values of [random.random()]. *)
Definition coin (i : nat) : Q := if Nat.even i then 1 # 4 else 3 # 4.

Definition flags : hparams := {|
  hop_size := 512; audio_sample_rate := 44100;
  use_key_shift_embed := true; use_speed_embed := true; use_spk_id := true;
  num_spk := 9; interp_uv := true; binary_data_dir := "data";
|}.

Definition no_augmentation : augmentation_args := {|
  random_pitch_shifting := None;
  fixed_pitch_shifting := None;
  random_time_stretching := None;
|}.


(** Fixed pitch shifting alone: two targets, scale 0.5. *)
Definition fixed_only : augmentation_args := {|
  random_pitch_shifting := None;
  fixed_pitch_shifting := Some {| f_targets := [3; -3]%Q; f_scale := 1 # 2 |};
  random_time_stretching := None;
|}.

(** Both pitch strategies at once. *)
Definition both_pitch : augmentation_args := {|
  random_pitch_shifting := Some {| p_range := (-5, 5)%Q; p_scale := 1 # 2 |};
  fixed_pitch_shifting := Some {| f_targets := [3; -3]%Q; f_scale := 1 # 2 |};
  random_time_stretching := None;
|}.

(** Random pitch shifting followed by random time stretching. *)
Definition pitch_then_stretch : augmentation_args := {|
  random_pitch_shifting := Some {| p_range := (-5, 5)%Q; p_scale := 1 # 2 |};
  fixed_pitch_shifting := None;
  random_time_stretching :=
    Some {| s_range := (1 # 2, 2)%Q; s_domain := "linear"; s_scale := 2 |};
|}.


Definition three_items : list string := ["0:a"; "1:b"; "2:c"].

Definition two_items : list string := ["0:a"; "0:b"].

Definition voiced : acoustic_meta :=
  {| a_wav_fn := "voiced.wav"; a_ph_seq := ["a"]; a_ph_dur := [1 # 50]%Q; a_spk_id := 0 |}.

Definition silent : acoustic_meta :=
  {| a_wav_fn := "silent.wav"; a_ph_seq := ["a"]; a_ph_dur := [1 # 50]%Q; a_spk_id := 0 |}.

Definition voiced_v : variance_meta := {|
  v_spk_id := 0; v_wav_fn := "voiced.wav";
  v_ph_seq := ["a"; "b"]; v_ph_dur := [1 # 2; 1 # 4]%Q; v_ph_num := [2];
  v_note_seq := ["C4"]; v_note_dur := [3 # 4]%Q;
|}.

Definition silent_v : variance_meta := {|
  v_spk_id := 0; v_wav_fn := "silent.wav";
  v_ph_seq := ["a"; "b"]; v_ph_dur := [1 # 2; 1 # 4]%Q; v_ph_num := [2];
  v_note_seq := ["C4"]; v_note_dur := [3 # 4]%Q;
|}.

End Samples.

(** ** Vocabulary for the schedule *)

Module Schedule.
Import Num Augment.

(** [m] keeps the property [P] of every task in the store, and the values it
    returns satisfy [R]. *)
Definition keeps (P : aug_task → Prop) {A} (m : M A) (R : A → Prop) : Prop :=
  ∀ s a s', Forall P (heap s) → m s = Ok (a, s') → Forall P (heap s') ∧ R a.

(** The speed of lines 314-320 for the value [u] of [random.random()]. *)
Definition speed_of (fpow : Q → Q → Q) (domain : string)
    (speed_min speed_max u : Q) : Q :=
  if bool_decide (domain = "log") then (speed_min * fpow (speed_max / speed_min) u)%Q
  else
    let rand := (-1 + (1 - -1) * u)%Q in
    if Qle_bool 0 rand then (1 + (speed_max - 1) * rand)%Q
    else (1 + (1 - speed_min) * rand)%Q.

(** The task of lines 322-326 for the raw item [n] and the speed [sp]. *)
Definition stretch_task (n : string) (sp : Q) : aug_task :=
  {| name := n; func := RandomTimeStretching;
     kw := {| key_shift := None; replace_spk_id := None; speed := Some sp |} |}.

(** The task of lines 281-285 for the item [n] with dataset id [ds] and the
    target [target] at index [i]. *)
Definition target_task (spk_count : nat) (n : string) (ds : Z) (i : nat)
    (target : Q) : aug_task :=
  {| name := n; func := FixedPitchShifting;
     kw := {| key_shift := Some target;
              replace_spk_id := Some (ds + (Z.of_nat i + 1) * Z.of_nat spk_count);
              speed := None |} |}.

(** The pool sizes of lines 307-309, for the total scale [total] of the
    earlier stages, the scale [scale] of the stage and [n] items. *)
Definition k_from_raw (total scale : Q) (n : nat) : Z :=
  int_trunc (scale / (1 + total) * inject_Z (Z.of_nat n)).

Definition k_from_aug (total scale : Q) (n : nat) : Z :=
  int_trunc (total * scale / (1 + total) * inject_Z (Z.of_nat n)).

Definition k_mutate (total scale : Q) (n : nat) : Z :=
  int_trunc (total * scale / (1 + scale) * inject_Z (Z.of_nat n)).

End Schedule.

(** ** The duration report
    (acoustic_binarizer.py, [process_data_split], lines 180-185) *)

Module Report.
Import Driver.

(** A printed line, with its numbers as they are before they are formatted
    to two decimals. *)
Inductive line :=
  | TotalDuration (prefix : string) (seconds : Q)
  | BeforeAugmentation (prefix : string) (seconds : Q)
  | AfterAugmentation (prefix : string) (seconds ratio : Q).

(** Lines 180-185, reached after the store has been finalized: what is
    printed, and the outcome.  The second line of the augmented report
    divides by [total_raw_sec]. *)
Definition duration_report {R} (prefix : string) (apply_augmentation : bool)
    (o : outcome R) : list line * result unit :=
  if apply_augmentation then
    if Qeq_bool (total_raw_sec o) 0
    then ([BeforeAugmentation prefix (total_raw_sec o)], Raise ZeroDivisionError)
    else ([BeforeAugmentation prefix (total_raw_sec o);
           AfterAugmentation prefix (total_sec o) (total_sec o / total_raw_sec o)],
          Ok tt)
  else ([TotalDuration prefix (total_raw_sec o)], Ok tt).

End Report.

(** ** Text primitives

    The methods of Python's [str] used by the loaders.  A character is a
    code point below 256. *)

Module Text.

(** [c.isspace()] *)
Definition is_space (c : Ascii.ascii) : bool :=
  let n := Ascii.N_of_ascii c in
  ((9 <=? n) && (n <=? 13) || (28 <=? n) && (n <=? 32) || (n =? 133) || (n =? 160))%N.

(** [s.split()]: the maximal runs of characters that are no whitespace. *)
Fixpoint split_ws (s : string) : list string :=
  match s with
  | EmptyString => []
  | String c s' =>
      if is_space c then split_ws s'
      else
        match s' with
        | EmptyString => [String c EmptyString]
        | String c' _ =>
            if is_space c' then String c EmptyString :: split_ws s'
            else
              match split_ws s' with
              | w :: ws => String c w :: ws
              | [] => [String c EmptyString]
              end
        end
  end.

(** [s.split(sep)] for a separator of one character. *)
Fixpoint split_on (sep : Ascii.ascii) (s : string) : list string :=
  match s with
  | EmptyString => [EmptyString]
  | String c s' =>
      if Ascii.eqb c sep then EmptyString :: split_on sep s'
      else
        match split_on sep s' with
        | w :: ws => String c w :: ws
        | [] => [String c EmptyString]
        end
  end.

End Text.

(** ** Dictionaries in insertion order *)

Module Dict.
Section Dict.
Context {V : Type}.

(** [d[k] = v]: a key that is present keeps its position. *)
Fixpoint setitem (k : string) (v : V) (d : list (string * V)) : list (string * V) :=
  match d with
  | [] => [(k, v)]
  | (k', v') :: d' =>
      if decide (k' = k) then (k, v) :: d' else (k', v') :: setitem k v d'
  end.

(** [d.update(other)] *)
Definition update (d other : list (string * V)) : list (string * V) :=
  fold_left (λ d kv, setitem kv.1 kv.2 d) other d.

(** [d.get(k)] *)
Fixpoint get (k : string) (d : list (string * V)) : option V :=
  match d with
  | [] => None
  | (k', v') :: d' => if decide (k' = k) then Some v' else get k d'
  end.

End Dict.
End Dict.

(** ** Loading the transcriptions *)

Module Loader.

(** The exceptions of the two [load_meta_data] methods: a line that
    [json.loads] does not turn into an object with string values, a missing
    key, a missing field of a grid line, a text that is no number, and the
    four assertions. *)
Inductive failure :=
  | BadJson
  | KeyError (key : string)
  | FieldIndexError (index : nat)
  | FloatValueError (text : string)
  | IntValueError (text : string)
  | PhDurMismatch (item_name : string)
  | PhNumMismatch (item_name : string)
  | NoteDurMismatch (item_name : string)
  | AllNotesRest (item_name : string).

Definition and_then {A B} (r : failure + A) (k : A → failure + B) : failure + B :=
  match r with
  | inl e => inl e
  | inr a => k a
  end.

Declare Scope load_scope.
Delimit Scope load_scope with load.
Notation "'let!' x := r 'in' k" := (and_then r (λ x, k))
  (at level 10, x pattern, r at level 100, k at level 200) : load_scope.

Local Open Scope load_scope.

Definition required {A} (e : failure) (o : option A) : failure + A :=
  match o with
  | Some a => inr a
  | None => inl e
  end.

(** [[f(x) for x in l]] *)
Fixpoint each {A B} (f : A → failure + B) (l : list A) : failure + list B :=
  match l with
  | [] => inr []
  | x :: l' =>
      let! y := f x in
      let! ys := each f l' in
      inr (y :: ys)
  end.

(** [[number(x) for x in text.split()]] *)
Definition numbers {A} (number : string → option A) (error : string → failure)
    (text : string) : failure + list A :=
  each (λ x, required (error x) (number x)) (Text.split_ws text).

(** [for line in lines: body], threading the dictionary under construction. *)
Fixpoint for_lines {L D} (body : D → L → failure + D) (d : D) (lines : list L)
    : failure + D :=
  match lines with
  | [] => inr d
  | line :: lines' =>
      let! d' := body d line in
      for_lines body d' lines'
  end.

(** [f'{ds_id}:{item_name}'] *)
Definition item_key (ds_id : Z) (item_name : string) : string :=
  pretty ds_id +:+ ":" +:+ item_name.

End Loader.

(** ** Loading the acoustic transcriptions
    (acoustic_binarizer.py, [load_meta_data], lines 38-63) *)

Module AcousticLoader.
Import Text Loader.
Local Open Scope load_scope.

Section Loader.

(** [float(x)], and [json.loads(line)] on a line that holds an object with
    string values; [None] stands for the exception raised otherwise. *)
Variable float_of : string → option Q.
Variable json_loads : string → option (gmap string string).

(** [self.binarization_args.get('label_format', 'grid') == 'json'] *)
Variable json : bool.
Variables (raw_data_dir : string) (ds_id : Z).

(** [f'{raw_data_dir}/wavs/{item_name}.wav'] *)
Definition wav_fn (item_name : string) : string :=
  raw_data_dir +:+ "/wavs/" +:+ item_name +:+ ".wav".

(** Lines 42-59: [item_name] and [temp_dict] of one line. *)
Definition parse_label (utterance_label : string)
    : failure + (string * acoustic_meta) :=
  if json then
    let! label_dict := required BadJson (json_loads utterance_label) in
    let! item_name := required (KeyError "item_name") (label_dict !! "item_name") in
    let! ph_seq := required (KeyError "ph_seq") (label_dict !! "ph_seq") in
    let! ph_dur_text := required (KeyError "ph_dur") (label_dict !! "ph_dur") in
    let! ph_dur := numbers float_of FloatValueError ph_dur_text in
    inr (item_name,
         {| a_wav_fn := wav_fn item_name; a_ph_seq := split_ws ph_seq;
            a_ph_dur := ph_dur; a_spk_id := ds_id |})
  else
    let song_info := split_on "|" utterance_label in
    let! item_name := required (FieldIndexError 0) (song_info !! 0%nat) in
    let! ph_seq := required (FieldIndexError 2) (song_info !! 2%nat) in
    let! ph_dur_text := required (FieldIndexError 5) (song_info !! 5%nat) in
    let! ph_dur := numbers float_of FloatValueError ph_dur_text in
    inr (item_name,
         {| a_wav_fn := wav_fn item_name; a_ph_seq := split_ws ph_seq;
            a_ph_dur := ph_dur; a_spk_id := ds_id |}).

(** Lines 41-62: one iteration of the loop. *)
Definition load_line (meta_data_dict : list (string * acoustic_meta))
    (utterance_label : string) : failure + list (string * acoustic_meta) :=
  let! label := parse_label utterance_label in
  let item_name := label.1 in
  let temp_dict := label.2 in
  if bool_decide (length (a_ph_seq temp_dict) = length (a_ph_dur temp_dict))
  then inr (Dict.setitem (item_key ds_id item_name) temp_dict meta_data_dict)
  else inl (PhDurMismatch item_name).

(** [load_meta_data]: [utterance_labels] are the lines of
    [transcriptions.txt], [items] is [self.items]; the result is [self.items]
    after the update of line 63. *)
Definition load_meta_data (utterance_labels : list string)
    (items : list (string * acoustic_meta))
    : failure + list (string * acoustic_meta) :=
  let! meta_data_dict := for_lines load_line [] utterance_labels in
  inr (Dict.update items meta_data_dict).

End Loader.
End AcousticLoader.

(** ** Loading the variance transcriptions
    (variance_binarizer.py, [load_meta_data], lines 50-74) *)

Module VarianceLoader.
Import Text Loader.
Local Open Scope load_scope.

Section Loader.

(** [float(x)], [int(x)], and [str(raw_data_dir / 'wavs' / f'{item_name}.wav')]. *)
Variable float_of : string → option Q.
Variable int_of : string → option Z.
Variable wav_path : string → string → string.
Variables (raw_data_dir : string) (ds_id : Z).

(** Lines 55-64: [item_name] and [temp_dict] of one row.  A row is the dict
    that [csv.DictReader] yields for a line with as many fields as the
    header. *)
Definition parse_row (utterance_label : gmap string string)
    : failure + (string * variance_meta) :=
  let! item_name := required (KeyError "name") (utterance_label !! "name") in
  let! ph_seq := required (KeyError "ph_seq") (utterance_label !! "ph_seq") in
  let! ph_dur_text := required (KeyError "ph_dur") (utterance_label !! "ph_dur") in
  let! ph_dur := numbers float_of FloatValueError ph_dur_text in
  let! ph_num_text := required (KeyError "ph_num") (utterance_label !! "ph_num") in
  let! ph_num := numbers int_of IntValueError ph_num_text in
  let! note_seq := required (KeyError "note_seq") (utterance_label !! "note_seq") in
  let! note_dur_text := required (KeyError "note_dur") (utterance_label !! "note_dur") in
  let! note_dur := numbers float_of FloatValueError note_dur_text in
  inr (item_name,
       {| v_spk_id := ds_id; v_wav_fn := wav_path raw_data_dir item_name;
          v_ph_seq := split_ws ph_seq; v_ph_dur := ph_dur; v_ph_num := ph_num;
          v_note_seq := split_ws note_seq; v_note_dur := note_dur |}).

(** Lines 65-72: the four assertions, in their order. *)
Definition check_row (item_name : string) (temp_dict : variance_meta)
    : failure + unit :=
  if negb (bool_decide (length (v_ph_seq temp_dict) = length (v_ph_dur temp_dict)))
  then inl (PhDurMismatch item_name)
  else if negb (bool_decide (Z.of_nat (length (v_ph_seq temp_dict))
                             = Num.zsum (v_ph_num temp_dict)))
  then inl (PhNumMismatch item_name)
  else if negb (bool_decide (length (v_note_seq temp_dict)
                             = length (v_note_dur temp_dict)))
  then inl (NoteDurMismatch item_name)
  else if negb (existsb (λ note, negb (String.eqb note "rest")) (v_note_seq temp_dict))
  then inl (AllNotesRest item_name)
  else inr tt.

(** Lines 52-73: one iteration of the loop. *)
Definition load_row (meta_data_dict : list (string * variance_meta))
    (utterance_label : gmap string string)
    : failure + list (string * variance_meta) :=
  let! row := parse_row utterance_label in
  let item_name := row.1 in
  let temp_dict := row.2 in
  let! _ := check_row item_name temp_dict in
  inr (Dict.setitem (item_key ds_id item_name) temp_dict meta_data_dict).

(** [load_meta_data]: [rows] are the rows of [transcriptions.csv], [items] is
    [self.items]; the result is [self.items] after the update of line 74. *)
Definition load_meta_data (rows : list (gmap string string))
    (items : list (string * variance_meta))
    : failure + list (string * variance_meta) :=
  let! meta_data_dict := for_lines load_row [] rows in
  inr (Dict.update items meta_data_dict).

End Loader.
End VarianceLoader.

(** ** The vocoder registry
    (acoustic_binarizer.py, [process_item], lines 188-191) *)

Module Vocoders.

(** [hparams['vocoder'].split('.')[-1]] *)
Definition short_name (vocoder : string) : string :=
  default EmptyString (last (Text.split_on "." vocoder)).

(** The entry of [VOCODERS] that [process_item] calls; [None] is the
    [KeyError] of line 191. *)
Definition resolve {V} (VOCODERS : gmap string V) (vocoder : string) : option V :=
  match VOCODERS !! vocoder with
  | Some v => Some v
  | None => VOCODERS !! short_name vocoder
  end.

End Vocoders.

(** ** Frame alignment in the acoustic model
    (modules/fastspeech/acoustic_encoder.py, [FastSpeech2Acoustic.forward]) *)

Module Encoder.
Section Frames.
Context {A : Type}.

(** Lines 77-80 for [f0], and 95-98, 107-110 for a frame-level [key_shift]
    and [speed], on one row of the batch:
    [delta_l = nframes - x.size(1)]; a positive [delta_l] appends [delta_l]
    copies of [x[-1]]; then [x = x[:, :nframes]]. *)
Definition fit (nframes : nat) (x : list A) : result (list A) :=
  let delta_l := Z.of_nat nframes - Z.of_nat (length x) in
  rbind
    (if 0 <? delta_l
     then rbind (of_option IndexError (last x))
            (λ l, Ok (x ++ replicate (Z.to_nat delta_l) l))
     else Ok x)
    (λ x, Ok (take nframes x)).

(** Lines 117-122, on one row of the batch: a speaker mix longer than the
    frame count is cut, one of more than one frame is extended by repeating
    the slice [spk_embed[-1:]]. *)
Definition fit_mix (nframes : nat) (spk_embed : list A) : list A :=
  let mix_frames := length spk_embed in
  if (nframes <? mix_frames)%nat then take nframes spk_embed
  else if (1 <? mix_frames)%nat
  then spk_embed
       ++ concat (replicate (nframes - mix_frames) (drop (mix_frames - 1) spk_embed))
  else spk_embed.

(** Line 125, [condition += v], along the frame axis: [v] has as many
    frames as [condition], or a single frame that is broadcast; [None] is
    the [RuntimeError] raised otherwise. *)
Definition add_frames (add : A → A → A) (condition v : list A) : option (list A) :=
  if bool_decide (length v = length condition) then Some (zip_with add condition v)
  else
    match v with
    | [e] => Some ((λ c, add c e) <$> condition)
    | _ => None
    end.

End Frames.
End Encoder.

(** ** Sample transcriptions *)

Module Cases.

(** A stand-in for [float]: whole numbers only. *)
Definition float_of (text : string) : option Q := inject_Z <$> Augment.parse_int text.

(** A stand-in for [json.loads]: no line is accepted. *)
Definition json_loads (_ : string) : option (gmap string string) := None.

(** A stand-in for the path of the recording. *)
Definition wav_path (raw_data_dir item_name : string) : string :=
  raw_data_dir +:+ "/wavs/" +:+ item_name +:+ ".wav".

(** Two grid lines for the same item, and one for another item. *)
Definition grid_lines : list string :=
  ["a|la|l a|x|x|1 2|0"; "b|la|l a|x|x|3 4|0"; "a|li|l i|x|x|5 6|0"].

(** A row of [transcriptions.csv]. *)
Definition row : gmap string string :=
  {[ "name" := "a"; "ph_seq" := "l a"; "ph_dur" := "1 2"; "ph_num" := "2";
     "note_seq" := "C4 rest"; "note_dur" := "2 1" ]}.

(** A row whose only note that is no rest has the duration zero. *)
Definition rest_row : gmap string string :=
  {[ "name" := "r"; "ph_seq" := "a"; "ph_dur" := "3"; "ph_num" := "1";
     "note_seq" := "rest C4"; "note_dur" := "3 0" ]}.

End Cases.

(** * The relabelling script ([preprocessing/jp_process.py])

    The script reads replacement rules from [rules.txt] and rewrites the
    marks of the [phones] tier of every TextGrid file.  Strings are
    sequences of code points below 256.  A TextGrid is the list of its
    tiers, a tier its name and intervals; the input of the script is the
    lines of the rules file and the TextGrids of the [.TextGrid] files in the
    order of [os.listdir], its output the TextGrids written, the report
    printed, and the exception raised, if any.  File names and the clearing
    of the output directory are outside the model. *)

Module Relabel.

Inductive error :=
  | ValueError
  | TypeError
  | KeyError (key : string).

Definition and_then {A B} (r : error + A) (k : A → error + B) : error + B :=
  match r with
  | inl e => inl e
  | inr a => k a
  end.

Declare Scope relabel_scope.
Delimit Scope relabel_scope with relabel.
Notation "'let!' x := r 'in' k" := (and_then r (λ x, k))
  (at level 10, x pattern, r at level 100, k at level 200) : relabel_scope.

Local Open Scope relabel_scope.

(** [s.lstrip()] *)
Fixpoint lstrip (s : string) : string :=
  match s with
  | EmptyString => EmptyString
  | String c s' => if Text.is_space c then lstrip s' else s
  end.

(** [s.rstrip()] *)
Fixpoint rstrip (s : string) : string :=
  match s with
  | EmptyString => EmptyString
  | String c s' =>
      match rstrip s' with
      | EmptyString => if Text.is_space c then EmptyString else String c EmptyString
      | String c' r => String c (String c' r)
      end
  end.

(** [s.strip()] *)
Definition strip (s : string) : string := rstrip (lstrip s).

(** [s.startswith(sub)] *)
Fixpoint startswith (sub s : string) : bool :=
  match sub, s with
  | EmptyString, _ => true
  | String a sub', String c s' => Ascii.eqb a c && startswith sub' s'
  | String _ _, EmptyString => false
  end.

(** [sub in s] *)
Fixpoint contains (sub s : string) : bool :=
  startswith sub s
  || match s with
     | EmptyString => false
     | String _ s' => contains sub s'
     end.

(** [s.replace(old, new)] for a non-empty [old]: the occurrences of [old]
    are replaced from left to right, the search resuming behind each
    occurrence; [skip] counts the characters of the occurrence still to be
    passed over. *)
Fixpoint replace_from (old new : string) (skip : nat) (s : string) : string :=
  match s with
  | EmptyString => EmptyString
  | String c s' =>
      match skip with
      | S k => replace_from old new k s'
      | O =>
          if startswith old s
          then new +:+ replace_from old new (String.length old - 1) s'
          else String c (replace_from old new 0 s')
      end
  end.

(** [s.replace(old, new)] for the empty [old]: [new] is inserted in front
    of the string and behind every character. *)
Fixpoint insert_behind (new s : string) : string :=
  match s with
  | EmptyString => EmptyString
  | String c s' => String c (new +:+ insert_behind new s')
  end.

(** [s.replace(old, new)] *)
Definition replace (old new s : string) : string :=
  match old with
  | EmptyString => new +:+ insert_behind new s
  | String _ _ => replace_from old new 0 s
  end.

(** Lines 31-34, for one line of the rules file: a blank line is skipped;
    [src, dest = line.split('\t')] raises [ValueError] unless the line has
    exactly two fields. *)
Definition load_rule (replace_rules : list (string * string)) (line : string)
    : error + list (string * string) :=
  let line := strip line in
  if decide (line = EmptyString) then inr replace_rules
  else
    match Text.split_on "009"%char line with
    | [src; dest] => inr (Dict.setitem src dest replace_rules)
    | _ => inl ValueError
    end.

(** Lines 28-34. *)
Fixpoint load_rules (replace_rules : list (string * string)) (lines : list string)
    : error + list (string * string) :=
  match lines with
  | [] => inr replace_rules
  | line :: lines' =>
      let! replace_rules := load_rule replace_rules line in
      load_rules replace_rules lines'
  end.

(** Line 40: [{consonant: 0 for consonant in replace_rules.keys()}] *)
Definition initial_count (replace_rules : list (string * string))
    : list (string * nat) :=
  (λ rule, (rule.1, 0%nat)) <$> replace_rules.

Record interval := {
  minTime : Q;
  maxTime : Q;
  mark : string;
}.

Record tier := {
  name : string;
  intervals : list interval;
}.

(** [consonant_count[match] += 1] *)
Definition increment (key : string) (consonant_count : list (string * nat))
    : error + list (string * nat) :=
  match Dict.get key consonant_count with
  | Some n => inr (Dict.setitem key (n + 1)%nat consonant_count)
  | None => inl (KeyError key)
  end.

(** Lines 65-67, for one rule: the state is the counters and the mark of the
    interval. *)
Definition apply_rule (state : list (string * nat) * string) (rule : string * string)
    : error + (list (string * nat) * string) :=
  let '(consonant_count, mark) := state in
  let '(match_, replace_) := rule in
  if contains match_ mark then
    let! consonant_count := increment match_ consonant_count in
    inr (consonant_count, replace match_ replace_ mark)
  else inr (consonant_count, mark).

(** Lines 64-67: [for match, replace in replace_rules.items()] *)
Fixpoint apply_rules (replace_rules : list (string * string))
    (state : list (string * nat) * string)
    : error + (list (string * nat) * string) :=
  match replace_rules with
  | [] => inr state
  | rule :: rules' =>
      let! state := apply_rule state rule in
      apply_rules rules' state
  end.

(** Lines 63-67: [for interval in phones_tier] *)
Fixpoint relabel_intervals (replace_rules : list (string * string))
    (consonant_count : list (string * nat)) (ivs : list interval)
    : error + (list (string * nat) * list interval) :=
  match ivs with
  | [] => inr (consonant_count, [])
  | iv :: ivs' =>
      let! state := apply_rules replace_rules (consonant_count, mark iv) in
      let! rest := relabel_intervals replace_rules state.1 ivs' in
      inr (rest.1,
           {| minTime := minTime iv; maxTime := maxTime iv; mark := state.2 |}
           :: rest.2)
  end.

(** Lines 56-60: the first tier named [phones], with its position. *)
Fixpoint phones_tier (tg : list tier) : option (nat * tier) :=
  match tg with
  | [] => None
  | t :: tg' =>
      if decide (name t = "phones") then Some (0%nat, t)
      else (λ found, (S found.1, found.2)) <$> phones_tier tg'
  end.

(** Lines 53-71, for one file: without a tier named [phones] the loop over
    [None] raises [TypeError]; otherwise the intervals of the tier are
    changed in place and the TextGrid is written. *)
Definition process_file (replace_rules : list (string * string))
    (consonant_count : list (string * nat)) (tg : list tier)
    : error + (list (string * nat) * list tier) :=
  match phones_tier tg with
  | None => inl TypeError
  | Some (i, t) =>
      let! done := relabel_intervals replace_rules consonant_count (intervals t) in
      inr (done.1, <[i := {| name := name t; intervals := done.2 |}]> tg)
  end.

(** Lines 46-71: the files written so far and the counters, or the
    exception that ended the loop. *)
Fixpoint process_files (replace_rules : list (string * string))
    (consonant_count : list (string * nat)) (tgs : list (list tier))
    : list (list tier) * (error + list (string * nat)) :=
  match tgs with
  | [] => ([], inr consonant_count)
  | tg :: tgs' =>
      match process_file replace_rules consonant_count tg with
      | inl e => ([], inl e)
      | inr (consonant_count, out) =>
          let '(written, r) := process_files replace_rules consonant_count tgs' in
          (out :: written, r)
      end
  end.

(** Lines 76-78: one line per rule, [consonant→replace: count]. *)
Definition report (replace_rules : list (string * string))
    (consonant_count : list (string * nat)) : error + list (string * string * nat) :=
  (fix go (rules : list (string * string)) : error + list (string * string * nat) :=
     match rules with
     | [] => inr []
     | (consonant, replace_) :: rules' =>
         match Dict.get consonant consonant_count with
         | None => inl (KeyError consonant)
         | Some replace_count =>
             let! printed := go rules' in
             inr ((consonant, replace_, replace_count) :: printed)
         end
     end) replace_rules.

(** The script: the TextGrids written, and the report or the exception. *)
Definition main (rules_file : list string) (tgs : list (list tier))
    : list (list tier) * (error + list (string * string * nat)) :=
  match load_rules [] rules_file with
  | inl e => ([], inl e)
  | inr replace_rules =>
      let '(written, r) :=
        process_files replace_rules (initial_count replace_rules) tgs in
      (written,
       let! consonant_count := r in
       report replace_rules consonant_count)
  end.

(** An interval before and after the loop of lines 64-67: the boundaries
    are kept, and so is the mark when no source of a rule occurs in it. *)
Definition relabelled (replace_rules : list (string * string)) (iv iv' : interval)
    : Prop :=
  minTime iv' = minTime iv ∧ maxTime iv' = maxTime iv
  ∧ ((∀ k, k ∈ replace_rules.*1 → contains k (mark iv) = false)
     → mark iv' = mark iv).

(** The tiers and the interval boundaries of a TextGrid, without the
    marks. *)
Definition layout (tg : list tier) : list (string * list (Q * Q)) :=
  (λ t, (name t, (λ iv, (minTime iv, maxTime iv)) <$> intervals t)) <$> tg.

(** The number of intervals that the loop of lines 63-67 visits. *)
Definition visited (tg : list tier) : nat :=
  match phones_tier tg with
  | Some (_, t) => length (intervals t)
  | None => 0%nat
  end.

End Relabel.

(** Sample data for the relabelling script. *)
Module RelabelCases.
Import Relabel.

(** The line [src<TAB>dest<LF>]. *)
Definition rule_line (src dest : string) : string :=
  src +:+ String "009"%char (dest +:+ String "010"%char EmptyString).

Definition rules_file : list string :=
  [rule_line "sh" "S"; String "010"%char EmptyString; rule_line "N" "n";
   rule_line "sh" "x"].

Definition grid : list tier :=
  [ {| name := "words";
       intervals := [ {| minTime := 0; maxTime := 1; mark := "shi" |} ] |};
    {| name := "phones";
       intervals := [ {| minTime := 0; maxTime := 0.5; mark := "sh" |};
                      {| minTime := 0.5; maxTime := 1; mark := "i" |} ] |} ].

Definition no_phones : list tier :=
  [ {| name := "words";
       intervals := [ {| minTime := 0; maxTime := 1; mark := "shi" |} ] |} ].

End RelabelCases.

(** * Properties *)

(** ** Rounding *)

Section RoundingFacts.
Import Num.
Local Open Scope Q_scope.

Lemma Qfloor_unique (x : Q) (f : Z) :
  inject_Z f <= x → x < inject_Z f + 1 → Qfloor x = f.
Proof.
  intros Hlo Hhi.
  pose proof (Qfloor_le x) as Hfl. pose proof (Qlt_floor x) as Hfu.
  rewrite inject_Z_plus in Hfu. change (inject_Z 1) with 1 in Hfu.
  assert (Qfloor x < f + 1)%Z.
  { rewrite Zlt_Qlt, inject_Z_plus. change (inject_Z 1) with 1. lra. }
  assert (f < Qfloor x + 1)%Z.
  { rewrite Zlt_Qlt, inject_Z_plus. change (inject_Z 1) with 1. lra. }
  lia.
Qed.

Lemma Qfloor_bounds (x : Q) :
  inject_Z (Qfloor x) <= x ∧ x < inject_Z (Qfloor x) + 1.
Proof.
  split; [apply Qfloor_le|].
  pose proof (Qlt_floor x) as Hfu.
  rewrite inject_Z_plus in Hfu. exact Hfu.
Qed.

(** The three cases of [round_half_even], by the fractional part. *)
Lemma round_half_even_cases (x : Q) (f : Z) :
  inject_Z f <= x → x < inject_Z f + 1 →
  (x - inject_Z f < 1 # 2 ∧ round_half_even x = f)
  ∨ (x - inject_Z f == 1 # 2 ∧
     round_half_even x = if Z.even f then f else (f + 1)%Z)
  ∨ (1 # 2 < x - inject_Z f ∧ round_half_even x = (f + 1)%Z).
Proof.
  intros Hlo Hhi. unfold round_half_even.
  rewrite (Qfloor_unique x f Hlo Hhi).
  destruct (Qcompare (x - inject_Z f) (1 # 2)) eqn:Hc.
  - right; left. split; [by apply Qeq_alt|done].
  - left. split; [by apply Qlt_alt|done].
  - right; right. split; [by apply Qgt_alt|done].
Qed.

Lemma round_half_even_range (x : Q) :
  (Qfloor x <= round_half_even x <= Qfloor x + 1)%Z.
Proof.
  destruct (Qfloor_bounds x) as [Hlo Hhi].
  destruct (round_half_even_cases x _ Hlo Hhi) as [[_ ->]|[[_ ->]|[_ ->]]];
    [lia| |lia].
  destruct (Z.even _); lia.
Qed.


(** Rounding is monotone. *)
Lemma round_half_even_mono (x y : Q) :
  x <= y → (round_half_even x <= round_half_even y)%Z.
Proof.
  intros Hxy.
  pose proof (Qfloor_resp_le _ _ Hxy) as Hf.
  destruct (Z.eq_dec (Qfloor x) (Qfloor y)) as [Heq|Hne].
  - destruct (Qfloor_bounds x) as [Hxl Hxu]. destruct (Qfloor_bounds y) as [Hyl Hyu].
    rewrite <- Heq in Hyl, Hyu.
    destruct (round_half_even_cases x _ Hxl Hxu) as [[Hx ->]|[[Hx ->]|[Hx ->]]];
    destruct (round_half_even_cases y _ Hyl Hyu) as [[Hy ->]|[[Hy ->]|[Hy ->]]];
      try lia; try lra; destruct (Z.even _); lia.
  - pose proof (round_half_even_range x). pose proof (round_half_even_range y). lia.
Qed.


Lemma round_half_even_half : round_half_even (1 # 2) = 0%Z.
Proof. reflexivity. Qed.

Lemma int_trunc_zero (q : Q) : q == 0 → int_trunc q = 0%Z.
Proof.
  destruct q as [n d]. unfold Qeq, int_trunc. simpl. intros Hq.
  assert (n = 0%Z) as -> by lia. reflexivity.
Qed.

End RoundingFacts.

(** ** Timeline Aligner *)

Section AlignerFacts.
Import Num Tensor Aligner.
Local Open Scope Q_scope.

Lemma fold_left_Qplus (l : list Q) (a : Q) : fold_left Qplus l a == a + qsum l.
Proof.
  unfold qsum. revert a. induction l as [|d l IH]; intros a; simpl.
  - lra.
  - rewrite (IH (a + d)), (IH (0 + d)). lra.
Qed.

Lemma qsum_cons (d : Q) (l : list Q) : qsum (d :: l) == d + qsum l.
Proof. unfold qsum at 1. simpl. rewrite fold_left_Qplus. lra. Qed.

Lemma qsum_nil : qsum [] == 0.
Proof. reflexivity. Qed.

Lemma qsum_nonneg (l : list Q) : Forall (λ d, 0 <= d) l → 0 <= qsum l.
Proof.
  induction 1 as [|d l Hd _ IH]; [by rewrite qsum_nil|].
  rewrite qsum_cons. lra.
Qed.

Lemma Qdiv_le_compat (a b h : Q) : 0 < h → a <= b → a / h <= b / h.
Proof.
  intros Hh Hab. unfold Qdiv. apply Qmult_le_compat_r; [done|].
  apply Qlt_le_weak, Qinv_lt_0_compat, Hh.
Qed.




(** The differences telescope. *)
Lemma zsum_diff_prepend (p : Z) (l : list Z) :
  zsum (diff_prepend p l) = (default p (last l) - p)%Z.
Proof.
  revert p. induction l as [|a l IH]; intros p; simpl; [lia|].
  rewrite IH. destruct l as [|b l]; simpl; [lia|].
  change (last (a :: b :: l)) with (last (b :: l)).
  destruct (last (b :: l)) eqn:Hl; simpl; [lia|].
  by apply last_None in Hl.
Qed.


(** With non-negative durations and a positive hop the rounded running totals
    never decrease. *)
Lemma diff_rounded_cumsum_nonneg (hop acc : Q) (l : list Q) :
  0 < hop → Forall (λ d, 0 <= d) l →
  Forall (λ c, 0 <= c)%Z
    (diff_prepend (round_half_even (acc / hop + (1 # 2)))
       (map (λ c, round_half_even (c / hop + (1 # 2))) (cumsum_from acc l))).
Proof.
  intros Hhop Hl. revert acc. induction Hl as [|d l Hd _ IH]; intros acc.
  - constructor.
  - cbn [cumsum_from map diff_prepend]. constructor; [|apply IH].
    assert (round_half_even (acc / hop + (1 # 2))
            <= round_half_even ((acc + d) / hop + (1 # 2)))%Z; [|lia].
    apply round_half_even_mono.
    assert (acc / hop <= (acc + d) / hop) by (apply Qdiv_le_compat; [done|lra]).
    lra.
Qed.

End AlignerFacts.

(** ** Float operations *)

Section FloatFacts.
Import Num.




(** The float operations raise nothing but [NonFinite], and the division of
    Python floats [ZeroDivisionError]. *)
Lemma single_cases (x : Q) :
  (∃ y, Float.single x = Ok y) ∨ Float.single x = Raise NonFinite.
Proof. unfold Float.single. destruct (Float.f32 x); simpl; eauto. Qed.

Lemma double_cases (x : Q) :
  (∃ y, Float.double x = Ok y) ∨ Float.double x = Raise NonFinite.
Proof. unfold Float.double. destruct (Float.f64 x); simpl; eauto. Qed.

Lemma div32_cases (a b : Q) :
  (∃ y, Float.div32 a b = Ok y) ∨ Float.div32 a b = Raise NonFinite.
Proof. unfold Float.div32. destruct (Qeq_bool b 0); [by right|apply single_cases]. Qed.

Lemma add32_cases (a b : Q) :
  (∃ y, Float.add32 a b = Ok y) ∨ Float.add32 a b = Raise NonFinite.
Proof. apply single_cases. Qed.

End FloatFacts.

(** ** The timeline in float arithmetic *)

Section TimelineFacts.
Import Num Tensor Timeline.

Lemma rbind_Ok {A B} (r : result A) (k : A → result B) (b : B) :
  rbind r k = Ok b ↔ ∃ a, r = Ok a ∧ k a = Ok b.
Proof.
  destruct r as [a|e]; simpl; split.
  - intros Hk. by exists a.
  - by intros (a' & [= <-] & Hk).
  - done.
  - by intros (a' & [=] & _).
Qed.

Lemma each_Forall2 {A B} (f : A → result B) (l : list A) (ys : list B) :
  each f l = Ok ys ↔ Forall2 (λ x y, f x = Ok y) l ys.
Proof.
  revert ys. induction l as [|x l IH]; intros ys; simpl.
  - split; [intros [= <-]; constructor|intros Hall; by inversion Hall].
  - rewrite rbind_Ok. split.
    + intros (y & Hy & Hrest). apply rbind_Ok in Hrest as (ys' & Hys & [= <-]).
      constructor; [done|]. by apply IH.
    + intros Hall. inversion Hall as [|? y ? ys' Hy Hys]; subst.
      exists y. split; [done|]. apply rbind_Ok. exists ys'. split; [by apply IH|done].
Qed.

Lemma each_length {A B} (f : A → result B) (l : list A) (ys : list B) :
  each f l = Ok ys → length ys = length l.
Proof. intros Hall%each_Forall2. symmetry. by eapply Forall2_length. Qed.

Lemma length_diff_prepend (p : Z) (l : list Z) : length (diff_prepend p l) = length l.
Proof. revert p. induction l as [|a l IH]; intros p; simpl; [done|]. by rewrite IH. Qed.

(** The entries of [torch.diff(x, prepend=[p])], by position. *)
Lemma diff_prepend_lookup (p : Z) (l : list Z) (k : nat) (c : Z) :
  diff_prepend p l !! k = Some c →
  ∃ b, l !! k = Some b
       ∧ c = b - match k with
                 | O => p
                 | S j => default 0 (l !! j)
                 end.
Proof.
  revert p k. induction l as [|a l IH]; intros p k; simpl; [done|].
  destruct k as [|k]; simpl.
  - intros [= <-]. by exists a.
  - intros Hc. destruct (IH _ _ Hc) as (b & Hb & ->). exists b. split; [done|].
    destruct k as [|k]; simpl; [done|]. done.
Qed.

Lemma cumsum_from_length (acc : Q) (l totals : list Q) :
  cumsum_from acc l = Ok totals → length totals = length l.
Proof.
  revert acc totals. induction l as [|x l IH]; intros acc totals; simpl.
  - by intros [= <-].
  - intros H. apply rbind_Ok in H as (acc' & _ & H).
    apply rbind_Ok in H as (c & _ & H). apply rbind_Ok in H as (cs & Hcs & [= <-]).
    simpl. by rewrite (IH _ _ Hcs).
Qed.

(** The running totals of [torch.cumsum] are the sums of the prefixes. *)
Lemma cumsum_from_lookup (acc : Q) (l totals : list Q) (k : nat) (c : Q) :
  cumsum_from acc l = Ok totals → totals !! k = Some c →
  ∃ total, sum_from acc (take (S k) l) = Ok total ∧ Float.single total = Ok c.
Proof.
  revert acc totals k. induction l as [|x l IH]; intros acc totals k; simpl.
  - by intros [= <-].
  - intros H. apply rbind_Ok in H as (acc' & Hacc & H).
    apply rbind_Ok in H as (c' & Hc' & H). apply rbind_Ok in H as (cs & Hcs & [= <-]).
    rewrite Hacc. cbn [rbind]. destruct k as [|k]; simpl.
    + intros [= <-]. by exists acc'.
    + intros Hk. by apply (IH acc' cs).
Qed.

(** Every boundary of line 86 is the frame index of the spec. *)
Lemma ph_acc_boundary (ph_dur_sec : list Q) (timestep : Q) (bounds : list Z)
    (k : nat) (b : Z) :
  ph_acc ph_dur_sec timestep = Ok bounds → bounds !! k = Some b →
  boundary ph_dur_sec timestep (S k) = Ok b.
Proof.
  unfold ph_acc, boundary. intros H Hb.
  apply rbind_Ok in H as (totals & Htot & H). apply rbind_Ok in H as (t32 & Ht & H).
  apply each_Forall2 in H.
  destruct (Forall2_lookup_r _ _ _ _ _ H Hb) as (c & Hc & Hidx).
  destruct (cumsum_from_lookup _ _ _ _ _ Htot Hc) as (total & -> & Hsingle).
  cbn [rbind]. rewrite Hsingle. cbn [rbind]. by rewrite Ht.
Qed.

(** Lines 86-87, step by step. *)
Lemma ph_dur_steps (ph_dur_sec : list Q) (timestep : Q) (counts : list Z) :
  ph_dur ph_dur_sec timestep = Ok counts →
  ∃ totals t32 bounds,
    cumsum ph_dur_sec = Ok totals
    ∧ Float.single timestep = Ok t32
    ∧ Forall2 (λ c b, frame_index t32 c = Ok b) totals bounds
    ∧ ph_acc ph_dur_sec timestep = Ok bounds
    ∧ counts = diff_prepend 0 bounds
    ∧ length bounds = length ph_dur_sec
    ∧ length counts = length ph_dur_sec.
Proof.
  unfold ph_dur. intros H. apply rbind_Ok in H as (bounds & Hacc & [= <-]).
  pose proof Hacc as Hacc'. unfold ph_acc in Hacc.
  apply rbind_Ok in Hacc as (totals & Htot & Hacc).
  apply rbind_Ok in Hacc as (t32 & Ht & Hacc).
  exists totals, t32, bounds. split; [done|]. split; [done|].
  split; [by apply each_Forall2|]. split; [done|]. split; [done|].
  assert (length bounds = length ph_dur_sec) as Hl.
  { rewrite (each_length _ _ _ Hacc). by eapply cumsum_from_length. }
  split; [done|]. by rewrite length_diff_prepend.
Qed.

Lemma existsb_negative (counts : list Z) :
  existsb (λ c, c <? 0) counts = false ↔ Forall (λ c, 0 <= c) counts.
Proof.
  induction counts as [|c counts IH]; simpl; [done|].
  rewrite orb_false_iff, IH, Forall_cons, Z.ltb_ge. done.
Qed.

Lemma expand_from_bound (unit : nat) (counts : list Z) :
  Forall (λ i, (unit ≤ i < unit + length counts)%nat) (Aligner.expand_from unit counts).
Proof.
  revert unit. induction counts as [|c counts IH]; intros unit; simpl; [constructor|].
  apply Forall_app. split.
  - apply Forall_replicate. lia.
  - eapply Forall_impl; [apply IH|]. simpl. lia.
Qed.

(** The alignment array: its length is the frame count it is given, and its
    entries are indices of units. *)
Lemma get_mel2ph_shape (ph_dur_sec : list Q) (len : Z) (timestep : Q)
    (mel2ph : list nat) :
  get_mel2ph ph_dur_sec len timestep = Ok mel2ph →
  length mel2ph = Z.to_nat len
  ∧ Forall (λ i, (i ≤ length ph_dur_sec)%nat) mel2ph
  ∧ ∃ counts, ph_dur ph_dur_sec timestep = Ok counts
              ∧ Forall (λ c, 0 <= c) counts
              ∧ length counts = length ph_dur_sec.
Proof.
  unfold get_mel2ph. intros H. apply rbind_Ok in H as (counts & Hc & H).
  destruct (existsb _ counts) eqn:Hneg; [done|]. injection H as <-.
  destruct (ph_dur_steps _ _ _ Hc) as (totals & t32 & bounds & _ & _ & _ & _ & _ & _ & Hl).
  split; [|split].
  - rewrite length_app, length_take, length_replicate. lia.
  - apply Forall_app. split.
    + apply Forall_take. eapply Forall_impl; [apply expand_from_bound|].
      simpl. rewrite Hl. lia.
    + apply Forall_replicate. lia.
  - exists counts. split; [done|]. split; [by apply existsb_negative|done].
Qed.

Lemma get_mel2ph_negative (ph_dur_sec : list Q) (len : Z) (timestep : Q)
    (counts : list Z) :
  ph_dur ph_dur_sec timestep = Ok counts → Exists (λ c, c < 0) counts →
  get_mel2ph ph_dur_sec len timestep = Raise AlignmentError.
Proof.
  intros Hc Hneg. unfold get_mel2ph. rewrite Hc. simpl.
  destruct (existsb _ counts) eqn:He; [done|].
  apply existsb_negative in He. apply Exists_exists in Hneg as (c & Hin & Hlt).
  eapply Forall_forall in He; [|done]. lia.
Qed.

End TimelineFacts.

(** C1, as stated, fails: the frame counts are computed on float32 tensors.
    For the durations [0.1, 0.2, 0.1] and hop [0.01] the second prefix total
    is the float32 number next above 0.3 and its quotient by the hop the
    one next above 30, so that the second boundary is [round(30.500002)],
    31, and the frame counts are [10, 21, 9]. *)
Lemma frame_counts_example_counterexample :
  Timeline.frame_counts [1 # 10; 2 # 10; 1 # 10]%Q (1 # 100) = Ok [10; 21; 9]
  ∧ Timeline.frame_counts [1 # 10; 2 # 10; 1 # 10]%Q (1 # 100) ≠ Ok [10; 20; 10].
Proof.
  assert (Timeline.frame_counts [1 # 10; 2 # 10; 1 # 10]%Q (1 # 100) = Ok [10; 21; 9])
    as -> by (vm_compute; reflexivity).
  split; [done|]. discriminate.
Qed.

(** C1, amended.  The per-unit frame counts are the consecutive differences,
    with a prepended zero, of the boundaries
    [round(cumulative_seconds / hop + 0.5)], where the cumulative duration,
    the quotient and the sum are float32 numbers; so there is one count per
    unit, and the counts add up to the last boundary.  For durations
    [0.1, 0.2, 0.1] and hop [0.01] the counts are [10, 21, 9], the frame
    count is 40, and the alignment array consists of ten 1s, twenty-one 2s
    and nine 3s, which is non-decreasing. *)
Theorem timeline_aligner_frame_counts :
  (∀ (ph_dur_sec : list Q) (timestep : Q) (counts : list Z),
     Timeline.ph_dur ph_dur_sec timestep = Ok counts →
     length counts = length ph_dur_sec
     ∧ (∀ k c, counts !! k = Some c →
          ∃ b, Timeline.boundary ph_dur_sec timestep (S k) = Ok b
               ∧ match k with
                 | O => c = b - 0
                 | S j => ∃ b', Timeline.boundary ph_dur_sec timestep (S j) = Ok b'
                                ∧ c = b - b'
                 end)
     ∧ (ph_dur_sec ≠ [] →
        Timeline.boundary ph_dur_sec timestep (length ph_dur_sec)
        = Ok (Num.zsum counts)))
  ∧ Timeline.frame_counts [1 # 10; 2 # 10; 1 # 10]%Q (1 # 100) = Ok [10; 21; 9]
  ∧ Timeline.frame_count [1 # 10; 2 # 10; 1 # 10]%Q (1 # 100) = Ok 40
  ∧ Timeline.alignment [1 # 10; 2 # 10; 1 # 10]%Q 40 (1 # 100)
    = Ok (replicate 10 1%nat ++ replicate 21 2%nat ++ replicate 9 3%nat)
  ∧ Sorted Nat.le (replicate 10 1%nat ++ replicate 21 2%nat ++ replicate 9 3%nat).
Proof.
  split; [|split; [|split; [|split]]].
  - intros ph_dur_sec timestep counts Hc.
    destruct (ph_dur_steps _ _ _ Hc)
      as (totals & t32 & bounds & Htot & Ht & Hall & Hacc & -> & Hbl & Hl).
    split; [done|]. split.
    + intros k c Hk. destruct (diff_prepend_lookup _ _ _ _ Hk) as (b & Hb & ->).
      exists b. split; [by eapply ph_acc_boundary|].
      destruct k as [|j]; [done|].
      destruct (lookup_lt_is_Some_2 bounds j) as [b' Hb'].
      { apply lookup_lt_Some in Hb. lia. }
      exists b'. split; [by eapply ph_acc_boundary|]. by rewrite Hb'.
    + intros Hne. rewrite zsum_diff_prepend.
      destruct (lookup_lt_is_Some_2 bounds (length ph_dur_sec - 1)) as [b Hb].
      { destruct ph_dur_sec; [done|]. simpl in *. lia. }
      pose proof (ph_acc_boundary _ _ _ _ _ Hacc Hb) as Hbd.
      replace (S (length ph_dur_sec - 1)) with (length ph_dur_sec) in Hbd
        by (destruct ph_dur_sec; [done|]; simpl; lia).
      rewrite Hbd. f_equal. rewrite last_lookup.
      replace (Nat.pred (length bounds)) with (length ph_dur_sec - 1)%nat by lia.
      rewrite Hb. simpl. lia.
  - vm_compute. reflexivity.
  - vm_compute. reflexivity.
  - vm_compute. reflexivity.
  - simpl. repeat (constructor; [|constructor; lia]). repeat constructor.
Qed.




(** ** The acoustic item *)

Section AcousticInput.
Context `{Backend}.

(** The steps of lines 187-202 behind a [processed_input]. *)
Lemma acoustic_input_inv (hp : hparams) (n : string) (m : acoustic_meta)
    (x : acoustic_record) :
  Acoustic.processed_input hp n m = Ok x →
  ar_name x = n ∧ ar_wav_fn x = a_wav_fn m ∧ ar_spk_id x = a_spk_id m
  ∧ wav2spec (a_wav_fn m) = Ok (ar_mel x)
  ∧ ar_length x = Z.of_nat (length (ar_mel x))
  ∧ audio_sample_rate hp ≠ 0
  ∧ Float.double (inject_Z (ar_length x * hop_size hp)
                  / inject_Z (audio_sample_rate hp))%Q = Ok (ar_seconds x)
  ∧ encode (a_ph_seq m) = Ok (ar_tokens x)
  ∧ (∃ durs, Timeline.as_floats (a_ph_dur m) = Ok durs
             ∧ Timeline.float_tensor durs = Ok (ar_ph_dur x)).
Proof.
  intros Hx. unfold Acoustic.processed_input in Hx.
  apply rbind_Ok in Hx as (mel & Hmel & Hx).
  apply rbind_Ok in Hx as (seconds & Hsec & Hx).
  apply rbind_Ok in Hx as (tokens & Htok & Hx).
  apply rbind_Ok in Hx as (durs & Hdurs & Hx).
  apply rbind_Ok in Hx as (ph_dur & Hph & [= <-]). cbn.
  destruct (Z.eqb_spec (audio_sample_rate hp) 0) as [|Hsr]; [done|].
  split_and!; try done. by exists durs.
Qed.

(** A record that [process_item] returns is its [processed_input] with the
    pitch, the alignment array and the embedding defaults of lines 204-221. *)
Lemma acoustic_item_Some (hp : hparams) (n : string) (m : acoustic_meta)
    (r : acoustic_record) :
  Acoustic.process_item hp n m = Ok (Some r) →
  ∃ x estimate timestep,
    Acoustic.processed_input hp n m = Ok x
    ∧ get_pitch_parselmouth (a_wav_fn m) (ar_length x) (interp_uv hp) = Ok estimate
    ∧ all_unvoiced estimate.2 = false
    ∧ Timeline.float_tensor estimate.1 = Ok (ar_f0 r)
    ∧ Float.double (inject_Z (hop_size hp) / inject_Z (audio_sample_rate hp))%Q
      = Ok timestep
    ∧ Timeline.get_mel2ph (ar_ph_dur x) (ar_length x) timestep = Ok (ar_mel2ph r)
    ∧ ar_name r = n ∧ ar_wav_fn r = ar_wav_fn x ∧ ar_spk_id r = ar_spk_id x
    ∧ ar_seconds r = ar_seconds x ∧ ar_length r = ar_length x
    ∧ ar_mel r = ar_mel x ∧ ar_tokens r = ar_tokens x ∧ ar_ph_dur r = ar_ph_dur x.
Proof.
  intros Hr. unfold Acoustic.process_item in Hr.
  apply rbind_Ok in Hr as (x & Hx & Hr).
  apply rbind_Ok in Hr as (estimate & Hest & Hr).
  destruct (all_unvoiced estimate.2) eqn:Huv; [done|].
  apply rbind_Ok in Hr as (f0 & Hf0 & Hr).
  apply rbind_Ok in Hr as (timestep & Hts & Hr).
  apply rbind_Ok in Hr as (mel2ph & Hmel & [= <-]). cbn.
  exists x, estimate, timestep. split_and!; try done.
  by apply (acoustic_input_inv hp n m).
Qed.

End AcousticInput.

(** ** The variance item before the pitch is estimated *)

Section VarianceInput.
Context `{Backend}.

(** The steps of lines 82-137 behind a [processed_input]. *)
Lemma processed_input_inv (timestep : Q) (n : string) (m : variance_meta)
    (x : variance_record) :
  Variance.processed_input timestep n m = Ok x →
  ∃ durs ts ph_dur_sec note_durs note_dur mel2note note_pitch frame_midi_pitch,
    Timeline.as_floats (v_ph_dur m) = Ok durs
    ∧ Float.double timestep = Ok ts
    ∧ Timeline.seconds durs = Ok (vr_seconds x)
    ∧ Timeline.frame_length (vr_seconds x) ts = Ok (vr_length x)
    ∧ Timeline.float_tensor durs = Ok ph_dur_sec
    ∧ Timeline.ph_dur ph_dur_sec ts = Ok (vr_ph_dur x)
    ∧ Timeline.get_mel2ph ph_dur_sec (vr_length x) ts = Ok (vr_mel2ph x)
    ∧ encode (v_ph_seq m) = Ok (vr_tokens x)
    ∧ Timeline.as_floats (v_note_dur m) = Ok note_durs
    ∧ Timeline.float_tensor note_durs = Ok note_dur
    ∧ Timeline.get_mel2ph note_dur (Z.of_nat (length (vr_mel2ph x))) ts = Ok mel2note
    ∧ Timeline.each Variance.note_pitch_of (v_note_seq m) = Ok note_pitch
    ∧ Tensor.gather (Tensor.pad_front 0%Q note_pitch) mel2note = Some frame_midi_pitch
    ∧ Pitch.midi (length (v_ph_seq m)) (vr_ph_dur x) (vr_mel2ph x) frame_midi_pitch
      = Ok (vr_midi x)
    ∧ Variance.base_pitch frame_midi_pitch (Pitch.rest_mask frame_midi_pitch)
      = Ok (vr_base_pitch x)
    ∧ vr_ph2word x = Aligner.length_regulator (v_ph_num m)
    ∧ vr_name x = n ∧ vr_wav_fn x = v_wav_fn m ∧ vr_spk_id x = v_spk_id m.
Proof.
  intros Hr. unfold Variance.processed_input in Hr.
  apply rbind_Ok in Hr as (durs & Hdurs & Hr).
  apply rbind_Ok in Hr as (note_durs & Hnotes & Hr).
  apply rbind_Ok in Hr as (ts & Hts & Hr).
  apply rbind_Ok in Hr as (secs & Hsecs & Hr).
  apply rbind_Ok in Hr as (len & Hlen & Hr).
  apply rbind_Ok in Hr as (sec32 & Hsec32 & Hr).
  apply rbind_Ok in Hr as (counts & Hcounts & Hr).
  apply rbind_Ok in Hr as (mel2ph & Hmel & Hr).
  apply rbind_Ok in Hr as (tokens & Htokens & Hr).
  apply rbind_Ok in Hr as (note_dur & Hnote_dur & Hr).
  apply rbind_Ok in Hr as (mel2note & Hmel2note & Hr).
  apply rbind_Ok in Hr as (note_pitch & Hnote_pitch & Hr).
  apply rbind_Ok in Hr as (pitch & Hpitch & Hr).
  apply rbind_Ok in Hr as (midi & Hmidi & Hr).
  apply rbind_Ok in Hr as (base & Hbase & [= <-]). cbn.
  exists durs, ts, sec32, note_durs, note_dur, mel2note, note_pitch, pitch.
  destruct (Tensor.gather _ mel2note) as [pitch'|] eqn:Hg; [|done].
  injection Hpitch as ->. by repeat split.
Qed.

(** The frame counts of a [processed_input] are those of lines 85-87, and
    none of them is negative. *)
Lemma processed_input_counts (timestep : Q) (n : string) (m : variance_meta)
    (x : variance_record) :
  Variance.processed_input timestep n m = Ok x →
  Timeline.frame_counts (v_ph_dur m) timestep = Ok (vr_ph_dur x)
  ∧ Forall (λ c, 0 <= c) (vr_ph_dur x).
Proof.
  intros Hx. destruct (processed_input_inv _ _ _ _ Hx)
    as (durs & ts & sec32 & ? & ? & ? & ? & ?
        & Hdurs & Hts & _ & _ & Hsec32 & Hcounts & Hmel & _).
  split.
  - unfold Timeline.frame_counts. rewrite Hdurs. cbn [rbind]. rewrite Hts.
    cbn [rbind]. by rewrite Hsec32.
  - destruct (get_mel2ph_shape _ _ _ _ Hmel) as (_ & _ & counts' & Hc' & Hpos & _).
    rewrite Hcounts in Hc'. by injection Hc' as <-.
Qed.

(** A record that [process_item] returns is its [processed_input] with the
    unvoiced mask and the pitch deviation of lines 141-147. *)
Lemma process_item_Some (timestep : Q) (n : string) (m : variance_meta)
    (r : variance_record) :
  Variance.process_item timestep n m = Ok (Some r) →
  ∃ x estimate,
    Variance.processed_input timestep n m = Ok x
    ∧ get_pitch_parselmouth (v_wav_fn m) (vr_length x) true = Ok estimate
    ∧ all_unvoiced estimate.2 = false
    ∧ Timeline.each (λ fb, Float.single (hz_to_midi fb.1 - fb.2)%Q)
        (zip estimate.1 (vr_base_pitch x)) = Ok (vr_delta_pitch r)
    ∧ vr_uv r = estimate.2
    ∧ vr_seconds r = vr_seconds x ∧ vr_length r = vr_length x
    ∧ vr_tokens r = vr_tokens x ∧ vr_ph_dur r = vr_ph_dur x
    ∧ vr_ph2word r = vr_ph2word x ∧ vr_mel2ph r = vr_mel2ph x
    ∧ vr_midi r = vr_midi x ∧ vr_base_pitch r = vr_base_pitch x
    ∧ vr_name r = vr_name x ∧ vr_wav_fn r = vr_wav_fn x ∧ vr_spk_id r = vr_spk_id x.
Proof.
  intros Hr. unfold Variance.process_item in Hr.
  apply rbind_Ok in Hr as (x & Hx & Hr).
  apply rbind_Ok in Hr as (estimate & Hest & Hr).
  destruct (all_unvoiced estimate.2) eqn:Huv; [done|].
  apply rbind_Ok in Hr as (delta & Hdelta & [= <-]). cbn.
  exists x, estimate. by repeat split.
Qed.

End VarianceInput.

(** C9.  The Timeline Aligner raises [AlignmentError] whenever a per-unit
    frame count that it has computed is negative, and an alignment that it
    returns comes from counts none of which is negative.  So does
    [process_item]: when the counts of lines 85-87 hold a negative one, the
    call of line 90 raises [AlignmentError], and a record that is returned
    has no negative frame count. *)
Theorem negative_frame_count_rejected `{Backend} :
  (∀ (ph_dur_sec : list Q) (length : Z) (timestep : Q) (counts : list Z),
     Timeline.ph_dur ph_dur_sec timestep = Ok counts →
     Exists (λ c, c < 0) counts →
     Timeline.get_mel2ph ph_dur_sec length timestep = Raise AlignmentError)
  ∧ (∀ (ph_dur_sec : list Q) (length : Z) (timestep : Q) (mel2ph : list nat),
       Timeline.get_mel2ph ph_dur_sec length timestep = Ok mel2ph →
       ∃ counts, Timeline.ph_dur ph_dur_sec timestep = Ok counts
                 ∧ Forall (λ c, 0 <= c) counts)
  ∧ (∀ (timestep : Q) (n : string) (m : variance_meta) (len : Z) (counts : list Z),
       Timeline.frame_count (v_ph_dur m) timestep = Ok len →
       Timeline.frame_counts (v_ph_dur m) timestep = Ok counts →
       (∃ note_durs, Timeline.as_floats (v_note_dur m) = Ok note_durs) →
       Exists (λ c, c < 0) counts →
       Variance.process_item timestep n m = Raise AlignmentError)
  ∧ (∀ (timestep : Q) (n : string) (m : variance_meta) (r : variance_record),
       Variance.process_item timestep n m = Ok (Some r) →
       Timeline.frame_counts (v_ph_dur m) timestep = Ok (vr_ph_dur r)
       ∧ Forall (λ c, 0 <= c) (vr_ph_dur r)).
Proof.
  split; [|split; [|split]].
  - intros ph_dur_sec len timestep counts. apply get_mel2ph_negative.
  - intros ph_dur_sec len timestep mel2ph Hm.
    destruct (get_mel2ph_shape _ _ _ _ Hm) as (_ & _ & counts & Hc & Hpos & _).
    by exists counts.
  - intros timestep n m len counts Hlen Hcounts [note_durs Hnotes] Hneg.
    unfold Timeline.frame_count in Hlen. unfold Timeline.frame_counts in Hcounts.
    apply rbind_Ok in Hlen as (durs & Hdurs & Hlen).
    apply rbind_Ok in Hlen as (ts & Hts & Hlen).
    apply rbind_Ok in Hlen as (secs & Hsecs & Hlen).
    rewrite Hdurs in Hcounts. cbn [rbind] in Hcounts. rewrite Hts in Hcounts.
    cbn [rbind] in Hcounts. apply rbind_Ok in Hcounts as (x & Hx & Hcounts).
    unfold Variance.process_item, Variance.processed_input.
    rewrite Hdurs. cbn [rbind]. rewrite Hnotes.
    cbn [rbind]. rewrite Hts. cbn [rbind]. rewrite Hsecs. cbn [rbind].
    rewrite Hlen. cbn [rbind]. rewrite Hx. cbn [rbind]. rewrite Hcounts. cbn [rbind].
    by rewrite (get_mel2ph_negative _ len _ _ Hcounts Hneg).
  - intros timestep n m r Hr.
    destruct (process_item_Some _ _ _ _ Hr) as (x & est & Hx & _ & _ & _ & _ & _ & _ & _ & -> & _).
    by apply (processed_input_counts _ n).
Qed.

Lemma negative_frame_count_rejected_witness :
  Timeline.frame_counts (v_ph_dur Samples.backwards) (1 # 4) = Ok [4; -2]
  ∧ Variance.process_item (H := Samples.backend) (1 # 4) "0:a" Samples.backwards
    = Raise AlignmentError.
Proof.
  assert (Timeline.frame_counts (v_ph_dur Samples.backwards) (1 # 4) = Ok [4; -2])
    as Hcounts by (vm_compute; reflexivity).
  split; [exact Hcounts|].
  destruct (negative_frame_count_rejected (H := Samples.backend)) as (_ & _ & Hraise & _).
  apply (Hraise (1 # 4)%Q "0:a" Samples.backwards 2 [4; -2]).
  - vm_compute. reflexivity.
  - exact Hcounts.
  - eexists. vm_compute. reflexivity.
  - apply Exists_cons_tl, Exists_cons_hd. lia.
Defined.

(** ** Tensor primitives *)

Section TensorFacts.
Import Tensor.
Context {A : Type}.

Lemma gather_is_Some (src : list A) (index : list nat) :
  Forall (λ i, (i < length src)%nat) index → is_Some (gather src index).
Proof.
  intros Hidx. apply mapM_is_Some_2. eapply Forall_impl; [exact Hidx|].
  intros i Hi. by apply lookup_lt_is_Some_2.
Qed.

Lemma gather_lookup (src : list A) (index : list nat) (out : list A) :
  gather src index = Some out →
  length out = length index
  ∧ ∀ f i, index !! f = Some i → out !! f = src !! i.
Proof.
  intros Hg. split; [symmetry; by eapply length_mapM|].
  apply mapM_Some_1 in Hg. intros f i Hf.
  destruct (Forall2_lookup_l _ _ _ _ _ Hg Hf) as (y & -> & Hy). by rewrite Hy.
Qed.

Lemma scatter_add_is_Some (add : A → A → A) (out : list A) (index : list nat)
    (vals : list A) :
  (length index ≤ length vals)%nat →
  Forall (λ i, (i < length out)%nat) index →
  is_Some (scatter_add add out index vals).
Proof.
  revert out vals. induction index as [|i index IH]; intros out vals Hlen Hidx.
  - by eexists.
  - destruct vals as [|v vals]; [simpl in Hlen; lia|].
    apply Forall_cons in Hidx as [Hi Hidx]. simpl.
    destruct (lookup_lt_is_Some_2 out i Hi) as [o ->].
    apply IH; [simpl in Hlen; lia|]. by rewrite length_insert.
Qed.

Lemma scatter_add_length (add : A → A → A) (out : list A) (index : list nat)
    (vals out' : list A) :
  scatter_add add out index vals = Some out' → length out' = length out.
Proof.
  revert out vals. induction index as [|i index IH]; intros out vals; simpl.
  - by intros [= ->].
  - destruct vals as [|v vals]; [done|]. destruct (out !! i); [|done].
    intros Hs%IH. by rewrite Hs, length_insert.
Qed.

(** A cell keeps a property that every value added to it preserves. *)
Lemma scatter_add_preserved (add : A → A → A) (P : A → Prop) (Z0 : A → Prop)
    (p : nat) (out : list A) (index : list nat) (vals out' : list A) (o : A) :
  (∀ x v, P x → Z0 v → P (add x v)) →
  scatter_add add out index vals = Some out' →
  out !! p = Some o → P o →
  (∀ f v, index !! f = Some p → vals !! f = Some v → Z0 v) →
  ∃ o', out' !! p = Some o' ∧ P o'.
Proof.
  intros Hadd. revert out vals o.
  induction index as [|i index IH]; intros out vals o; simpl.
  - intros [= <-] Ho HP _. eauto.
  - destruct vals as [|v vals]; [done|].
    destruct (out !! i) as [oi|] eqn:Hoi; [|done].
    intros Hs Ho HP Hz. destruct (decide (i = p)) as [->|Hne].
    + eapply IH; [exact Hs| | |].
      * apply list_lookup_insert_eq. by eapply lookup_lt_Some.
      * assert (oi = o) as -> by congruence.
        apply Hadd; [done|]. by apply (Hz 0%nat).
      * intros f w Hf Hw. by apply (Hz (S f)).
    + eapply IH; [exact Hs| |exact HP|].
      * by rewrite list_lookup_insert_ne.
      * intros f w Hf Hw. by apply (Hz (S f)).
Qed.

End TensorFacts.

(** ** Phoneme-level mean pitch *)

Section PitchFacts.
Import Num Tensor Pitch.

Lemma divisor_subst (a b : Z) :
  divisor a b = (if a - b =? 0 then 1 else a - b) ∧ divisor a b ≠ 0.
Proof.
  unfold divisor, b2z.
  destruct (Z.eqb_spec a b), (Z.eqb_spec (a - b) 0); lia.
Qed.

Lemma rest_frames_cons (p i : nat) (v : Q) (mel2ph : list nat) (pitch : list Q) :
  rest_frames p (i :: mel2ph) (v :: pitch)
  = (if decide (i = p) then b2z (Qeq_bool v 0) else 0) + rest_frames p mel2ph pitch.
Proof.
  unfold rest_frames. cbn [zip zip_with]. rewrite filter_cons. simpl.
  destruct (decide (i = p)) as [->|Hne].
  - destruct (Qeq_bool v 0) eqn:Hv.
    + rewrite decide_True by done. cbn [length b2z]. lia.
    + rewrite decide_False by (intros [_ ?]; done). simpl. lia.
  - rewrite decide_False by (intros [? _]; done). lia.
Qed.

(** [scatter_add] of the rest mask counts the rest frames of every unit. *)
Lemma scatter_add_rest_frames (out : list Z) (mel2ph : list nat) (pitch : list Q)
    (out' : list Z) (p : nat) :
  scatter_add Z.add out mel2ph (map b2z (rest_mask pitch)) = Some out' →
  out' !! p = (λ o, o + rest_frames p mel2ph pitch) <$> out !! p.
Proof.
  revert out pitch. induction mel2ph as [|i mel2ph IH]; intros out pitch; simpl.
  - intros [= <-]. unfold rest_frames. simpl.
    destruct (out !! p); simpl; [f_equal; lia|done].
  - destruct pitch as [|v pitch]; [done|]. simpl.
    destruct (out !! i) as [oi|] eqn:Hoi; [|done].
    intros Hs. rewrite (IH _ _ Hs), rest_frames_cons.
    destruct (decide (i = p)) as [->|Hne].
    + rewrite list_lookup_insert_eq by (by eapply lookup_lt_Some).
      rewrite Hoi. simpl. f_equal. lia.
    + rewrite list_lookup_insert_ne by done. destruct (out !! p); simpl; [f_equal; lia|done].
Qed.

Lemma unit_values_cons {A} (p i : nat) (v : A) (index : list nat) (vals : list A) :
  unit_values p (i :: index) (v :: vals)
  = if decide (i = p) then v :: unit_values p index vals else unit_values p index vals.
Proof.
  unfold unit_values. cbn [zip zip_with]. rewrite filter_cons. simpl.
  by destruct (decide (i = p)).
Qed.


Lemma tdiv_all_Ok (ps : list Q) (ds : list Z) (qs : list Q) :
  tdiv_all ps ds = Ok qs →
  Forall2 (λ pd q, tdiv pd.1 pd.2 = Ok q) (zip ps ds) qs
  ∧ length ds = length ps ∧ length qs = length ps.
Proof.
  revert ds qs. induction ps as [|p ps IH]; intros [|d ds] qs; simpl; try done.
  - intros [= <-]. by repeat constructor.
  - intros H. apply rbind_Ok in H as (q & Hq & H).
    apply rbind_Ok in H as (qs' & Hqs & [= <-]).
    destruct (IH _ _ Hqs) as (Hall & Hl1 & Hl2).
    split; [by constructor|]. simpl. by rewrite Hl1, Hl2.
Qed.

Lemma tdiv_all_cases (ps : list Q) (ds : list Z) :
  length ds = length ps →
  (∃ qs, tdiv_all ps ds = Ok qs) ∨ tdiv_all ps ds = Raise NonFinite.
Proof.
  revert ds. induction ps as [|p ps IH]; intros [|d ds] Hlen; try done.
  - left. by eexists.
  - simpl. unfold tdiv.
    destruct (single_cases (inject_Z d)) as [[d32 ->]| ->]; [|by right]. cbn [rbind].
    destruct (div32_cases p d32) as [[q ->]| ->]; [|by right]. cbn [rbind].
    destruct (IH ds) as [[qs ->]| ->]; [by simplify_eq/=| |by right].
    left. by eexists.
Qed.

Lemma scatter_add32_cases (out : list Q) (index : list nat) (vals : list Q) :
  (length index ≤ length vals)%nat →
  Forall (λ i, (i < length out)%nat) index →
  (∃ out', scatter_add32 out index vals = Ok out')
  ∨ scatter_add32 out index vals = Raise NonFinite.
Proof.
  revert out vals. induction index as [|i index IH]; intros out vals Hlen Hidx.
  - left. by eexists.
  - destruct vals as [|v vals]; [simpl in Hlen; lia|].
    apply Forall_cons in Hidx as [Hi Hidx]. simpl.
    destruct (lookup_lt_is_Some_2 out i Hi) as [o ->].
    destruct (add32_cases o v) as [[o' ->]| ->]; [|by right]. cbn [rbind].
    apply IH; [simpl in Hlen; lia|]. by rewrite length_insert.
Qed.

Lemma scatter_add32_length (out : list Q) (index : list nat) (vals out' : list Q) :
  scatter_add32 out index vals = Ok out' → length out' = length out.
Proof.
  revert out vals. induction index as [|i index IH]; intros out vals; simpl.
  - by intros [= ->].
  - destruct vals as [|v vals]; [done|]. destruct (out !! i); [|done].
    intros H. apply rbind_Ok in H as (o' & _ & Hs). apply IH in Hs.
    by rewrite Hs, length_insert.
Qed.

(** A cell of the result of [scatter_add] holds the float32 sum of its
    initial value and the values scattered to it, in the order of the
    frames. *)
Lemma scatter_add32_cell (p : nat) (out : list Q) (index : list nat)
    (vals out' : list Q) (o : Q) :
  scatter_add32 out index vals = Ok out' → out !! p = Some o →
  ∃ o', out' !! p = Some o' ∧ sum32_from o (unit_values p index vals) = Ok o'.
Proof.
  revert out vals o. induction index as [|i index IH]; intros out vals o; simpl.
  - intros [= <-] Ho. exists o. split; [done|]. by destruct vals.
  - destruct vals as [|v vals]; [done|].
    destruct (out !! i) as [oi|] eqn:Hoi; [|done].
    intros H Ho. apply rbind_Ok in H as (oi' & Hadd & Hs).
    rewrite unit_values_cons. destruct (decide (i = p)) as [->|Hne].
    + assert (oi = o) as -> by congruence.
      destruct (IH _ _ oi' Hs) as (o' & Ho' & Hsum).
      { apply list_lookup_insert_eq. by eapply lookup_lt_Some. }
      exists o'. split; [done|]. simpl. by rewrite Hadd.
    + apply (IH _ _ o Hs). by rewrite list_lookup_insert_ne.
Qed.

(** The values scattered to a unit all of whose frames have the divisor
    [d] add up as the quotients of its pitches by [d]. *)
Lemma unit_quotients (p : nat) (d : Z) (index : list nat) (ps : list Q)
    (ds : list Z) (qs : list Q) (acc : Q) :
  tdiv_all ps ds = Ok qs →
  (∀ f, index !! f = Some p → ds !! f = Some d) →
  length index = length ps →
  sum32_from acc (unit_values p index qs) = mean_from acc d (unit_values p index ps).
Proof.
  revert ps ds qs acc. induction index as [|i index IH];
    intros [|v ps] [|d' ds] qs acc Hq Hd Hlen; try done.
  simpl in Hq. apply rbind_Ok in Hq as (q & Hq & H).
  apply rbind_Ok in H as (qs' & Hqs & [= <-]).
  rewrite !unit_values_cons. destruct (decide (i = p)) as [->|Hne].
  - specialize (Hd 0%nat eq_refl) as Hd0. injection Hd0 as ->.
    unfold tdiv in Hq. apply rbind_Ok in Hq as (d32 & Hd32 & Hq).
    simpl. rewrite Hd32. cbn [rbind]. rewrite Hq. cbn [rbind].
    destruct (Float.add32 acc q) as [acc'|e]; [|done]. cbn [rbind].
    apply (IH ps ds); [done| |by simplify_eq/=].
    intros f Hf. apply (Hd (S f) Hf).
  - apply (IH ps ds); [done| |by simplify_eq/=].
    intros f Hf. apply (Hd (S f) Hf).
Qed.



(** The divisors of line 122 on inputs of matching shapes. *)
Lemma frame_divisors_shaped (t_txt : nat) (ph_dur : list Z) (mel2ph : list nat)
    (pitch : list Q) :
  length ph_dur = t_txt →
  length pitch = length mel2ph →
  Forall (λ i, (i ≤ t_txt)%nat) mel2ph →
  ∃ divs,
    frame_divisors t_txt ph_dur mel2ph pitch = Ok divs
    ∧ length divs = length mel2ph
    ∧ ∀ f p dur, mel2ph !! f = Some (S p) → ph_dur !! p = Some dur →
        divs !! f = Some (let n := dur - rest_frames (S p) mel2ph pitch in
                          if n =? 0 then 1 else n).
Proof.
  intros Hdur Hlen Hidx.
  assert (Hidx' : ∀ n, n = S t_txt → Forall (λ i, (i < n)%nat) mel2ph).
  { intros n ->. eapply Forall_impl; [exact Hidx|]. simpl. lia. }
  destruct (gather_is_Some (pad_front 1 ph_dur) mel2ph) as [mel2dur Hmd].
  { apply Hidx'. simpl. lia. }
  destruct (scatter_add_is_Some Z.add (replicate (S t_txt) 0) mel2ph
              (map b2z (rest_mask pitch))) as [counts Hc].
  { unfold rest_mask. rewrite !length_map. lia. }
  { apply Hidx'. by rewrite length_replicate. }
  pose proof (scatter_add_length _ _ _ _ _ Hc) as Hcl. rewrite length_replicate in Hcl.
  destruct (gather_is_Some (pad_front 1 (tail counts)) mel2ph) as [mel2rest Hmr].
  { apply Hidx'. simpl. rewrite length_tl. lia. }
  destruct (gather_lookup _ _ _ Hmd) as [Hmdl Hmdk].
  destruct (gather_lookup _ _ _ Hmr) as [Hmrl Hmrk].
  exists (zip_with divisor mel2dur mel2rest). split; [|split].
  - unfold frame_divisors, ph_dur_rest. rewrite Hmd, Hc. simpl. by rewrite Hmr.
  - rewrite length_zip_with. lia.
  - intros f p dur Hf Hp.
    assert (Hpt : (p < t_txt)%nat) by (rewrite <- Hdur; by eapply lookup_lt_Some).
    rewrite lookup_zip_with.
    rewrite (Hmdk _ _ Hf), (Hmrk _ _ Hf). simpl. rewrite Hp. simpl.
    rewrite lookup_tail, (scatter_add_rest_frames _ _ _ _ (S p) Hc).
    rewrite lookup_replicate_2 by lia. simpl.
    f_equal. rewrite Z.add_0_l. apply divisor_subst.
Qed.

(** Lines 118-125 on inputs of matching shapes: the mean of every unit is
    the float32 sum of the quotients of its pitches by its divisor. *)
Lemma ph_midi_shaped (t_txt : nat) (ph_dur : list Z) (mel2ph : list nat)
    (pitch : list Q) :
  length ph_dur = t_txt →
  length pitch = length mel2ph →
  Forall (λ i, (i ≤ t_txt)%nat) mel2ph →
  ((∃ means, ph_midi t_txt ph_dur mel2ph pitch = Ok means)
   ∨ ph_midi t_txt ph_dur mel2ph pitch = Raise NonFinite)
  ∧ ∀ means, ph_midi t_txt ph_dur mel2ph pitch = Ok means →
      midi t_txt ph_dur mel2ph pitch = Ok (map int_trunc means)
      ∧ length means = t_txt
      ∧ ∀ p dur, ph_dur !! p = Some dur →
          ∃ v, means !! p = Some v
               ∧ unit_mean (let n := dur - rest_frames (S p) mel2ph pitch in
                            if n =? 0 then 1 else n)
                   (unit_values (S p) mel2ph pitch) = Ok v.
Proof.
  intros Hdur Hlen Hidx.
  destruct (frame_divisors_shaped _ _ _ _ Hdur Hlen Hidx) as (divs & Hdivs & Hdl & Hdk).
  assert (Hin : Forall (λ i, (i < length (replicate (S t_txt) 0%Q))%nat) mel2ph).
  { rewrite length_replicate. eapply Forall_impl; [exact Hidx|]. simpl. lia. }
  unfold ph_midi, midi, ph_midi. rewrite Hdivs. cbn [rbind]. split.
  - destruct (tdiv_all_cases pitch divs) as [[contrib Hc]|Hc]; [lia| |by rewrite Hc; right].
    rewrite Hc. cbn [rbind]. destruct (tdiv_all_Ok _ _ _ Hc) as (_ & _ & Hcl).
    destruct (scatter_add32_cases (replicate (S t_txt) 0%Q) mel2ph contrib)
      as [[sums ->]| ->]; [lia|done| |by right].
    left. by eexists.
  - intros means H. apply rbind_Ok in H as (contrib & Hc & H).
    apply rbind_Ok in H as (sums & Hs & [= <-]).
    rewrite Hc. cbn [rbind]. rewrite Hs. cbn [rbind]. split; [done|].
    pose proof (scatter_add32_length _ _ _ _ Hs) as Hsl.
    rewrite length_replicate in Hsl. split; [rewrite length_tl; lia|].
    intros p dur Hp.
    assert (Hpt : (p < t_txt)%nat) by (rewrite <- Hdur; by eapply lookup_lt_Some).
    destruct (scatter_add32_cell (S p) _ _ _ _ 0%Q Hs) as (v & Hv & Hsum).
    { apply lookup_replicate_2. lia. }
    exists v. rewrite lookup_tail. split; [done|].
    unfold unit_mean. rewrite <- Hsum. symmetry.
    apply (unit_quotients _ _ _ _ divs); [done| |lia].
    intros f Hf. by apply Hdk.
Qed.

End PitchFacts.




(** X2.  The phoneme-level mean pitch of lines 117-125.  On inputs of matching
    shapes the computation returns the means or ends on a float32 result
    out of range.  The mean of unit [p] is the float32 sum, in the order of
    the frames, of the quotients of the pitches of the frames aligned to [p]
    by the divisor of [p], which is [ph_dur[p]] minus the number of rest
    frames of [p], or 1 when that difference is zero; [midi] is the mean
    truncated toward zero.  A unit without a frame in the alignment array
    has the mean 0. *)
Theorem phoneme_mean_value (t_txt : nat) (ph_dur : list Z) (mel2ph : list nat)
    (frame_midi_pitch : list Q) :
  length ph_dur = t_txt →
  length frame_midi_pitch = length mel2ph →
  Forall (λ i, (i ≤ t_txt)%nat) mel2ph →
  ((∃ means, Pitch.ph_midi t_txt ph_dur mel2ph frame_midi_pitch = Ok means)
   ∨ Pitch.ph_midi t_txt ph_dur mel2ph frame_midi_pitch = Raise NonFinite)
  ∧ ∀ means,
      Pitch.ph_midi t_txt ph_dur mel2ph frame_midi_pitch = Ok means →
      Pitch.midi t_txt ph_dur mel2ph frame_midi_pitch = Ok (map Num.int_trunc means)
      ∧ length means = t_txt
      ∧ (∀ p dur, ph_dur !! p = Some dur →
           ∃ v, means !! p = Some v
                ∧ Pitch.unit_mean
                    (let n := dur - Pitch.rest_frames (S p) mel2ph frame_midi_pitch in
                     if n =? 0 then 1 else n)
                    (Pitch.unit_values (S p) mel2ph frame_midi_pitch) = Ok v)
      ∧ (∀ p, (p < t_txt)%nat → S p ∉ mel2ph → means !! p = Some 0%Q).
Proof.
  intros Hdur Hlen Hidx.
  destruct (ph_midi_shaped _ _ _ _ Hdur Hlen Hidx) as [Hcases Hmeans].
  split; [exact Hcases|]. intros means Hm.
  destruct (Hmeans _ Hm) as (Hmidi & Hl & Hval).
  split; [done|]. split; [done|]. split; [done|].
  intros p Hp Hnone.
  destruct (lookup_lt_is_Some_2 ph_dur p) as [dur Hdurp]; [lia|].
  destruct (Hval _ _ Hdurp) as (v & Hv & Hmean).
  assert (Pitch.unit_values (S p) mel2ph frame_midi_pitch = []) as Hempty.
  { unfold Pitch.unit_values.
    destruct (filter _ (zip mel2ph frame_midi_pitch)) as [|[i x] l] eqn:Hf; [done|].
    assert ((i, x) ∈ filter (λ y : nat * Q, y.1 = S p) (zip mel2ph frame_midi_pitch))
      as Hin by (rewrite Hf; by left).
    apply list_elem_of_filter in Hin as [Hi Hin]. simpl in Hi. subst i.
    apply elem_of_zip_l in Hin. done. }
  rewrite Hempty in Hmean. by injection Hmean as <-.
Qed.

Lemma phoneme_mean_value_witness :
  Pitch.ph_midi 2 [2; 2] [1; 1; 2; 2]%nat [60; 62; 0; 64]%Q = Ok [61; 64]%Q
  ∧ Pitch.unit_mean 1 [0; 64]%Q = Ok 64%Q.
Proof.
  assert (Pitch.ph_midi 2 [2; 2] [1; 1; 2; 2]%nat [60; 62; 0; 64]%Q = Ok [61; 64]%Q)
    as Hm by (vm_compute; reflexivity).
  split; [exact Hm|].
  destruct (phoneme_mean_value 2 [2; 2] [1; 1; 2; 2]%nat [60; 62; 0; 64]%Q)
    as [_ Hmeans]; [reflexivity|reflexivity|repeat constructor|].
  destruct (Hmeans _ Hm) as (_ & _ & Hval & _).
  destruct (Hval 1%nat 2 eq_refl) as (v & Hv & Hmean). injection Hv as <-.
  exact Hmean.
Defined.

(** X3.  A unit sung on one note.  The mean is a float32 sum of float32
    quotients, and [midi] truncates it: a phoneme with seven frames of the
    pitch 60 and no rest frame has the divisor 7, the seven quotients
    [60 / 7] add up to a float32 number just below 60, and the MIDI value
    of the phoneme is 59.  With two frames the quotients are exact and the
    MIDI value is 60. *)
Theorem single_note_unit_mean :
  Pitch.frame_divisors 1 [7] (replicate 7 1%nat) (replicate 7 60%Q)
  = Ok (replicate 7 7)
  ∧ Pitch.ph_midi 1 [7] (replicate 7 1%nat) (replicate 7 60%Q)
    = Ok [7864319 # 131072]%Q
  ∧ (60 - (1 # 100000) < 7864319 # 131072 < 60)%Q
  ∧ Pitch.midi 1 [7] (replicate 7 1%nat) (replicate 7 60%Q) = Ok [59]
  ∧ Pitch.ph_midi 1 [2] [1; 1]%nat [60; 60]%Q = Ok [60%Q]
  ∧ Pitch.midi 1 [2] [1; 1]%nat [60; 60]%Q = Ok [60].
Proof.
  split; [vm_compute; reflexivity|]. split; [vm_compute; reflexivity|].
  split; [split; reflexivity|]. repeat split; vm_compute; reflexivity.
Qed.

(** ** Coverage Validator *)

Section CoverageFacts.
Import Coverage.

(** Once a phoneme has been seen the scan runs to the end. *)
Lemma scan_nonempty (ph_occurred : list string) (items : list (string * acoustic_meta)) :
  ph_occurred ≠ [] →
  scan ph_occurred items
  = Ok (ph_occurred ++ concat (map (λ it, a_ph_seq it.2) items)).
Proof.
  revert ph_occurred. induction items as [|[n m] items IH]; intros acc Hacc; simpl.
  - by rewrite app_nil_r.
  - rewrite bool_decide_false.
    + rewrite IH, app_assoc; [done|]. by destruct acc.
    + rewrite length_app. destruct acc; [done|simpl; lia].
Qed.

(** The scan completes unless the first item has no phoneme. *)
Lemma scan_complete (items : list (string * acoustic_meta)) :
  (∀ it, head items = Some it → a_ph_seq it.2 ≠ []) →
  scan [] items = Ok (concat (map (λ it, a_ph_seq it.2) items)).
Proof.
  destruct items as [|[n m] items]; intros Hhead; [done|]. cbn [scan app].
  specialize (Hhead (n, m) eq_refl). simpl in Hhead.
  rewrite bool_decide_false by (by destruct (a_ph_seq m)).
  by rewrite scan_nonempty.
Qed.

(** The counters hold the number of occurrences of each required phoneme. *)
Lemma count_lookup (ph_required : gset string) (ph_occurred : list string)
    (phoneme_map : gmap string nat) (key : string) :
  count ph_required ph_occurred phoneme_map !! key
  = (λ c, c + if decide (key ∈ ph_required)
              then length (filter (λ ph, ph = key) ph_occurred) else 0)%nat
    <$> phoneme_map !! key.
Proof.
  unfold count. revert phoneme_map.
  induction ph_occurred as [|ph occ IH]; intros m; simpl.
  - destruct (m !! key); simpl; [|done]. f_equal. destruct (decide _); simpl; lia.
  - rewrite IH, filter_cons. destruct (decide (ph = key)) as [->|Hne].
    + case_bool_decide as Hreq.
      * rewrite lookup_alter_eq. destruct (decide (key ∈ ph_required)); [|done].
        destruct (m !! key); simpl; [f_equal; lia|done].
      * destruct (decide (key ∈ ph_required)); done.
    + case_bool_decide; [rewrite lookup_alter_ne by done|]; done.
Qed.

Lemma count_dom (ph_required : gset string) (ph_occurred : list string)
    (phoneme_map : gmap string nat) :
  dom (count ph_required ph_occurred phoneme_map) = dom phoneme_map.
Proof.
  unfold count. revert phoneme_map.
  induction ph_occurred as [|ph occ IH]; intros m; simpl; [done|].
  rewrite IH. case_bool_decide; [apply dom_alter_L|done].
Qed.

(** [sorted] of a set: ordered, free of duplicates, same members. *)
Lemma sorted_elements (X : gset string) :
  StronglySorted String.le (sorted (elements X))
  ∧ NoDup (sorted (elements X))
  ∧ ∀ ph, ph ∈ sorted (elements X) ↔ ph ∈ X.
Proof.
  unfold sorted. split; [apply (StronglySorted_merge_sort String.le)|]. split.
  - rewrite merge_sort_Permutation. apply NoDup_elements.
  - intros ph. rewrite merge_sort_Permutation. apply elem_of_elements.
Qed.

End CoverageFacts.

(** The validator once the scan has gone through: the counts are printed,
    the chart is drawn, and only then the file notice is printed and the two
    sets are compared. *)
Lemma check_coverage_scanned (chart : Z → gmap string nat → string → result unit)
    (hp : hparams) (phoneme_list : list string)
    (items : list (string * acoustic_meta)) :
  let ph_occurred := concat (map (λ it, a_ph_seq it.2) items) in
  let required : gset string := list_to_set phoneme_list in
  let observed : gset string := list_to_set ph_occurred in
  let bars := Coverage.count required ph_occurred (gset_to_gmap 0%nat required) in
  let file := Coverage.summary_file (binary_data_dir hp) in
  (∀ it, head items = Some it → a_ph_seq it.2 ≠ []) →
  Coverage.check_coverage chart hp phoneme_list items
  = match rbind (Coverage.figure_width required) (λ width, chart width bars file) with
    | Raise e => (Coverage.distribution required bars, Raise e)
    | Ok _ =>
        (Coverage.summary required bars file,
         if bool_decide (observed ≠ required)
         then Raise (BinarizationError
                (DictionaryMismatch
                   (Coverage.sorted (elements (observed ∖ required)))
                   (Coverage.sorted (elements (required ∖ observed)))))
         else Ok tt)
    end.
Proof.
  intros ph_occurred required observed bars file Hhead.
  unfold Coverage.check_coverage. rewrite (scan_complete items Hhead).
  fold ph_occurred required observed bars file.
  destruct (rbind _ _); [|done]. by case_bool_decide.
Qed.

(** The lines printed before the chart is drawn: one entry per required
    phoneme, in sorted order, with the number of its occurrences. *)
Lemma distribution_counts (required : gset string) (ph_occurred : list string) :
  Coverage.distribution required
    (Coverage.count required ph_occurred (gset_to_gmap 0%nat required))
  = ("===== Phoneme Distribution Summary =====" +:+ Coverage.nl)
    :: imap (λ i key,
         "'" +:+ key +:+ "': "
             +:+ pretty (length (filter (λ ph, ph = key) ph_occurred))
             +:+ Coverage.entry_end (size required) i)
         (Coverage.sorted (elements required)).
Proof.
  unfold Coverage.distribution. rewrite count_dom, dom_gset_to_gmap. f_equal.
  apply imap_ext. intros i key Hkey.
  assert (Hin : key ∈ required).
  { apply sorted_elements. by eapply list_elem_of_lookup_2. }
  unfold Coverage.entry. rewrite count_lookup, lookup_gset_to_gmap.
  rewrite option_guard_True by done. simpl. by rewrite decide_True.
Qed.

(** The guard of lines 84-85 on the first item. *)
Lemma empty_first_item_raises (chart : Z → gmap string nat → string → result unit)
    (hp : hparams) (phoneme_list : list string)
    (n : string) (m : acoustic_meta) (items : list (string * acoustic_meta)) :
  a_ph_seq m = [] →
  Coverage.check_coverage chart hp phoneme_list ((n, m) :: items)
  = ([], Raise (BinarizationError (EmptyTokens n))).
Proof.
  intros Hm. unfold Coverage.check_coverage. cbn [Coverage.scan app]. by rewrite Hm.
Qed.

(** C6, as stated, fails: with the dictionary [a] and a corpus of one item
    without phonemes the observed set (empty) differs from the required one,
    yet nothing is printed and the error raised is the empty-tokens error of
    line 85, which carries no phoneme lists.  And the chart comes between
    the counts and the comparison of the sets: with the dictionary [a] and
    the one item [b] the figure has the width [int(1 * 0.8)], zero, and when
    the chart cannot be saved the counts are printed, the file notice is
    not, and the exception of the chart is raised, not the mismatch. *)
Lemma coverage_mismatch_counterexample :
  let empty := [("0:a", {| a_wav_fn := "a.wav"; a_ph_seq := [];
                           a_ph_dur := []; a_spk_id := 0 |})] in
  let other := [("0:a", {| a_wav_fn := "a.wav"; a_ph_seq := ["b"];
                           a_ph_dur := [1 # 10]%Q; a_spk_id := 0 |})] in
  ((list_to_set (concat (map (λ it, a_ph_seq it.2) empty)) : gset string)
   ≠ list_to_set ["a"]
   ∧ Coverage.check_coverage Samples.chart Samples.flags ["a"] empty
     = ([], Raise (BinarizationError (EmptyTokens "0:a"))))
  ∧ ((list_to_set (concat (map (λ it, a_ph_seq it.2) other)) : gset string)
     ≠ list_to_set ["a"]
     ∧ Coverage.figure_width (list_to_set ["a"]) = Ok 0
     ∧ Coverage.check_coverage Samples.chart Samples.flags ["a"] other
       = (["===== Phoneme Distribution Summary =====" +:+ Coverage.nl;
           "'a': 0" +:+ Coverage.nl],
          Raise LinAlgError)).
Proof.
  split; (split; [|repeat split; vm_compute; reflexivity]).
  - simpl. intros Heq. assert (Hin : "a" ∈ (∅ : gset string)); [|set_solver].
    rewrite Heq. set_solver.
  - simpl. intros Heq. assert (Hin : "a" ∈ ({["b"]} ∪ ∅ : gset string)); [|set_solver].
    rewrite Heq. set_solver.
Qed.

(** C6, amended.  On a corpus in which every item has at least one phoneme,
    whenever the observed phoneme set differs from the required one the
    validator first prints the header and one entry per required phoneme in
    sorted order with the number of its occurrences, and then draws the
    chart.  When the chart is drawn and saved, the validator prints the file
    notice and raises the mismatch error with the sorted list of the
    observed but not required phonemes and the sorted list of the required
    but never observed ones.  When the chart raises, that exception is
    raised after the entries, in place of the mismatch error. *)
Theorem coverage_mismatch_reported
    (chart : Z → gmap string nat → string → result unit)
    (hp : hparams) (phoneme_list : list string)
    (items : list (string * acoustic_meta)) :
  let ph_occurred := concat (map (λ it, a_ph_seq it.2) items) in
  let required : gset string := list_to_set phoneme_list in
  let observed : gset string := list_to_set ph_occurred in
  let bars := Coverage.count required ph_occurred (gset_to_gmap 0%nat required) in
  let file := Coverage.summary_file (binary_data_dir hp) in
  let entries :=
    ("===== Phoneme Distribution Summary =====" +:+ Coverage.nl)
    :: imap (λ i key,
         "'" +:+ key +:+ "': "
             +:+ pretty (length (filter (λ ph, ph = key) ph_occurred))
             +:+ Coverage.entry_end (size required) i)
         (Coverage.sorted (elements required)) in
  Forall (λ it, a_ph_seq it.2 ≠ []) items →
  observed ≠ required →
  (∀ width, Coverage.figure_width required = Ok width →
     chart width bars file = Ok tt →
     ∃ unrecognizable missing,
       Coverage.check_coverage chart hp phoneme_list items
       = (entries ++ ["| save summary to '" +:+ file +:+ "'" +:+ Coverage.nl],
          Raise (BinarizationError (DictionaryMismatch unrecognizable missing)))
       ∧ StronglySorted String.le unrecognizable
       ∧ NoDup unrecognizable
       ∧ (∀ ph, ph ∈ unrecognizable ↔ ph ∈ observed ∧ ph ∉ required)
       ∧ StronglySorted String.le missing
       ∧ NoDup missing
       ∧ (∀ ph, ph ∈ missing ↔ ph ∈ required ∧ ph ∉ observed))
  ∧ (∀ e, rbind (Coverage.figure_width required) (λ width, chart width bars file)
          = Raise e →
       Coverage.check_coverage chart hp phoneme_list items = (entries, Raise e)).
Proof.
  intros ph_occurred required observed bars file entries Hne Hdiff.
  assert (∀ it, head items = Some it → a_ph_seq it.2 ≠ []) as Hhead.
  { intros it Hit. rewrite Forall_forall in Hne. apply Hne.
    destruct items; simplify_eq/=. by left. }
  pose proof (check_coverage_scanned chart hp phoneme_list items Hhead) as Heq.
  cbv zeta in Heq. fold ph_occurred required observed bars file in Heq.
  pose proof (distribution_counts required ph_occurred) as Hprinted.
  fold bars entries in Hprinted. split.
  - intros width Hwidth Hchart.
    exists (Coverage.sorted (elements (observed ∖ required))),
           (Coverage.sorted (elements (required ∖ observed))).
    destruct (sorted_elements (observed ∖ required)) as (Hs1 & Hn1 & He1).
    destruct (sorted_elements (required ∖ observed)) as (Hs2 & Hn2 & He2).
    split; [|split_and!; try done; intros ph; [rewrite He1|rewrite He2];
             apply elem_of_difference].
    rewrite Heq, Hwidth. cbn [rbind]. rewrite Hchart.
    rewrite bool_decide_true by done. unfold Coverage.summary. by rewrite Hprinted.
  - intros e He. by rewrite Heq, He, Hprinted.
Qed.

Lemma coverage_mismatch_reported_witness :
  Coverage.check_coverage Samples.chart Samples.flags ["a"; "b"; "c"]
    [("0:x", {| a_wav_fn := "x.wav"; a_ph_seq := ["a"; "a"; "b"];
                a_ph_dur := [1 # 10; 1 # 10; 1 # 10]%Q; a_spk_id := 0 |})]
  = (["===== Phoneme Distribution Summary =====" +:+ Coverage.nl;
      "'a': 2, "; "'b': 1, "; "'c': 0" +:+ Coverage.nl;
      "| save summary to 'data/phoneme_distribution.jpg'" +:+ Coverage.nl],
     Raise (BinarizationError (DictionaryMismatch [] ["c"]))).
Proof.
  destruct (coverage_mismatch_reported Samples.chart Samples.flags ["a"; "b"; "c"]
    [("0:x", {| a_wav_fn := "x.wav"; a_ph_seq := ["a"; "a"; "b"];
                a_ph_dur := [1 # 10; 1 # 10; 1 # 10]%Q; a_spk_id := 0 |})])
    as [Hdrawn _].
  - repeat constructor; discriminate.
  - intros Heq. assert (Hc : "c" ∈ (list_to_set ["a"; "b"; "c"] : gset string))
      by set_solver.
    rewrite <- Heq in Hc. set_solver.
  - destruct (Hdrawn 2) as (unrec & missing & Heq & _).
    + vm_compute. reflexivity.
    + reflexivity.
    + rewrite Heq. vm_compute in Heq. injection Heq as <- <-.
      vm_compute. reflexivity.
Defined.

(** C7 on the code.  The emptiness test at line 84 looks at the phonemes
    accumulated so far, not at those of the current item: an empty item that
    follows a non-empty one goes unnoticed, and the validation succeeds when
    the chart of the two phonemes, of width [int(2 * 0.8)], is drawn. *)
Theorem empty_item_after_first_unnoticed
    (chart : Z → gmap string nat → string → result unit) (hp : hparams) :
  (∀ bars, chart 1 bars (Coverage.summary_file (binary_data_dir hp)) = Ok tt) →
  snd (Coverage.check_coverage chart hp ["a"; "b"]
         [("0:a", {| a_wav_fn := "a.wav"; a_ph_seq := ["a"; "b"];
                     a_ph_dur := [1 # 10; 1 # 10]%Q; a_spk_id := 0 |});
          ("0:b", {| a_wav_fn := "b.wav"; a_ph_seq := [];
                     a_ph_dur := []; a_spk_id := 0 |})])
  = Ok tt
  ∧ snd (Coverage.check_coverage chart hp ["a"; "b"]
         [("0:b", {| a_wav_fn := "b.wav"; a_ph_seq := [];
                     a_ph_dur := []; a_spk_id := 0 |});
          ("0:a", {| a_wav_fn := "a.wav"; a_ph_seq := ["a"; "b"];
                     a_ph_dur := [1 # 10; 1 # 10]%Q; a_spk_id := 0 |})])
  = Raise (BinarizationError (EmptyTokens "0:b")).
Proof.
  intros Hchart. split; [|by rewrite empty_first_item_raises].
  rewrite check_coverage_scanned by (by intros it [= <-]). cbv zeta.
  assert (Coverage.figure_width (list_to_set ["a"; "b"]) = Ok 1) as ->
    by (vm_compute; reflexivity).
  cbn [rbind]. rewrite Hchart. cbn [snd]. by rewrite bool_decide_false by auto.
Qed.

Lemma empty_item_after_first_unnoticed_witness :
  snd (Coverage.check_coverage Samples.chart Samples.flags ["a"; "b"]
         [("0:a", {| a_wav_fn := "a.wav"; a_ph_seq := ["a"; "b"];
                     a_ph_dur := [1 # 10; 1 # 10]%Q; a_spk_id := 0 |});
          ("0:b", {| a_wav_fn := "b.wav"; a_ph_seq := [];
                     a_ph_dur := []; a_spk_id := 0 |})])
  = Ok tt.
Proof.
  apply (empty_item_after_first_unnoticed Samples.chart Samples.flags).
  intros bars. reflexivity.
Defined.

(** ** Augmentation Scheduler *)

Section SchedulerFacts.
Import Num Augment.
Variables (rnd : nat → Q) (fpow : Q → Q → Q).

Lemma run_bind {A B} (m : M A) (k : A → M B) (s : sched) :
  (m ≫= k) s = match m s with
               | Ok (a, s') => k a s'
               | Raise e => Raise e
               end.
Proof. reflexivity. Qed.

Lemma run_bind_ok {A B} (m : M A) (k : A → M B) (s s' : sched) (a : A) :
  m s = Ok (a, s') → (m ≫= k) s = k a s'.
Proof. intros H. by rewrite run_bind, H. Qed.

(** *** Names and references *)

Lemma filter_ext_elem {A} (P1 P2 : A → Prop) `{!∀ x, Decision (P1 x)}
    `{!∀ x, Decision (P2 x)} (l : list A) :
  (∀ x, x ∈ l → P1 x ↔ P2 x) → filter P1 l = filter P2 l.
Proof.
  induction l as [|x l IH]; intros Hext; [done|].
  rewrite !filter_cons, IH by (intros y Hy; apply Hext; by right).
  destruct (decide (P1 x)) as [H1|H1], (decide (P2 x)) as [H2|H2]; try done;
    exfalso; apply (Hext x) in H1 || apply (Hext x) in H2; try done; by left.
Qed.

Lemma refs_named_snoc (names : list string) (m n : string) :
  refs_named (names ++ [m]) n
  = refs_named names n ++ (if decide (m = n) then [length names] else []).
Proof.
  unfold refs_named. rewrite length_app. simpl.
  rewrite Nat.add_1_r, seq_S, filter_app. simpl. f_equal.
  - apply filter_ext_elem. intros i Hi%elem_of_seq.
    by rewrite lookup_app_l by lia.
  - rewrite filter_cons, filter_nil.
    rewrite list_lookup_middle by done.
    destruct (decide (m = n)) as [->|Hne].
    + by rewrite decide_True.
    + rewrite decide_False; [done|congruence].
Qed.

Lemma names_set_speed (h : list aug_task) (i : nat) (t : aug_task) (sp : Q) :
  h !! i = Some t → name <$> <[i := set_speed sp t]> h = name <$> h.
Proof.
  intros Hi. rewrite list_fmap_insert. apply list_insert_id.
  by rewrite list_lookup_fmap, Hi.
Qed.

(** *** The bookkeeping invariant *)

Lemma preserves_ret {A} (a : A) : preserves (mret a).
Proof. intros s a' s' Hs [= _ <-]. done. Qed.

Lemma preserves_bind {A B} (m : M A) (k : A → M B) :
  preserves m → (∀ a, preserves (k a)) → preserves (m ≫= k).
Proof.
  intros Hm Hk s b s' Hs. rewrite run_bind.
  destruct (m s) as [[a s1]|e] eqn:Hms; [|done].
  intros Hks. eapply Hk; [|exact Hks]. by eapply Hm.
Qed.

Lemma preserves_lift {A} (r : result A) : preserves (lift r).
Proof. intros s a s' Hs. unfold lift. destruct r; [|done]. by intros [= _ <-]. Qed.

Lemma preserves_raise {A} (e : exn) : preserves (raise (A := A) e).
Proof. intros s a s' Hs. done. Qed.

Lemma preserves_random : preserves (random rnd).
Proof. intros s a s' Hs [= _ <-]. done. Qed.

Lemma preserves_uniform (a b : Q) : preserves (uniform rnd a b).
Proof.
  apply preserves_bind; [apply preserves_random|]. intros r. apply preserves_ret.
Qed.

Lemma preserves_choices {A} (population : list A) (k : nat) :
  preserves (choices rnd population k).
Proof.
  induction k as [|k IH]; simpl; [apply preserves_ret|].
  apply preserves_bind; [apply preserves_random|]. intros r.
  apply preserves_bind; [apply preserves_lift|]. intros x.
  apply preserves_bind; [apply IH|]. intros xs. apply preserves_ret.
Qed.

Lemma preserves_for_each {A} (l : list A) (body : A → M unit) :
  (∀ x, preserves (body x)) → preserves (for_each l body).
Proof.
  intros Hbody. induction l as [|x l IH]; simpl; [apply preserves_ret|].
  apply preserves_bind; [apply Hbody|]. intros _. apply IH.
Qed.

Lemma preserves_add_scale (x : Q) : preserves (add_scale x).
Proof. intros s a s' Hs [= _ <-]. done. Qed.

Lemma preserves_get_total_scale : preserves get_total_scale.
Proof. intros s a s' Hs [= _ <-]. done. Qed.

Lemma preserves_get_aug_list : preserves get_aug_list.
Proof. intros s a s' Hs [= _ <-]. done. Qed.

Lemma preserves_fdiv (a b : Q) : preserves (fdiv a b).
Proof.
  unfold fdiv. destruct (Qeq_bool b 0); [apply preserves_raise|apply preserves_ret].
Qed.

Lemma preserves_draw_speed (domain : string) (lo hi : Q) :
  preserves (draw_speed rnd fpow domain lo hi).
Proof.
  unfold draw_speed. case_bool_decide.
  - apply preserves_bind; [apply preserves_random|]. intros r. apply preserves_ret.
  - apply preserves_bind; [apply preserves_uniform|]. intros r. apply preserves_ret.
Qed.

(** The state after a new task has been created and registered. *)
Lemma grouped_new_task (s : sched) (t : aug_task) (h : list aug_task) :
  grouped s →
  (name <$> h) = (name <$> heap s) →
  grouped
    {| heap := h ++ [t];
       aug_map := match aug_map s !! name t with
                  | Some l => <[name t := l ++ [length (heap s)]]> (aug_map s)
                  | None => <[name t := [length (heap s)]]> (aug_map s)
                  end;
       aug_list := aug_list s ++ [length (heap s)];
       total_scale := total_scale s; draws := draws s |}.
Proof.
  intros [Hl Hm] Hh.
  assert (Hlen : length h = length (heap s)).
  { by rewrite <- (length_fmap name h), Hh, length_fmap. }
  split; simpl.
  - rewrite length_app, Hlen, Hl. simpl. by rewrite Nat.add_1_r, seq_S.
  - intros n. rewrite fmap_app, Hh. simpl. rewrite refs_named_snoc, length_fmap, <- Hm.
    destruct (decide (name t = n)) as [<-|Hne].
    + destruct (aug_map s !! name t) eqn:Hlook; by rewrite lookup_insert_eq.
    + rewrite app_nil_r.
      destruct (aug_map s !! name t) eqn:Hlook; by rewrite lookup_insert_ne.
Qed.

Lemma preserves_new_task (t : aug_task) :
  preserves (r ← alloc t; register (name t) r).
Proof.
  intros s a s' Hs [= _ <-]. simpl. by apply grouped_new_task.
Qed.

Lemma preserves_mutate (i : nat) (sp : Q) : preserves (mutate i (set_speed sp)).
Proof.
  intros s a s' [Hl Hm]. unfold mutate.
  destruct (heap s !! i) as [t|] eqn:Hi; [|done]. intros [= _ <-].
  split; simpl.
  - by rewrite length_insert.
  - intros n. by rewrite names_set_speed.
Qed.

Lemma preserves_copy (i : nat) (sp : Q) :
  preserves (prior ← deref i; aug_task ← alloc prior;
             mutate i (set_speed sp);; register (name prior) aug_task).
Proof.
  intros s a s' Hs. rewrite run_bind. unfold deref at 1.
  destruct (heap s !! i) as [prior|] eqn:Hi; [|done].
  rewrite run_bind. cbn [alloc]. rewrite run_bind. unfold mutate at 1. cbn [heap].
  rewrite lookup_app_l by (by eapply lookup_lt_Some). rewrite Hi.
  intros [= _ <-]. cbn [heap aug_map aug_list total_scale draws].
  rewrite insert_app_l by (by eapply lookup_lt_Some).
  apply grouped_new_task; [done|]. by apply names_set_speed.
Qed.

Lemma preserves_stretch_branch (ty : nat) (item : aug_item) (sp : Q) :
  preserves (stretch_branch ty item sp).
Proof.
  destruct ty as [|[|[|ty]]], item as [n|i]; simpl;
    try apply preserves_raise; try apply preserves_ret.
  - apply (preserves_new_task
             {| name := n; func := RandomTimeStretching;
                kw := {| key_shift := None; replace_spk_id := None; speed := Some sp |} |}).
  - apply preserves_copy.
  - apply preserves_mutate.
Qed.

End SchedulerFacts.

Section SchedulerStages.
Import Num Augment.
Variables (rnd : nat → Q) (fpow : Q → Q → Q).
Variables (hp : hparams) (spk_count : nat) (args : augmentation_args).

Lemma preserves_random_pitch_stage (names : list string) :
  preserves (random_pitch_stage rnd hp args names).
Proof.
  unfold random_pitch_stage. destruct (random_pitch_shifting args) as [a|];
    [|apply preserves_ret].
  destruct (p_range a) as [lo hi].
  apply preserves_bind; [apply preserves_lift|]. intros _.
  apply preserves_bind; [apply preserves_lift|]. intros _.
  apply preserves_bind; [apply preserves_choices|]. intros picks.
  apply preserves_bind; [|intros _; apply preserves_add_scale].
  apply preserves_for_each. intros n.
  apply preserves_bind; [apply preserves_uniform|]. intros r.
  apply (preserves_new_task
           {| name := n; func := RandomPitchShifting;
              kw := {| key_shift := Some (key_shift_of lo hi r);
                       replace_spk_id := None; speed := None |} |}).
Qed.

Lemma preserves_fixed_targets (names : list string) (scale : Q) (i : nat)
    (targets : list Q) :
  preserves (fixed_targets rnd spk_count names scale i targets).
Proof.
  revert i. induction targets as [|target targets IH]; intros i; simpl;
    [apply preserves_ret|].
  apply preserves_bind; [apply preserves_choices|]. intros picks.
  apply preserves_bind; [|intros _; apply IH].
  apply preserves_for_each. intros n.
  apply preserves_bind; [apply preserves_lift|]. intros ds.
  apply (preserves_new_task
           {| name := n; func := FixedPitchShifting;
              kw := {| key_shift := Some target;
                       replace_spk_id :=
                         Some (ds + (Z.of_nat i + 1) * Z.of_nat spk_count);
                       speed := None |} |}).
Qed.

Lemma preserves_fixed_pitch_stage (names : list string) :
  preserves (fixed_pitch_stage rnd hp spk_count args names).
Proof.
  unfold fixed_pitch_stage. destruct (fixed_pitch_shifting args) as [a|];
    [|apply preserves_ret].
  do 5 (apply preserves_bind; [apply preserves_lift|]; intros _).
  apply preserves_bind; [apply preserves_fixed_targets|]. intros _.
  apply preserves_add_scale.
Qed.

Lemma preserves_random_time_stretch_stage (names : list string) :
  preserves (random_time_stretch_stage rnd fpow hp args names).
Proof.
  unfold random_time_stretch_stage. destruct (random_time_stretching args) as [a|];
    [|apply preserves_ret].
  destruct (s_range a) as [lo hi].
  do 3 (apply preserves_bind; [apply preserves_lift|]; intros _).
  apply preserves_bind; [apply preserves_get_total_scale|]. intros total.
  do 3 (apply preserves_bind; [apply preserves_fdiv|]; intros ?).
  apply preserves_bind; [apply preserves_choices|]. intros raw.
  apply preserves_bind; [apply preserves_get_aug_list|]. intros pool.
  apply preserves_bind; [apply preserves_choices|]. intros refs.
  apply preserves_bind; [|intros _; apply preserves_add_scale].
  apply preserves_for_each. intros [ty item]. unfold stretch_step.
  apply preserves_bind; [apply preserves_draw_speed|]. intros sp.
  apply preserves_stretch_branch.
Qed.

Lemma grouped_init : grouped init.
Proof. split; [done|]. intros n. done. Qed.

(** Every schedule returned by [arrange_data_augmentation] keeps each task
    both in the global ordered list and in the list of its item name. *)
Lemma arrange_grouped (names : list string) (s : sched) :
  arrange_data_augmentation rnd fpow hp spk_count args names = Ok s → grouped s.
Proof.
  unfold arrange_data_augmentation.
  match goal with
  | |- match ?r with _ => _ end = _ → _ => destruct r as [[[] s']|e] eqn:Hrun
  end; [|done].
  intros [= <-]. revert Hrun. apply preserves_bind; [apply preserves_random_pitch_stage| |apply grouped_init].
  intros _. apply preserves_bind; [apply preserves_fixed_pitch_stage|].
  intros _. apply preserves_random_time_stretch_stage.
Qed.

(** *** Sampling *)

Lemma choice_in_range (u : Q) (n : nat) :
  (0 <= u)%Q → (u < 1)%Q → (0 < n)%nat →
  (Z.to_nat (Qfloor (u * inject_Z (Z.of_nat n))) < n)%nat.
Proof.
  intros Hlo Hhi Hn.
  assert (Hn' : (0 < inject_Z (Z.of_nat n))%Q).
  { change 0%Q with (inject_Z 0). rewrite <- Zlt_Qlt. lia. }
  assert (Hlt : (u * inject_Z (Z.of_nat n) < inject_Z (Z.of_nat n))%Q).
  { rewrite <- (Qmult_1_l (inject_Z (Z.of_nat n))) at 2.
    by apply Qmult_lt_compat_r. }
  pose proof (Qfloor_le (u * inject_Z (Z.of_nat n))) as Hfl.
  assert (Qfloor (u * inject_Z (Z.of_nat n)) < Z.of_nat n)%Z.
  { rewrite Zlt_Qlt. lra. }
  lia.
Qed.

(** [random.choices] on a non-empty population (or for no draw at all) makes
    [k] draws and returns [k] members of the population. *)
Lemma choices_run {A} (population : list A) (k : nat) (s : sched) :
  (∀ i, 0 <= rnd i ∧ rnd i < 1)%Q →
  k = 0%nat ∨ population ≠ [] →
  ∃ xs s', choices rnd population k s = Ok (xs, s')
    ∧ length xs = k ∧ Forall (λ x, x ∈ population) xs
    ∧ heap s' = heap s ∧ aug_map s' = aug_map s ∧ aug_list s' = aug_list s
    ∧ total_scale s' = total_scale s ∧ draws s' = (draws s + k)%nat.
Proof.
  intros Hrnd Hpop. revert s. induction k as [|k IH]; intros s.
  - exists [], s. simpl. rewrite Nat.add_0_r. by repeat split.
  - destruct Hpop as [|Hpop]; [done|].
    assert (Hlen : (0 < length population)%nat).
    { destruct population; [done|simpl; lia]. }
    destruct (Hrnd (draws s)) as [Hlo Hhi].
    pose proof (choice_in_range _ _ Hlo Hhi Hlen) as Hidx.
    destruct (lookup_lt_is_Some_2 _ _ Hidx) as [x Hx].
    set (s1 := {| heap := heap s; aug_map := aug_map s; aug_list := aug_list s;
                  total_scale := total_scale s; draws := S (draws s) |}).
    destruct (IH (or_intror Hpop) s1) as (xs & s' & Hrun & Hl & Hin & ? & ? & ? & ? & Hd).
    exists (x :: xs), s'. cbn [choices]. rewrite run_bind. cbn [random].
    rewrite run_bind. rewrite Hx. cbn [lift of_option]. rewrite run_bind.
    fold s1. rewrite Hrun. split; [done|]. split; [by rewrite <- Hl|].
    split; [constructor; [by eapply list_elem_of_lookup_2|done]|].
    repeat split; try done. rewrite Hd. simpl. lia.
Qed.


Lemma int_trunc_mult_zero (q : Q) : int_trunc (q * inject_Z 0) = 0.
Proof. destruct q as [n d]. unfold int_trunc. simpl. by rewrite Z.mul_0_r. Qed.

(** The number of draws is zero when there is no item to draw from. *)
Lemma sample_size_ok (scale : Q) (names : list string) :
  Z.to_nat (int_trunc (scale * inject_Z (Z.of_nat (length names)))) = 0%nat
  ∨ names ≠ [].
Proof.
  destruct names; [left|by right]. simpl. by rewrite int_trunc_mult_zero.
Qed.

End SchedulerStages.

Section RandomPitch.
Import Num Augment.
Variables (rnd : nat → Q) (fpow : Q → Q → Q).
Variables (hp : hparams) (spk_count : nat) (args : augmentation_args).
Variables (lo hi : Q).

Lemma Qlt_bool_iff (a b : Q) : Qlt_bool a b = true ↔ (a < b)%Q.
Proof.
  unfold Qlt_bool. rewrite negb_true_iff. split.
  - intros Hle. apply Qnot_le_lt. intros Hba%Qle_bool_iff. congruence.
  - intros Hlt. destruct (Qle_bool b a) eqn:Hle; [|done].
    apply Qle_bool_iff in Hle. lra.
Qed.

(** The piecewise map of lines 245-248 and its range. *)
Lemma key_shift_of_spec (r : Q) :
  (lo < 0)%Q → (0 < hi)%Q → (-1 <= r)%Q → (r <= 1)%Q →
  ((r < 0)%Q → key_shift_of lo hi r = (lo * Qabs r)%Q ∧ (key_shift_of lo hi r < 0)%Q)
  ∧ ((0 <= r)%Q → key_shift_of lo hi r = (hi * r)%Q ∧ (0 <= key_shift_of lo hi r)%Q)
  ∧ (lo <= key_shift_of lo hi r)%Q ∧ (key_shift_of lo hi r <= hi)%Q.
Proof.
  intros Hlo Hhi Hr1 Hr2. unfold key_shift_of.
  destruct (Qlt_bool r 0) eqn:Hneg.
  - apply Qlt_bool_iff in Hneg.
    assert (Habs : (Qabs r == - r)%Q) by (apply Qabs_neg; lra).
    assert (H1 : (lo * Qabs r == lo * - r)%Q) by (by rewrite Habs).
    split; [intros _; split; [done|rewrite H1; nra]|].
    split; [intros ?; lra|]. rewrite H1. split; nra.
  - assert (Hpos : (0 <= r)%Q).
    { destruct (Qlt_le_dec r 0) as [Hlt|]; [|done].
      apply Qlt_bool_iff in Hlt. congruence. }
    split; [intros ?; lra|]. split; [intros _; split; [done|nra]|]. split; nra.
Qed.



End RandomPitch.


Section FixedPitch.
Import Num Augment.
Context `{Backend}.
Variables (rnd : nat → Q) (fpow : Q → Q → Q).
Variables (hp : hparams) (spk_count : nat) (args : augmentation_args).

Lemma distinct_lookup (l : list Q) (i j : nat) (x : Q) :
  distinct l = true → l !! i = Some x → l !! j = Some x → i = j.
Proof.
  revert i j. induction l as [|y l IH]; intros i j Hd Hi Hj; [done|].
  simpl in Hd. apply andb_true_iff in Hd as [Hy Hd].
  rewrite forallb_forall in Hy.
  destruct i as [|i], j as [|j]; simpl in *; [done| | |f_equal; by eapply IH].
  - injection Hi as ->. apply list_elem_of_lookup_2, list_elem_of_In, Hy in Hj.
    by rewrite Qeq_bool_refl in Hj.
  - injection Hj as ->. apply list_elem_of_lookup_2, list_elem_of_In, Hy in Hi.
    by rewrite Qeq_bool_refl in Hi.
Qed.

(** The inner loop of lines 279-290. *)
Lemma fixed_inner (names picks : list string) (i : nat) (target : Q) (s : sched) :
  Forall (λ n, n ∈ names ∧ ∃ ds, dataset_id n = Ok ds) picks →
  ∃ s' new,
    for_each picks (λ n,
      ds ← lift (dataset_id n);
      r ← alloc {| name := n; func := FixedPitchShifting;
                   kw := {| key_shift := Some target;
                            replace_spk_id :=
                              Some (ds + (Z.of_nat i + 1) * Z.of_nat spk_count);
                            speed := None |} |};
      register n r) s = Ok (tt, s')
    ∧ heap s' = heap s ++ new
    ∧ length new = length picks
    ∧ Forall (fixed_task spk_count names i target) new
    ∧ total_scale s' = total_scale s ∧ draws s' = draws s.
Proof.
  intros Hpicks. revert s. induction Hpicks as [|n picks [Hn [ds Hds]] _ IH]; intros s.
  - exists s, []. simpl. by rewrite app_nil_r.
  - cbn [for_each]. rewrite run_bind, run_bind, Hds. cbn [lift].
    rewrite run_bind. cbn [alloc register].
    match goal with
    | |- context [for_each picks _ ?s1] =>
        destruct (IH s1) as (s' & new & Hrun & Hheap & Hlen & Hnew & Hts & Hdr)
    end.
    eexists s', (_ :: new). split; [exact Hrun|].
    split; [rewrite Hheap; cbn [heap]; by rewrite <- app_assoc|].
    split; [simpl; by rewrite Hlen|]. split; [|done].
    constructor; [|done]. exists ds. by repeat split.
Qed.

(** The loop over the targets, lines 277-290. *)
Lemma fixed_outer (names : list string) (scale : Q) (targets : list Q)
    (i : nat) (s : sched) :
  (∀ j, 0 <= rnd j ∧ rnd j < 1)%Q →
  Forall (λ n, ∃ ds, dataset_id n = Ok ds) names →
  ∃ s' new,
    fixed_targets rnd spk_count names scale i targets s = Ok (tt, s')
    ∧ heap s' = heap s ++ new
    ∧ length new
      = (length targets
         * Z.to_nat (int_trunc (scale * inject_Z (Z.of_nat (length names)))))%nat
    ∧ Forall (λ t, ∃ d target, targets !! d = Some target
                     ∧ fixed_task spk_count names (i + d) target t) new
    ∧ total_scale s' = total_scale s.
Proof.
  intros Hrnd Hnames. revert i s.
  induction targets as [|target targets IH]; intros i s.
  - exists s, []. simpl. by rewrite app_nil_r.
  - cbn [fixed_targets].
    destruct (choices_run rnd names _ s Hrnd (sample_size_ok scale names))
      as (picks & s1 & Hch & Hlen & Hin & Hh1 & _ & _ & Hts1 & _).
    rewrite run_bind, Hch.
    destruct (fixed_inner names picks i target s1)
      as (s2 & new1 & Hrun & Hheap & Hlen1 & Hnew1 & Hts2 & _).
    { rewrite Forall_forall in Hin, Hnames. apply Forall_forall.
      intros n Hn. split; [by apply Hin|]. by apply Hnames, Hin. }
    rewrite run_bind, Hrun.
    destruct (IH (S i) s2) as (s3 & new2 & Hrun3 & Hheap3 & Hlen3 & Hnew3 & Hts3).
    exists s3, (new1 ++ new2). split; [exact Hrun3|].
    split; [by rewrite Hheap3, Hheap, Hh1, app_assoc|].
    split; [rewrite length_app, Hlen1, Hlen3, Hlen; simpl; lia|].
    split; [|congruence].
    apply Forall_app. split.
    + eapply Forall_impl; [exact Hnew1|]. intros t Ht.
      exists 0%nat, target. by rewrite Nat.add_0_r.
    + eapply Forall_impl; [exact Hnew3|]. intros t (d & tg & Hd & Ht).
      exists (S d), tg. split; [done|]. by rewrite Nat.add_succ_r.
Qed.

(** The fixed pitch stage alone: the tasks of the target at index [i] carry
    the replacement speaker id [original_id + (i + 1) * speaker_count]. *)
Lemma fixed_pitch_ids :
  ∀ (names : list string) (targets : list Q) (scale : Q),
  random_pitch_shifting args = None →
  fixed_pitch_shifting args = Some {| f_targets := targets; f_scale := scale |} →
  distinct targets = true →
  use_spk_id hp = true →
  (1 + Z.of_nat (length targets)) * Z.of_nat spk_count <= num_spk hp →
  (scale < 1)%Q →
  (∀ j, 0 <= rnd j ∧ rnd j < 1)%Q →
  Forall (λ n, ∃ ds, dataset_id n = Ok ds ∧ 0 <= ds < Z.of_nat spk_count) names →
  ∃ s,
    (random_pitch_stage rnd hp args names;;
     fixed_pitch_stage rnd hp spk_count args names) init = Ok (tt, s)
    ∧ (random_time_stretching args = None →
    arrange_data_augmentation rnd fpow hp spk_count args names = Ok s)
    ∧ length (heap s)
      = (length targets
      * Z.to_nat (int_trunc (scale * inject_Z (Z.of_nat (length names)))))%nat
    ∧ grouped s
    ∧ ∀ t, t ∈ heap s →
     ∃ i target orig id,
       targets !! i = Some target
       ∧ (∀ i', targets !! i' = Some target → i' = i)
       ∧ name t ∈ names
       ∧ dataset_id (name t) = Ok orig
       ∧ key_shift (kw t) = Some target
       ∧ replace_spk_id (kw t) = Some id
       ∧ id = orig + (Z.of_nat i + 1) * Z.of_nat spk_count
       ∧ Z.of_nat spk_count <= id < num_spk hp.
Proof.
  intros names targets scale Hrand Hfix Hdist Hspk Hnum Hscale Hrnd Hnames.
  destruct (fixed_outer names scale targets 0 init Hrnd)
    as (s1 & new & Hrun & Hheap & Hlen & Hnew & _).
  { eapply Forall_impl; [exact Hnames|]. intros n (ds & Hds & _). eauto. }
  set (s := {| heap := heap s1; aug_map := aug_map s1; aug_list := aug_list s1;
               total_scale := (total_scale s1
                               + scale * inject_Z (Z.of_nat (length targets)))%Q;
               draws := draws s1 |}).
  assert (Hstage : (random_pitch_stage rnd hp args names;;
                    fixed_pitch_stage rnd hp spk_count args names) init = Ok (tt, s)).
  { rewrite run_bind. unfold random_pitch_stage. rewrite Hrand. cbn [mret sched_ret ret].
    unfold fixed_pitch_stage. rewrite Hfix, Hrand. cbn [f_targets f_scale].
    rewrite bool_decide_true by done. rewrite Hdist, Hspk.
    assert (Hn : ((1 + Z.of_nat (length targets)) * Z.of_nat spk_count <=? num_spk hp) = true)
      by (apply Z.leb_le; lia).
    rewrite Hn. assert (Hs : Qlt_bool scale 1 = true) by (by apply Qlt_bool_iff).
    rewrite Hs. cbn [assert]. repeat (rewrite run_bind; cbn [lift]).
    rewrite Hrun. reflexivity. }
  exists s. split; [exact Hstage|]. split.
  { intros Hstr. unfold arrange_data_augmentation.
    rewrite run_bind in Hstage. rewrite run_bind.
    destruct (random_pitch_stage rnd hp args names init) as [[[] s0]|e]; [|done].
    rewrite run_bind, Hstage. unfold random_time_stretch_stage. by rewrite Hstr. }
  split; [cbn [s heap]; by rewrite Hheap|]. split.
  { revert Hstage. apply preserves_bind; [apply preserves_random_pitch_stage| |apply grouped_init].
    intros _. apply preserves_fixed_pitch_stage. }
  intros t Ht. cbn [s heap] in Ht. rewrite Hheap in Ht. cbn [init heap app] in Ht.
  rewrite Forall_forall in Hnew.
  destruct (Hnew t Ht) as (i & target & Hi & orig & Hname & Horig & _ & Hkw).
  rewrite Forall_forall in Hnames.
  destruct (Hnames _ Hname) as (ds & Hds & Hds0 & Hds1).
  assert (orig = ds) as -> by congruence.
  exists i, target, ds, (ds + (Z.of_nat i + 1) * Z.of_nat spk_count).
  rewrite Hkw. cbn [key_shift replace_spk_id]. rewrite Nat.add_0_l.
  split; [done|]. split; [intros i' Hi'; by eapply distinct_lookup|].
  do 5 (split; [done|]).
  apply lookup_lt_Some in Hi. nia.
Qed.

(** With both pitch strategies the schedule is not made: the random stage
    raises, or the fixed stage fails its first assertion. *)
Lemma both_pitch_raises (names : list string) (a : pitch_args) (b : fixed_args) :
  random_pitch_shifting args = Some a →
  fixed_pitch_shifting args = Some b →
  ∃ e, arrange_data_augmentation rnd fpow hp spk_count args names = Raise e
       ∧ (e = AssertionError FixedWithRandom
          ∨ random_pitch_stage rnd hp args names init = Raise e).
Proof.
  intros Hrand Hfix. unfold arrange_data_augmentation. rewrite !run_bind.
  destruct (random_pitch_stage rnd hp args names init) as [[[] s0]|e];
    [|exists e; split; [done|by right]].
  rewrite run_bind. unfold fixed_pitch_stage at 1. rewrite Hfix, Hrand.
  rewrite bool_decide_false by done. cbn [assert lift]. rewrite run_bind.
  eexists. split; [done|by left].
Qed.

End FixedPitch.

Section TimeStretch.
Import Num Augment.
Variables (rnd : nat → Q) (fpow : Q → Q → Q).

(** Drawing a speed always succeeds and touches only the random source. *)
Lemma draw_speed_run (domain : string) (lo hi : Q) (s : sched) :
  ∃ sp s1, draw_speed rnd fpow domain lo hi s = Ok (sp, s1)
    ∧ heap s1 = heap s ∧ aug_map s1 = aug_map s ∧ aug_list s1 = aug_list s.
Proof.
  unfold draw_speed. case_bool_decide; eexists _, _; (split; [reflexivity|done]).
Qed.

(** C5, amended.  In the random time-stretch stage, a draw from the pool of
    already-scheduled tasks appends a new task that is a copy of the prior
    task as it was before the draw, hence without the newly drawn speed, and
    writes the drawn speed into the prior task itself, whose name, function,
    key shift and replacement speaker id stay as they were; a draw from the
    in-place
    pool writes the drawn speed into the prior task and appends nothing; a
    draw from the raw pool appends a new task with the drawn speed only and
    leaves every existing task as it was. *)
Theorem time_stretch_draws (domain : string) (lo hi : Q) (s : sched)
    (i : nat) (prior : aug_task) (n : string) :
  heap s !! i = Some prior →
  ∃ sp,
    (∃ s', stretch_step rnd fpow domain lo hi (1%nat, TaskRef i) s = Ok (tt, s')
       ∧ heap s' = <[i := set_speed sp prior]> (heap s) ++ [prior]
       ∧ heap s' !! length (heap s) = Some prior
       ∧ heap s' !! i = Some (set_speed sp prior)
       ∧ aug_list s' = aug_list s ++ [length (heap s)]
       ∧ default [] (aug_map s' !! name prior)
         = default [] (aug_map s !! name prior) ++ [length (heap s)])
    ∧ (∃ s', stretch_step rnd fpow domain lo hi (2%nat, TaskRef i) s = Ok (tt, s')
         ∧ heap s' = <[i := set_speed sp prior]> (heap s)
         ∧ aug_list s' = aug_list s
         ∧ aug_map s' = aug_map s)
    ∧ (∃ s', stretch_step rnd fpow domain lo hi (0%nat, RawItem n) s = Ok (tt, s')
         ∧ heap s' = heap s
                     ++ [{| name := n; func := RandomTimeStretching;
                            kw := {| key_shift := None; replace_spk_id := None;
                                     speed := Some sp |} |}]
         ∧ aug_list s' = aug_list s ++ [length (heap s)])
    ∧ name (set_speed sp prior) = name prior
    ∧ func (set_speed sp prior) = func prior
    ∧ key_shift (kw (set_speed sp prior)) = key_shift (kw prior)
    ∧ replace_spk_id (kw (set_speed sp prior)) = replace_spk_id (kw prior)
    ∧ speed (kw (set_speed sp prior)) = Some sp.
Proof.
  intros Hi. pose proof (lookup_lt_Some _ _ _ Hi) as Hlt.
  destruct (draw_speed_run domain lo hi s) as (sp & s1 & Hdraw & Hh & Hm & Hl).
  exists sp. unfold stretch_step. cbn [fst snd]. rewrite !run_bind, Hdraw.
  split; [|split; [|split; [|done]]].
  - cbn [stretch_branch]. rewrite run_bind. unfold deref at 1. rewrite Hh, Hi.
    rewrite run_bind. cbn [alloc]. rewrite run_bind. unfold mutate at 1. cbn [heap].
    rewrite Hh, lookup_app_l, Hi by done. cbn [register].
    eexists. split; [reflexivity|]. cbn [heap aug_list aug_map].
    rewrite insert_app_l by done. split; [done|].
    split; [rewrite list_lookup_middle; [done|by rewrite length_insert]|].
    split; [rewrite lookup_app_l by (by rewrite length_insert);
            by apply list_lookup_insert_eq|].
    split; [by rewrite Hl|]. rewrite Hm.
    destruct (aug_map s !! name prior); by rewrite lookup_insert_eq.
  - cbn [stretch_branch]. unfold mutate. rewrite Hh, Hi.
    eexists. split; [reflexivity|]. by cbn [heap aug_list aug_map].
  - cbn [stretch_branch]. rewrite run_bind. cbn [alloc register].
    eexists. split; [reflexivity|]. cbn [heap aug_list]. by rewrite Hh, Hl.
Qed.

End TimeStretch.

Lemma time_stretch_draws_witness :
  let prior := Augment.pitch_task (-5) 5 "0:a" (3 # 4) in
  let s0 := {| Augment.heap := [prior];
               Augment.aug_map := {["0:a" := [0%nat]]};
               Augment.aug_list := [0%nat];
               Augment.total_scale := 1 # 2;
               Augment.draws := 2 |} in
  Augment.heap s0 !! 0%nat = Some prior
  ∧ ∃ sp s',
      Augment.stretch_step Samples.coin (λ _ _, 1%Q) "linear" (1 # 2) 2
        (1%nat, Augment.TaskRef 0) s0 = Ok (tt, s')
      ∧ Augment.heap s' = <[0%nat := Augment.set_speed sp prior]> (Augment.heap s0) ++ [prior].
Proof.
  intros prior s0. split; [reflexivity|].
  destruct (time_stretch_draws Samples.coin (λ _ _, 1%Q) "linear" (1 # 2) 2
              s0 0 prior "0:a" eq_refl)
    as (sp & (s' & Hrun & Hheap & _) & _).
  exists sp, s'. split; [exact Hrun|exact Hheap].
Defined.

(** C5, as stated, fails.  Two items, random pitch shifting with scale 0.5
    (one task, for item 0:a) and random time stretching with scale 2 (two
    draws from the raw items, one from the scheduled tasks, none in place).
    The task appended for the draw from the scheduled tasks (reference 3)
    equals the pitch-shift task as it was before the stage and carries no
    speed; the speed went into the previously scheduled task (reference 0). *)
Lemma chained_task_counterexample :
  ∃ s0 s prior prior' new,
    Augment.random_pitch_stage Samples.coin Samples.flags Samples.pitch_then_stretch
      Samples.two_items Augment.init = Ok (tt, s0)
    ∧ Augment.heap s0 = [prior]
    ∧ Augment.arrange_data_augmentation Samples.coin (λ _ _, 1%Q) Samples.flags 3
        Samples.pitch_then_stretch Samples.two_items = Ok s
    ∧ Augment.aug_list s = [0; 1; 2; 3]%nat
    ∧ Augment.heap s !! 0%nat = Some prior'
    ∧ Augment.heap s !! 3%nat = Some new
    ∧ new = prior
    ∧ Augment.speed (Augment.kw new) = None
    ∧ Augment.speed (Augment.kw prior) = None
    ∧ Augment.speed (Augment.kw prior') = Some (6 # 4)%Q
    ∧ Augment.kw prior' ≠ Augment.kw prior.
Proof.
  do 5 eexists. split; [vm_compute; reflexivity|].
  split; [reflexivity|]. split; [vm_compute; reflexivity|].
  split; [reflexivity|]. split; [reflexivity|]. split; [reflexivity|].
  split; [reflexivity|]. split; [reflexivity|]. split; [reflexivity|].
  split; [reflexivity|]. discriminate.
Qed.

(** ** Driver *)

Section DriverFacts.
Import Driver.
Context {Meta R : Type}.
Variables (name_of : R → string) (length_of : R → Z) (seconds_of : R → Q).
Variable process_item : string → Meta → result (option R).
Variable run_task : Augment.aug_task → R → R.

Lemma run_tasks_fields (tasks : list Augment.aug_task) (x : R) (o : outcome R) :
  let o' := fold_left (λ o task, add_item length_of seconds_of false (run_task task x) o)
              tasks o in
  raised o' = raised o ∧ finalized o' = finalized o.
Proof.
  revert o. induction tasks as [|t tasks IH]; intros o; simpl; [done|].
  destruct (IH (add_item length_of seconds_of false (run_task t x) o)) as [-> ->].
  done.
Qed.

Lemma postprocess_fields (aug : Augment.sched) (item : option R) (o : outcome R) :
  let o' := postprocess name_of length_of seconds_of run_task aug item o in
  raised o' = raised o ∧ finalized o' = finalized o.
Proof.
  destruct item as [x|]; [|done]. unfold postprocess.
  destruct (run_tasks_fields (Augment.tasks_for aug (name_of x)) x
              (add_item length_of seconds_of true x o)) as [-> ->].
  done.
Qed.

(** An item without result leaves no trace in the split. *)
Lemma serial_skip (aug : Augment.sched) (l1 l2 : list (string * Meta))
    (n : string) (m : Meta) (o : outcome R) :
  process_item n m = Ok None →
  serial name_of length_of seconds_of process_item run_task aug (l1 ++ (n, m) :: l2) o
  = serial name_of length_of seconds_of process_item run_task aug (l1 ++ l2) o.
Proof.
  intros Hnone. revert o. induction l1 as [|[n' m'] l1 IH]; intros o; simpl.
  - by rewrite Hnone.
  - destruct (process_item n' m'); [apply IH|done].
Qed.

(** An exception ends the split where it is raised. *)
Lemma serial_raise (aug : Augment.sched) (l1 l2 : list (string * Meta))
    (n : string) (m : Meta) (e : exn) (o : outcome R) :
  process_item n m = Raise e → raised o = None →
  let o1 := serial name_of length_of seconds_of process_item run_task aug l1 o in
  let o' := serial name_of length_of seconds_of process_item run_task aug
              (l1 ++ (n, m) :: l2) o in
  store o' = store o1 ∧ lengths o' = lengths o1
  ∧ finalized o' = finalized o ∧ is_Some (raised o').
Proof.
  intros Hraise. revert o. induction l1 as [|[n' m'] l1 IH]; intros o Ho; simpl.
  - rewrite Hraise. simpl. by repeat split.
  - destruct (process_item n' m') as [item|e'].
    + destruct (postprocess_fields aug item o) as [Hr Hf].
      destruct (IH (postprocess name_of length_of seconds_of run_task aug item o))
        as (? & ? & ? & ?); [congruence|].
      repeat split; try done. congruence.
    + simpl. by repeat split.
Qed.

End DriverFacts.

(** ** Entirely unvoiced items *)

Section Unvoiced.
Context `{Backend}.

(** The variance binarizer returns no record for an entirely unvoiced item
    once lines 82-137 have gone through. *)
Lemma variance_unvoiced_none (timestep : Q) (n : string) (m : variance_meta)
    (x : variance_record) (estimate : list Q * list bool) :
  Variance.processed_input timestep n m = Ok x →
  get_pitch_parselmouth (v_wav_fn m) (vr_length x) true = Ok estimate →
  all_unvoiced estimate.2 = true →
  Variance.process_item timestep n m = Ok None.
Proof.
  intros Hx Hest Huv. unfold Variance.process_item. rewrite Hx. cbn [rbind].
  rewrite Hest. cbn [rbind]. by rewrite Huv.
Qed.

(** The acoustic binarizer raises for an entirely unvoiced item once lines
    187-202 have gone through. *)
Lemma acoustic_unvoiced_raises (hp : hparams) (n : string) (m : acoustic_meta)
    (x : acoustic_record) (estimate : list Q * list bool) :
  Acoustic.processed_input hp n m = Ok x →
  get_pitch_parselmouth (a_wav_fn m) (ar_length x) (interp_uv hp) = Ok estimate →
  all_unvoiced estimate.2 = true →
  Acoustic.process_item hp n m = Raise (BinarizationError (EmptyGtF0 n)).
Proof.
  intros Hx Hest Huv. unfold Acoustic.process_item. rewrite Hx. cbn [rbind].
  rewrite Hest. cbn [rbind]. by rewrite Huv.
Qed.

(** C8, amended.  In the variance binarizer an item whose measured pitch is
    entirely unvoiced yields no record when the steps before the pitch
    estimate raise nothing, and the split with that item is the split
    without it: nothing is stored or indexed for it and the other items are
    processed as before.  An exception of the steps before the estimate is
    raised whatever the pitch.  In the acoustic binarizer an entirely
    unvoiced item raises the empty-pitch error, which ends the split at
    that item: store and length index stay as they were after the items
    before it, and the store is not finalized. *)
Theorem unvoiced_item_handling :
  (∀ (timestep : Q) (n : string) (m : variance_meta) (x : variance_record)
     (estimate : list Q * list bool) (l1 l2 : list (string * variance_meta)),
     Variance.processed_input timestep n m = Ok x →
     get_pitch_parselmouth (v_wav_fn m) (vr_length x) true = Ok estimate →
     all_unvoiced estimate.2 = true →
     Variance.process_item timestep n m = Ok None
     ∧ Variance.process_data_split timestep (l1 ++ (n, m) :: l2)
       = Variance.process_data_split timestep (l1 ++ l2))
  ∧ (∀ (timestep : Q) (n : string) (m : variance_meta) (e : exn),
       Variance.processed_input timestep n m = Raise e →
       Variance.process_item timestep n m = Raise e)
  ∧ (∀ (hp : hparams) (rnd : nat → Q) (fpow : Q → Q → Q) (spk_count : nat)
       (args : augmentation_args) (n : string) (m : acoustic_meta)
       (x : acoustic_record) (estimate : list Q * list bool)
       (l1 l2 : list (string * acoustic_meta))
       (apply_augmentation : bool) (aug : Augment.sched),
       Acoustic.processed_input hp n m = Ok x →
       get_pitch_parselmouth (a_wav_fn m) (ar_length x) (interp_uv hp) = Ok estimate →
       all_unvoiced estimate.2 = true →
       (if apply_augmentation
        then Augment.arrange_data_augmentation rnd fpow hp spk_count args
               (l1 ++ (n, m) :: l2).*1 = Ok aug
        else aug = Augment.init) →
       let o := Acoustic.process_data_split hp rnd fpow spk_count args
                  (l1 ++ (n, m) :: l2) apply_augmentation in
       let before := Driver.serial ar_name ar_length ar_seconds
                       (Acoustic.process_item hp) stretch aug l1 Driver.start in
       Acoustic.process_item hp n m = Raise (BinarizationError (EmptyGtF0 n))
       ∧ Driver.store o = Driver.store before
       ∧ Driver.lengths o = Driver.lengths before
       ∧ Driver.finalized o = false
       ∧ is_Some (Driver.raised o)).
Proof.
  split; [|split].
  - intros timestep n m x estimate l1 l2 Hx Hest Huv.
    pose proof (variance_unvoiced_none timestep n m x estimate Hx Hest Huv) as Hnone.
    split; [done|].
    unfold Variance.process_data_split, Driver.process_data_split.
    by rewrite (serial_skip _ _ _ _ _ _ l1 l2 n m _ Hnone).
  - intros timestep n m e He. unfold Variance.process_item. by rewrite He.
  - intros hp rnd fpow spk_count args n m x estimate l1 l2 apply_augmentation aug
      Hx Hest Huv Hsched o before.
    pose proof (acoustic_unvoiced_raises hp n m x estimate Hx Hest Huv) as Hraise.
    split; [done|].
    destruct (serial_raise ar_name ar_length ar_seconds (Acoustic.process_item hp)
                stretch aug l1 l2 n m _ Driver.start Hraise eq_refl)
      as (Hs & Hl & Hf & [e He]).
    assert (Ho : o = Driver.finalize
                       (Driver.serial ar_name ar_length ar_seconds
                          (Acoustic.process_item hp) stretch aug
                          (l1 ++ (n, m) :: l2) Driver.start)).
    { unfold o, Acoustic.process_data_split, Driver.process_data_split.
      destruct apply_augmentation; [by rewrite Hsched|by subst aug]. }
    rewrite Ho. unfold Driver.finalize. rewrite He. fold before.
    rewrite Hs, Hl, Hf, He. by repeat split.
Qed.

End Unvoiced.

(** C8, as stated, fails for the acoustic binarizer: of three items whose
    second one is entirely unvoiced, the first is stored, then the split
    ends with the error of the second; the third is never processed and the
    store is not finalized.  In the variance binarizer an entirely unvoiced
    item none of whose frames carries a note -- the notes [rest C4] with the
    durations [3 0] -- is not skipped either: [interp1d] has no point to
    interpolate from and raises, which ends the split. *)
Lemma unvoiced_item_counterexample :
  let o := Acoustic.process_data_split (H := Samples.backend) Samples.flags
             Samples.coin (λ _ _, 1%Q) 3 Samples.no_augmentation
             [("0:a", Samples.voiced); ("0:s", Samples.silent);
              ("0:b", Samples.voiced)] false in
  let v := Variance.process_data_split (H := Samples.backend) (1 # 4)
             [("0:a", Samples.voiced_v); ("0:r", Samples.all_rest);
              ("0:b", Samples.voiced_v)] in
  (ar_name <$> Driver.store o = ["0:a"]
   ∧ Driver.lengths o = [2]
   ∧ Driver.finalized o = false
   ∧ Driver.raised o = Some (BinarizationError (EmptyGtF0 "0:s")))
  ∧ (Variance.process_item (H := Samples.backend) (1 # 4) "0:r" Samples.all_rest
     = Raise ValueError
     ∧ vr_name <$> Driver.store v = ["0:a"]
     ∧ Driver.finalized v = false
     ∧ Driver.raised v = Some ValueError).
Proof. vm_compute. by repeat split. Qed.

Lemma unvoiced_item_handling_witness :
  Variance.process_item (H := Samples.backend) (1 # 4) "0:s" Samples.silent_v = Ok None
  ∧ Variance.process_data_split (H := Samples.backend) (1 # 4)
      ([("0:a", Samples.voiced_v)] ++ ("0:s", Samples.silent_v) :: [("0:b", Samples.voiced_v)])
    = Variance.process_data_split (H := Samples.backend) (1 # 4)
        ([("0:a", Samples.voiced_v)] ++ [("0:b", Samples.voiced_v)])
  ∧ Acoustic.process_item (H := Samples.backend) Samples.flags "0:s" Samples.silent
    = Raise (BinarizationError (EmptyGtF0 "0:s")).
Proof.
  destruct (unvoiced_item_handling (H := Samples.backend)) as (Hv & _ & Ha).
  destruct (Variance.processed_input (H := Samples.backend) (1 # 4) "0:s" Samples.silent_v)
    as [x|e] eqn:Hx; [|vm_compute in Hx; discriminate].
  destruct (Acoustic.processed_input (H := Samples.backend) Samples.flags "0:s"
              Samples.silent) as [y|e] eqn:Hy; [|vm_compute in Hy; discriminate].
  destruct (Hv (1 # 4)%Q "0:s" Samples.silent_v x
              (replicate (Z.to_nat (vr_length x)) 0%Q,
               replicate (Z.to_nat (vr_length x)) true)
              [("0:a", Samples.voiced_v)] [("0:b", Samples.voiced_v)] Hx)
    as [H1 H2].
  { reflexivity. }
  { vm_compute in Hx. injection Hx as <-. reflexivity. }
  destruct (Ha Samples.flags Samples.coin (λ _ _, 1%Q) 3%nat Samples.no_augmentation
              "0:s" Samples.silent y
              (replicate (Z.to_nat (ar_length y)) 0%Q,
               replicate (Z.to_nat (ar_length y)) true)
              [] [] false Augment.init Hy)
    as [H3 _].
  { reflexivity. }
  { vm_compute in Hy. injection Hy as <-. reflexivity. }
  { reflexivity. }
  split; [exact H1|]. split; [exact H2|exact H3].
Defined.

(** ** Accuracy of the frame boundaries *)

Section Accuracy.
Import Num Tensor Aligner.
Local Open Scope Q_scope.


Lemma qsum_app (l1 l2 : list Q) : qsum (l1 ++ l2) == qsum l1 + qsum l2.
Proof.
  unfold qsum at 1. rewrite fold_left_app, fold_left_Qplus. reflexivity.
Qed.





End Accuracy.


(** ** A passing coverage check *)

Section CoveragePass.
Import Coverage.

(** The total of the counts of a phoneme map. *)
Lemma total_alter (m : gmap string nat) (k : string) :
  is_Some (m !! k) →
  map_fold (λ _ c acc, c + acc)%nat 0%nat (alter S k m)
  = S (map_fold (λ _ c acc, c + acc)%nat 0%nat m).
Proof.
  intros [c Hc].
  rewrite <- (insert_delete_id m k c Hc) at 2.
  assert (alter S k m = <[k := S c]> (delete k m)) as ->.
  { apply map_eq. intros j. destruct (decide (j = k)) as [->|Hne].
    - by rewrite lookup_alter_eq, Hc, lookup_insert_eq.
    - by rewrite lookup_alter_ne, lookup_insert_ne, lookup_delete_ne. }
  rewrite !map_fold_insert_L; [lia| |apply lookup_delete_eq| |apply lookup_delete_eq];
    intros; lia.
Qed.

Lemma total_zero (X : gset string) :
  map_fold (λ _ c acc, c + acc)%nat 0%nat (gset_to_gmap 0%nat X) = 0%nat.
Proof.
  assert (∀ m : gmap string nat, (∀ k c, m !! k = Some c → c = 0%nat) →
            map_fold (λ _ c acc, c + acc)%nat 0%nat m = 0%nat) as H.
  { intros m. apply (map_fold_weak_ind
      (λ b m, (∀ k c, m !! k = Some c → c = 0%nat) → b = 0%nat)); [done|].
    intros i x m' r Hi IH Hall.
    rewrite (Hall i x) by apply lookup_insert_eq. simpl. apply IH.
    intros k c Hk. apply (Hall k). rewrite lookup_insert_ne; [done|]. congruence. }
  apply H. intros k c Hk. apply lookup_gset_to_gmap_Some in Hk as [_ <-]. done.
Qed.

Lemma total_count (ph_required : gset string) (ph_occurred : list string)
    (phoneme_map : gmap string nat) :
  dom phoneme_map = ph_required →
  map_fold (λ _ c acc, c + acc)%nat 0%nat (count ph_required ph_occurred phoneme_map)
  = (map_fold (λ _ c acc, c + acc)%nat 0%nat phoneme_map
     + length (filter (λ ph, ph ∈ ph_required) ph_occurred))%nat.
Proof.
  revert phoneme_map. induction ph_occurred as [|ph l IH]; intros m Hdom.
  - simpl. lia.
  - unfold count. simpl fold_left. fold (count ph_required l).
    case_bool_decide as Hin.
    + rewrite filter_cons_True by done. fold (count ph_required l (alter S ph m)).
      rewrite IH.
      * rewrite total_alter; [simpl; lia|]. apply elem_of_dom. by rewrite Hdom.
      * apply set_eq. intros k. rewrite <- Hdom, !elem_of_dom.
        destruct (decide (k = ph)) as [->|Hne].
        -- rewrite lookup_alter_eq. by rewrite fmap_is_Some.
        -- by rewrite lookup_alter_ne.
    + rewrite filter_cons_False by done. fold (count ph_required l m). by apply IH.
Qed.

Lemma filter_all {A} (P : A → Prop) `{!∀ x, Decision (P x)} (l : list A) :
  Forall P l → filter P l = l.
Proof.
  induction 1 as [|x l Hx _ IH]; [done|]. rewrite filter_cons_True by done.
  by rewrite IH.
Qed.

(** What a passing check says about the corpus and the chart. *)
Lemma check_coverage_ok_inv (chart : Z → gmap string nat → string → result unit)
    (hp : hparams) (phoneme_list : list string)
    (items : list (string * acoustic_meta)) :
  let ph_occurred := concat (map (λ it, a_ph_seq it.2) items) in
  let required : gset string := list_to_set phoneme_list in
  (check_coverage chart hp phoneme_list items).2 = Ok tt →
  (∀ it, head items = Some it → a_ph_seq it.2 ≠ [])
  ∧ (list_to_set ph_occurred : gset string) = required
  ∧ ∃ width,
      figure_width required = Ok width
      ∧ chart width (count required ph_occurred (gset_to_gmap 0%nat required))
          (summary_file (binary_data_dir hp)) = Ok tt.
Proof.
  intros ph_occurred required Hok.
  assert (∀ it, head items = Some it → a_ph_seq it.2 ≠ []) as Hhead.
  { intros [n m] Hit Hempty. destruct items as [|it items]; [done|].
    injection Hit as ->. simpl in Hempty.
    by rewrite (empty_first_item_raises chart hp phoneme_list n m items Hempty) in Hok. }
  split; [done|].
  rewrite (check_coverage_scanned chart hp phoneme_list items Hhead) in Hok.
  cbv zeta in Hok. fold ph_occurred required in Hok.
  destruct (figure_width required) as [width|e]; [|done]. cbn [rbind] in Hok.
  destruct (chart width _ _) as [[]|e] eqn:Hchart; [|done]. cbn [snd] in Hok.
  split; [|by exists width].
  destruct (decide ((list_to_set ph_occurred : gset string) = required)) as [He|Hne];
    [done|].
  by rewrite bool_decide_eq_true_2 in Hok.
Qed.

End CoveragePass.

(** X4.  The coverage check passes exactly when the first item, if there is one,
    has at least one phoneme, the chart of the counts is drawn and saved
    without an exception, and the phonemes observed across the corpus are
    exactly those of the dictionary. *)
Theorem coverage_passes_iff (chart : Z → gmap string nat → string → result unit)
    (hp : hparams) (phoneme_list : list string)
    (items : list (string * acoustic_meta)) :
  let ph_occurred := concat (map (λ it, a_ph_seq it.2) items) in
  let required : gset string := list_to_set phoneme_list in
  (Coverage.check_coverage chart hp phoneme_list items).2 = Ok tt
  ↔ (∀ it, head items = Some it → a_ph_seq it.2 ≠ [])
    ∧ (list_to_set ph_occurred : gset string) = required
    ∧ ∃ width,
        Coverage.figure_width required = Ok width
        ∧ chart width
            (Coverage.count required ph_occurred (gset_to_gmap 0%nat required))
            (Coverage.summary_file (binary_data_dir hp)) = Ok tt.
Proof.
  intros ph_occurred required. split.
  - apply check_coverage_ok_inv.
  - intros (Hhead & Heq & width & Hwidth & Hchart).
    rewrite (check_coverage_scanned chart hp phoneme_list items Hhead).
    cbv zeta. fold ph_occurred required. rewrite Hwidth. cbn [rbind].
    rewrite Hchart. cbn [snd]. by rewrite bool_decide_eq_false_2 by auto.
Qed.

(** X5.  On a passing check the printed counts are exact: every dictionary
    phoneme is counted with its number of occurrences in the corpus, which is
    at least one, nothing else is counted, and the counts add up to the number
    of phoneme tokens of the corpus. *)
Theorem coverage_pass_counts (chart : Z → gmap string nat → string → result unit)
    (hp : hparams) (phoneme_list : list string)
    (items : list (string * acoustic_meta)) :
  let ph_occurred := concat (map (λ it, a_ph_seq it.2) items) in
  let ph_required : gset string := list_to_set phoneme_list in
  let phoneme_map :=
    Coverage.count ph_required ph_occurred (gset_to_gmap 0%nat ph_required) in
  (Coverage.check_coverage chart hp phoneme_list items).2 = Ok tt →
  (Coverage.check_coverage chart hp phoneme_list items).1
  = Coverage.summary ph_required phoneme_map
      (Coverage.summary_file (binary_data_dir hp))
  ∧ (∀ key, key ∈ phoneme_list →
       ∃ c, phoneme_map !! key = Some c
            ∧ c = length (filter (λ ph, ph = key) ph_occurred)
            ∧ (1 ≤ c)%nat)
  ∧ (∀ key, key ∉ phoneme_list → phoneme_map !! key = None)
  ∧ map_fold (λ _ c acc, c + acc)%nat 0%nat phoneme_map = length ph_occurred.
Proof.
  intros occ req pm Hok.
  destruct (check_coverage_ok_inv chart hp phoneme_list items Hok)
    as (Hhead & Heq & width & Hwidth & Hchart).
  fold occ req in Heq, Hwidth, Hchart. fold pm in Hchart.
  split; [|split; [|split]].
  - rewrite (check_coverage_scanned chart hp phoneme_list items Hhead).
    cbv zeta. fold occ req pm. rewrite Hwidth. cbn [rbind]. by rewrite Hchart.
  - intros key Hkey.
    assert (key ∈ req) as Hreq by (by apply elem_of_list_to_set).
    unfold pm. rewrite count_lookup.
    rewrite (proj2 (lookup_gset_to_gmap_Some 0%nat req key 0%nat)) by done.
    simpl. rewrite decide_True by done. eexists. split; [done|]. split; [done|].
    assert (key ∈ occ) as Hocc.
    { apply (elem_of_list_to_set (C := gset string)). by rewrite Heq. }
    assert (key ∈ filter (λ ph, ph = key) occ) as Hf.
    { by apply list_elem_of_filter. }
    destruct (filter (λ ph, ph = key) occ); [by apply not_elem_of_nil in Hf|].
    simpl. lia.
  - intros key Hkey. unfold pm. rewrite count_lookup.
    rewrite (proj2 (lookup_gset_to_gmap_None 0%nat req key)); [done|].
    unfold req. by rewrite elem_of_list_to_set.
  - unfold pm. rewrite total_count by apply dom_gset_to_gmap.
    rewrite total_zero. simpl. f_equal. apply filter_all.
    apply Forall_forall. intros ph Hph. rewrite <- Heq.
    by apply elem_of_list_to_set.
Qed.

Lemma coverage_pass_counts_witness :
  let items := [("0:x", {| a_wav_fn := "x.wav"; a_ph_seq := ["a"; "b"; "a"];
                           a_ph_dur := [1 # 10; 1 # 10; 1 # 10]%Q; a_spk_id := 0 |})] in
  (Coverage.check_coverage Samples.chart Samples.flags ["a"; "b"] items).2 = Ok tt
  ∧ map_fold (λ _ c acc, c + acc)%nat 0%nat
      (Coverage.count (list_to_set ["a"; "b"]) ["a"; "b"; "a"]
         (gset_to_gmap 0%nat (list_to_set ["a"; "b"]))) = 3%nat.
Proof.
  intros items.
  assert ((Coverage.check_coverage Samples.chart Samples.flags ["a"; "b"] items).2
          = Ok tt) as Hok.
  { vm_compute. reflexivity. }
  split; [exact Hok|].
  exact (proj2 (proj2 (proj2
    (coverage_pass_counts Samples.chart Samples.flags ["a"; "b"] items Hok)))).
Defined.

(** ** Properties of every scheduled task *)

Section Keeps.
Import Num Augment Schedule.
Variables (rnd : nat → Q) (fpow : Q → Q → Q).
Variable P : aug_task → Prop.

Lemma keeps_ret {A} (a : A) (R : A → Prop) : R a → keeps P (mret a) R.
Proof. intros Ha s a' s' Hs [= <- <-]. done. Qed.

Lemma keeps_bind {A B} (m : M A) (k : A → M B) (R1 : A → Prop) (R2 : B → Prop) :
  keeps P m R1 → (∀ a, R1 a → keeps P (k a) R2) → keeps P (m ≫= k) R2.
Proof.
  intros Hm Hk s b s' Hs. rewrite run_bind.
  destruct (m s) as [[a s1]|e] eqn:Hms; [|done].
  destruct (Hm s a s1 Hs Hms) as [Hs1 Ha]. by apply Hk.
Qed.

Lemma keeps_weaken {A} (m : M A) (R R' : A → Prop) :
  keeps P m R → (∀ a, R a → R' a) → keeps P m R'.
Proof.
  intros Hm HR s a s' Hs Hrun. destruct (Hm s a s' Hs Hrun). auto.
Qed.

(** A computation that leaves the store alone keeps everything. *)
Lemma keeps_heap {A} (m : M A) (R : A → Prop) :
  (∀ s a s', m s = Ok (a, s') → heap s' = heap s ∧ R a) → keeps P m R.
Proof.
  intros Hm s a s' Hs Hrun. destruct (Hm s a s' Hrun) as [-> Ha]. done.
Qed.

Lemma keeps_lift {A} (r : result A) : keeps P (lift r) (λ a, r = Ok a).
Proof.
  apply keeps_heap. intros s a s'. unfold lift. destruct r; [|done].
  by intros [= <- <-].
Qed.

Lemma keeps_random (U : Q → Prop) :
  (∀ i, U (rnd i)) → keeps P (random rnd) U.
Proof.
  intros HU. apply keeps_heap. intros s a s' [= <- <-]. done.
Qed.

Lemma keeps_uniform (U : Q → Prop) (a b : Q) :
  (∀ i, U (rnd i)) →
  keeps P (uniform rnd a b) (λ x, ∃ u, U u ∧ x = (a + (b - a) * u)%Q).
Proof.
  intros HU. unfold uniform.
  apply (keeps_bind _ _ U); [by apply keeps_random|].
  intros u Hu. apply keeps_ret. eauto.
Qed.

Lemma keeps_choices {A} (population : list A) (k : nat) :
  keeps P (choices rnd population k) (Forall (λ x, x ∈ population)).
Proof.
  induction k as [|k IH]; simpl.
  - by apply (keeps_ret []).
  - apply (keeps_bind _ _ (λ _, True)); [by apply keeps_random|].
    intros r _.
    eapply keeps_bind; [apply keeps_lift|].
    intros x Hx. simpl in Hx.
    apply (keeps_bind _ _ (Forall (λ x, x ∈ population))); [exact IH|].
    intros xs Hxs. apply keeps_ret. constructor; [|done].
    destruct (population !! _) eqn:Hl; [|done]. injection Hx as ->.
    by eapply list_elem_of_lookup_2.
Qed.

Lemma keeps_for_each {A} (l : list A) (body : A → M unit) :
  (∀ x, x ∈ l → keeps P (body x) (λ _, True)) →
  keeps P (for_each l body) (λ _, True).
Proof.
  induction l as [|x l IH]; intros Hb; simpl.
  - by apply keeps_ret.
  - apply (keeps_bind _ _ (λ _, True)).
    + apply Hb. by left.
    + intros ? _. apply IH. intros y Hy. apply Hb. by right.
Qed.

Lemma keeps_alloc (t : aug_task) : P t → keeps P (alloc t) (λ _, True).
Proof.
  intros Ht s a s' Hs [= <- <-]. simpl. split; [|done].
  apply Forall_app. split; [done|]. by constructor.
Qed.

Lemma keeps_deref (i : nat) : keeps P (deref i) P.
Proof.
  intros s a s' Hs. unfold deref. destruct (heap s !! i) as [t|] eqn:Hi; [|done].
  intros [= <- <-]. split; [done|]. by eapply Forall_lookup_1.
Qed.

Lemma keeps_mutate (i : nat) (f : aug_task → aug_task) :
  (∀ t, P t → P (f t)) → keeps P (mutate i f) (λ _, True).
Proof.
  intros Hf s a s' Hs. unfold mutate. destruct (heap s !! i) as [t|] eqn:Hi; [|done].
  intros [= <- <-]. simpl. split; [|done]. apply Forall_insert; [done|].
  apply Hf. by eapply Forall_lookup_1.
Qed.

Lemma keeps_register (n : string) (r : nat) : keeps P (register n r) (λ _, True).
Proof. apply keeps_heap. by intros s a s' [= <- <-]. Qed.

Lemma keeps_add_scale (x : Q) : keeps P (add_scale x) (λ _, True).
Proof. apply keeps_heap. by intros s a s' [= <- <-]. Qed.

Lemma keeps_get_total_scale : keeps P get_total_scale (λ _, True).
Proof. apply keeps_heap. by intros s a s' [= _ <-]. Qed.

Lemma keeps_get_aug_list : keeps P get_aug_list (λ _, True).
Proof. apply keeps_heap. by intros s a s' [= _ <-]. Qed.

Lemma keeps_fdiv (a b : Q) : keeps P (fdiv a b) (λ _, True).
Proof.
  apply keeps_heap. intros s x s'. unfold fdiv.
  destruct (Qeq_bool b 0); [done|]. by intros [= _ <-].
Qed.

Lemma keeps_assert (c : bool) (a : assertion) :
  keeps P (lift (assert c a)) (λ _, c = true).
Proof.
  eapply keeps_weaken; [apply keeps_lift|]. intros []. unfold assert.
  by destruct c.
Qed.

Lemma keeps_draw_speed (U : Q → Prop) (domain : string) (lo hi : Q) :
  (∀ i, U (rnd i)) →
  keeps P (draw_speed rnd fpow domain lo hi)
    (λ sp, ∃ u, U u ∧ sp = speed_of fpow domain lo hi u).
Proof.
  intros HU. unfold draw_speed, speed_of. case_bool_decide.
  - apply (keeps_bind _ _ U); [by apply keeps_random|].
    intros u Hu. apply keeps_ret. eauto.
  - eapply keeps_bind; [by apply (keeps_uniform U)|].
    intros x (u & Hu & ->). apply keeps_ret. eauto.
Qed.

End Keeps.

Section HeapInvariant.
Import Num Augment Schedule.
Variables (rnd : nat → Q) (fpow : Q → Q → Q).
Variables (hp : hparams) (spk_count : nat) (args : augmentation_args).
Variable names : list string.
Variables (P : aug_task → Prop) (U Sp : Q → Prop).

Hypothesis rnd_U : ∀ i, U (rnd i).
Hypothesis P_pitch : ∀ lo hi scale n u,
  random_pitch_shifting args = Some {| p_range := (lo, hi); p_scale := scale |} →
  (lo < 0)%Q → (0 < hi)%Q → n ∈ names → U u → P (pitch_task lo hi n u).
Hypothesis P_fixed : ∀ b n ds i target,
  fixed_pitch_shifting args = Some b →
  f_targets b !! i = Some target → n ∈ names → dataset_id n = Ok ds →
  P (target_task spk_count n ds i target).
Hypothesis Sp_draw : ∀ lo hi domain scale u,
  random_time_stretching args
  = Some {| s_range := (lo, hi); s_domain := domain; s_scale := scale |} →
  (0 < lo)%Q → (lo < 1)%Q → (1 < hi)%Q → domain = "log" ∨ domain = "linear" →
  U u → Sp (speed_of fpow domain lo hi u).
Hypothesis P_raw : ∀ n sp, n ∈ names → Sp sp → P (stretch_task n sp).
Hypothesis P_set : ∀ t sp, P t → Sp sp → P (set_speed sp t).

Lemma keeps_random_pitch_stage :
  keeps P (random_pitch_stage rnd hp args names) (λ _, True).
Proof.
  unfold random_pitch_stage.
  destruct (random_pitch_shifting args) as [[[lo hi] scale]|] eqn:Ha;
    [|by apply keeps_ret].
  simpl.
  eapply keeps_bind; [apply keeps_assert|]. intros ? _.
  eapply keeps_bind; [apply keeps_assert|]. intros ? Hr.
  apply andb_prop in Hr as [Hlo Hhi].
  apply Qlt_bool_iff in Hlo, Hhi.
  eapply keeps_bind; [apply keeps_choices|]. intros picks Hpicks.
  apply (keeps_bind _ _ _ (λ _, True)); [|intros; apply keeps_add_scale].
  apply keeps_for_each. intros n Hn.
  eapply keeps_bind; [by apply (keeps_uniform rnd P U)|].
  intros x (u & Hu & ->).
  eapply keeps_bind; [|intros; apply keeps_register].
  apply keeps_alloc. apply (P_pitch lo hi scale n u); try done.
  by eapply Forall_forall in Hpicks.
Qed.

Lemma keeps_fixed_targets (b : fixed_args) (scale : Q) (i : nat) (targets : list Q) :
  fixed_pitch_shifting args = Some b →
  (∀ d target, targets !! d = Some target → f_targets b !! (i + d)%nat = Some target) →
  keeps P (fixed_targets rnd spk_count names scale i targets) (λ _, True).
Proof.
  intros Hb. revert i. induction targets as [|target targets IH]; intros i Hi; simpl.
  - by apply keeps_ret.
  - eapply keeps_bind; [apply keeps_choices|]. intros picks Hpicks.
    apply (keeps_bind _ _ _ (λ _, True)).
    + apply keeps_for_each. intros n Hn.
      eapply keeps_bind; [apply keeps_lift|]. intros ds Hds.
      eapply keeps_bind; [|intros; apply keeps_register].
      apply keeps_alloc. apply (P_fixed b n ds i target); try done.
      * rewrite <- (Nat.add_0_r i). by apply Hi.
      * by eapply Forall_forall in Hpicks.
    + intros ? _. apply IH. intros d t Hd.
      replace (S i + d)%nat with (i + S d)%nat by lia. by apply Hi.
Qed.

Lemma keeps_fixed_pitch_stage :
  keeps P (fixed_pitch_stage rnd hp spk_count args names) (λ _, True).
Proof.
  unfold fixed_pitch_stage. pose proof keeps_fixed_targets as Hft.
  destruct (fixed_pitch_shifting args) as [b|] eqn:Hb; [|by apply keeps_ret].
  do 5 (eapply keeps_bind; [apply keeps_assert|]; intros ? _).
  apply (keeps_bind _ _ _ (λ _, True)); [|intros; apply keeps_add_scale].
  by apply (Hft b).
Qed.

Lemma keeps_stretch_branch (ty : nat) (item : aug_item) (sp : Q) :
  Sp sp →
  (∀ n, item = RawItem n → n ∈ names) →
  keeps P (stretch_branch ty item sp) (λ _, True).
Proof.
  intros Hsp Hitem.
  destruct ty as [|[|[|ty]]], item as [n|i]; simpl;
    try (by apply keeps_ret); try (by intros s a s' _ [=]).
  - eapply keeps_bind; [|intros; apply keeps_register].
    apply keeps_alloc. apply P_raw; [by apply Hitem|done].
  - eapply keeps_bind; [apply keeps_deref|]. intros prior Hprior.
    eapply keeps_bind; [by apply keeps_alloc|]. intros r _.
    eapply keeps_bind; [|intros; apply keeps_register].
    apply keeps_mutate. intros t Ht. by apply P_set.
  - apply keeps_mutate. intros t Ht. by apply P_set.
Qed.

Lemma keeps_random_time_stretch_stage :
  keeps P (random_time_stretch_stage rnd fpow hp args names) (λ _, True).
Proof.
  unfold random_time_stretch_stage.
  destruct (random_time_stretching args) as [[[lo hi] domain scale]|] eqn:Ha;
    [|by apply keeps_ret].
  simpl.
  eapply keeps_bind; [apply keeps_assert|]. intros ? _.
  eapply keeps_bind; [apply keeps_assert|]. intros ? Hr.
  apply andb_prop in Hr as [Hr Hhi]. apply andb_prop in Hr as [Hlo Hlo1].
  apply Qlt_bool_iff in Hlo, Hlo1, Hhi.
  eapply keeps_bind; [apply keeps_assert|]. intros ? Hd.
  assert (domain = "log" ∨ domain = "linear") as Hdom.
  { apply orb_prop in Hd as [Hd|Hd]; apply bool_decide_eq_true in Hd; auto. }
  eapply keeps_bind; [apply keeps_get_total_scale|]. intros total _.
  do 3 (eapply keeps_bind; [apply keeps_fdiv|]; intros ? _).
  eapply keeps_bind; [apply keeps_choices|]. intros raw Hraw.
  eapply keeps_bind; [apply keeps_get_aug_list|]. intros pool _.
  eapply keeps_bind; [apply keeps_choices|]. intros refs _.
  apply (keeps_bind _ _ _ (λ _, True)); [|intros; apply keeps_add_scale].
  apply keeps_for_each. intros [ty item] Hx. unfold stretch_step. simpl.
  eapply keeps_bind; [by apply (keeps_draw_speed rnd fpow P U)|].
  intros sp (u & Hu & ->).
  apply keeps_stretch_branch; [by eapply Sp_draw|].
  intros n ->. apply elem_of_zip_r in Hx.
  apply elem_of_app in Hx as [Hx|Hx].
  - apply list_elem_of_fmap in Hx as (n' & [= ->] & Hn').
    by eapply Forall_forall in Hraw.
  - by apply list_elem_of_fmap in Hx as (? & [=] & _).
Qed.

(** Every task of a schedule satisfies [P]. *)
Lemma arrange_keeps (s : sched) :
  arrange_data_augmentation rnd fpow hp spk_count args names = Ok s →
  Forall P (heap s).
Proof.
  unfold arrange_data_augmentation.
  match goal with |- match ?r with _ => _ end = _ → _ => destruct r as [[[] s']|e] eqn:Hrun end;
    [|done].
  intros [= ->].
  assert (keeps P (random_pitch_stage rnd hp args names;;
                   fixed_pitch_stage rnd hp spk_count args names;;
                   random_time_stretch_stage rnd fpow hp args names) (λ _, True)) as Hk.
  { eapply keeps_bind; [apply keeps_random_pitch_stage|]. intros ? _.
    eapply keeps_bind; [apply keeps_fixed_pitch_stage|]. intros ? _.
    apply keeps_random_time_stretch_stage. }
  by destruct (Hk init tt s (Forall_nil_2 _) Hrun).
Qed.

End HeapInvariant.

Section ScheduleContents.
Import Num Augment Schedule.
Variables (rnd : nat → Q) (fpow : Q → Q → Q).
Variables (hp : hparams) (spk_count : nat) (args : augmentation_args).

Lemma omap_ext_elem {A B} (f g : A → option B) (l : list A) :
  (∀ x, x ∈ l → f x = g x) → omap f l = omap g l.
Proof.
  induction l as [|x l IH]; intros H; [done|]. csimpl.
  rewrite (H x) by by left. rewrite IH; [done|]. intros y Hy. apply H. by right.
Qed.

Lemma refs_named_lt (names : list string) (n : string) (i : nat) :
  i ∈ refs_named names n → (i < length names)%nat.
Proof.
  unfold refs_named. intros Hi. apply list_elem_of_filter in Hi as [_ Hi].
  apply elem_of_seq in Hi. lia.
Qed.

(** The tasks listed for an item are the tasks of that name, in creation
    order. *)
Lemma tasks_for_grouped (s : sched) (n : string) :
  grouped s → tasks_for s n = filter (λ t, name t = n) (heap s).
Proof.
  intros [_ Hmap]. unfold tasks_for. rewrite Hmap. clear Hmap.
  induction (heap s) as [|t h IH] using rev_ind; [done|].
  rewrite fmap_app. simpl. rewrite refs_named_snoc, omap_app, filter_app.
  f_equal.
  - rewrite <- IH. apply omap_ext_elem. intros i Hi.
    apply refs_named_lt in Hi. rewrite length_fmap in Hi.
    by rewrite lookup_app_l.
  - rewrite length_fmap. destruct (decide (name t = n)) as [Hn|Hn].
    + rewrite filter_cons_True by done. csimpl.
      by rewrite list_lookup_middle.
    + by rewrite filter_cons_False.
Qed.

End ScheduleContents.

(** X6.  Every scheduled task names an item of the split, whichever strategies are
    configured and whatever the random source yields; an item of another
    split has no task. *)
Theorem scheduled_tasks_name_items (rnd : nat → Q) (fpow : Q → Q → Q)
    (hp : hparams) (spk_count : nat) (args : augmentation_args)
    (names : list string) (s : Augment.sched) :
  Augment.arrange_data_augmentation rnd fpow hp spk_count args names = Ok s →
  (∀ t, t ∈ Augment.heap s → Augment.name t ∈ names)
  ∧ (∀ n, n ∉ names → Augment.tasks_for s n = []).
Proof.
  intros Hs.
  assert (Forall (λ t, Augment.name t ∈ names) (Augment.heap s)) as Hall.
  { apply (arrange_keeps rnd fpow hp spk_count args names _ (λ _, True) (λ _, True)
             (λ _, I)); try done. }
  split; [intros t Ht; by eapply Forall_forall in Hall|].
  intros n Hn.
  rewrite (tasks_for_grouped s n)
    by (by eapply arrange_grouped).
  induction Hall as [|t h Ht _ IH]; [done|].
  rewrite filter_cons_False; [done|]. intros <-. done.
Qed.

Lemma scheduled_tasks_name_items_witness :
  ∃ s, Augment.arrange_data_augmentation Samples.coin (λ _ _, 1%Q) Samples.flags 3
         Samples.pitch_then_stretch Samples.two_items = Ok s
       ∧ (∀ t, t ∈ Augment.heap s → Augment.name t ∈ Samples.two_items).
Proof.
  eexists. split; [vm_compute; reflexivity|].
  apply (scheduled_tasks_name_items Samples.coin (λ _ _, 1%Q) Samples.flags 3
           Samples.pitch_then_stretch Samples.two_items).
  vm_compute. reflexivity.
Defined.

Section Speeds.
Import Num Augment Schedule.
Local Open Scope Q_scope.

Lemma Qle_bool_false (a b : Q) : Qle_bool a b = false → b < a.
Proof.
  intros H. apply Qnot_le_lt. intros Hle. apply Qle_bool_iff in Hle. congruence.
Qed.

(** A speed drawn in the linear domain lies between the bounds, on the side
    of 1 chosen by the sign of the draw. *)
Lemma speed_of_linear (fpow : Q → Q → Q) (domain : string) (lo hi u : Q) :
  domain ≠ "log" → 0 < lo → lo < 1 → 1 < hi → 0 <= u → u < 1 →
  lo <= speed_of fpow domain lo hi u ∧ speed_of fpow domain lo hi u < hi.
Proof.
  intros Hd Hlo Hlo1 Hhi Hu0 Hu1. unfold speed_of.
  rewrite bool_decide_eq_false_2 by done. cbv zeta.
  destruct (Qle_bool 0 (-1 + (1 - -1) * u)) eqn:Hs.
  - apply Qle_bool_iff in Hs. nra.
  - apply Qle_bool_false in Hs. nra.
Qed.

Lemma speed_of_log (fpow : Q → Q → Q) (lo hi u : Q) :
  (∀ b x, 1 <= b → 0 <= x → x < 1 → 1 <= fpow b x ∧ fpow b x <= b) →
  0 < lo → lo < 1 → 1 < hi → 0 <= u → u < 1 →
  lo <= speed_of fpow "log" lo hi u ∧ speed_of fpow "log" lo hi u <= hi.
Proof.
  intros Hpow Hlo Hlo1 Hhi Hu0 Hu1. unfold speed_of.
  rewrite bool_decide_eq_true_2 by done.
  assert (1 <= hi / lo) as Hb.
  { apply Qle_shift_div_l; [done|]. lra. }
  destruct (Hpow (hi / lo) u Hb Hu0 Hu1) as [H1 H2].
  split; [nra|].
  assert (lo * fpow (hi / lo) u <= lo * (hi / lo)) as H3 by nra.
  assert (lo * (hi / lo) == hi) as H4 by (field; lra).
  lra.
Qed.

End Speeds.

(** X7.  The speeds of a schedule.  Without random time stretching no task
    carries a speed.  With it, in the linear domain, or in the log domain
    when the power function maps a base [b >= 1] and an exponent in [0, 1)
    into [1, b], every speed carried by a task lies within the configured
    range. *)
Theorem scheduled_speeds_in_range (rnd : nat → Q) (fpow : Q → Q → Q)
    (hp : hparams) (spk_count : nat) (args : augmentation_args)
    (names : list string) (s : Augment.sched) :
  (∀ i, 0 <= rnd i ∧ rnd i < 1)%Q →
  Augment.arrange_data_augmentation rnd fpow hp spk_count args names = Ok s →
  match random_time_stretching args with
  | None => ∀ t, t ∈ Augment.heap s → Augment.speed (Augment.kw t) = None
  | Some a =>
      (s_domain a = "log" →
       ∀ b x, (1 <= b → 0 <= x → x < 1 → 1 <= fpow b x ∧ fpow b x <= b)%Q) →
      ∀ t sp, t ∈ Augment.heap s → Augment.speed (Augment.kw t) = Some sp →
              ((s_range a).1 <= sp ∧ sp <= (s_range a).2)%Q
  end.
Proof.
  intros Hrnd Hs.
  destruct (random_time_stretching args) as [[[lo hi] domain scale]|] eqn:Ha.
  - simpl. intros Hpow.
    assert (Forall (λ t, ∀ sp, Augment.speed (Augment.kw t) = Some sp →
                           (lo <= sp ∧ sp <= hi)%Q) (Augment.heap s)) as Hall.
    { apply (arrange_keeps rnd fpow hp spk_count args names _
               (λ u, 0 <= u ∧ u < 1)%Q (λ sp, lo <= sp ∧ sp <= hi)%Q Hrnd);
        try done.
      - intros lo' hi' domain' scale' u Ha' Hlo Hlo1 Hhi Hd [Hu0 Hu1].
        rewrite Ha in Ha'. injection Ha' as <- <- <- <-.
        destruct (decide (domain = "log")) as [->|Hne].
        + apply speed_of_log; auto.
        + destruct (speed_of_linear fpow domain lo hi u); try done. split; [done|].
          by apply Qlt_le_weak.
      - intros n sp _ Hsp sp' [= <-]. done.
      - intros t sp _ Hsp sp' [= <-]. done. }
    intros t sp Ht. rewrite Forall_forall in Hall. by apply Hall.
  - assert (Forall (λ t, Augment.speed (Augment.kw t) = None) (Augment.heap s))
      as Hall.
    { apply (arrange_keeps rnd fpow hp spk_count args names _
               (λ _, True) (λ _, False) (λ _, I)); try done.
      intros lo hi domain scale u Ha'. by rewrite Ha in Ha'. }
    intros t Ht. rewrite Forall_forall in Hall. by apply Hall.
Qed.

Lemma scheduled_speeds_in_range_witness :
  ∃ s, Augment.arrange_data_augmentation Samples.coin (λ _ _, 1%Q) Samples.flags 3
         Samples.pitch_then_stretch Samples.two_items = Ok s
       ∧ ∀ t sp, t ∈ Augment.heap s → Augment.speed (Augment.kw t) = Some sp →
                 ((1 # 2) <= sp ∧ sp <= 2)%Q.
Proof.
  eexists. split; [vm_compute; reflexivity|].
  apply (scheduled_speeds_in_range Samples.coin (λ _ _, 1%Q) Samples.flags 3
           Samples.pitch_then_stretch Samples.two_items).
  - intros i. unfold Samples.coin. destruct (Nat.even i); split; reflexivity || discriminate.
  - vm_compute. reflexivity.
  - discriminate.
Defined.

Lemma coin_unit_interval (i : nat) : (0 <= Samples.coin i ∧ Samples.coin i < 1)%Q.
Proof. unfold Samples.coin. destruct (Nat.even i); split; reflexivity || discriminate. Qed.

(** X8.  The three kinds of task in a schedule.  Whatever the later stages do to
    it, a random pitch-shift task keeps a shift within the configured range
    and has no replacement speaker id; a fixed pitch-shift task keeps one of
    the targets as its shift and the replacement speaker id computed from
    its item's dataset id and the index of that target; a time-stretch task
    has a speed and neither of the other two parameters. *)
Theorem scheduled_task_kinds (rnd : nat → Q) (fpow : Q → Q → Q)
    (hp : hparams) (spk_count : nat) (args : augmentation_args)
    (names : list string) (s : Augment.sched) :
  (∀ i, 0 <= rnd i ∧ rnd i < 1)%Q →
  Augment.arrange_data_augmentation rnd fpow hp spk_count args names = Ok s →
  ∀ t, t ∈ Augment.heap s →
    match Augment.func t with
    | Augment.RandomPitchShifting =>
        ∃ a ks, random_pitch_shifting args = Some a
          ∧ Augment.key_shift (Augment.kw t) = Some ks
          ∧ ((p_range a).1 <= ks ∧ ks <= (p_range a).2)%Q
          ∧ Augment.replace_spk_id (Augment.kw t) = None
    | Augment.FixedPitchShifting =>
        ∃ b i target ds, fixed_pitch_shifting args = Some b
          ∧ f_targets b !! i = Some target
          ∧ Augment.dataset_id (Augment.name t) = Ok ds
          ∧ Augment.key_shift (Augment.kw t) = Some target
          ∧ Augment.replace_spk_id (Augment.kw t)
            = Some (ds + (Z.of_nat i + 1) * Z.of_nat spk_count)
    | Augment.RandomTimeStretching =>
        is_Some (random_time_stretching args)
        ∧ Augment.key_shift (Augment.kw t) = None
        ∧ Augment.replace_spk_id (Augment.kw t) = None
        ∧ is_Some (Augment.speed (Augment.kw t))
    end.
Proof.
  intros Hrnd Hs.
  apply Forall_forall.
  apply (arrange_keeps rnd fpow hp spk_count args names _
           (λ u, 0 <= u ∧ u < 1)%Q (λ _, is_Some (random_time_stretching args)) Hrnd);
    try done.
  - intros lo hi scale n u Ha Hlo Hhi _ [Hu0 Hu1]. simpl.
    eexists _, _. split; [done|]. split; [done|]. simpl. split; [|done].
    apply (key_shift_of_spec lo hi); [done|done|lra|lra].
  - intros b n ds i target Hb Hi _ Hds. simpl. by eexists b, i, target, ds.
  - intros t sp Ht Hsp. destruct t as [n [] [ks rid spd]]; simpl in *.
    + done.
    + done.
    + destruct Ht as (? & ? & ? & ?). by repeat split.
Qed.

Lemma scheduled_task_kinds_witness :
  ∃ s, Augment.arrange_data_augmentation Samples.coin (λ _ _, 1%Q) Samples.flags 3
         Samples.pitch_then_stretch Samples.two_items = Ok s
       ∧ ∀ t, t ∈ Augment.heap s →
           Augment.func t = Augment.RandomPitchShifting →
           ∃ ks, Augment.key_shift (Augment.kw t) = Some ks ∧ (-5 <= ks ∧ ks <= 5)%Q.
Proof.
  eexists. split; [vm_compute; reflexivity|]. intros t Ht Hf.
  eapply (scheduled_task_kinds Samples.coin (λ _ _, 1%Q) Samples.flags 3
            Samples.pitch_then_stretch Samples.two_items) in Ht;
    [|exact coin_unit_interval|vm_compute; reflexivity].
  rewrite Hf in Ht. destruct Ht as (a & ks & Ha & Hks & Hr & _).
  injection Ha as <-. exists ks. split; [exact Hks|exact Hr].
Defined.

(** ** The time-stretch stage as a whole *)

Section StretchStage.
Import Num Augment Schedule.
Variables (rnd : nat → Q) (fpow : Q → Q → Q).
Variables (hp : hparams) (args : augmentation_args) (names : list string).
Variables (lo hi : Q) (domain : string) (scale : Q).





Hypothesis config : random_time_stretching args
  = Some {| s_range := (lo, hi); s_domain := domain; s_scale := scale |}.
Hypothesis speed_embed : use_speed_embed hp = true.
Hypothesis range : (0 < lo)%Q ∧ (lo < 1)%Q ∧ (1 < hi)%Q.
Hypothesis known_domain : domain = "log" ∨ domain = "linear".
Hypothesis rnd_unit : ∀ i, (0 <= rnd i ∧ rnd i < 1)%Q.



End StretchStage.





(** ** Layout of the store *)

Section StoreLayout.
Import Num Driver.
Context {Meta R : Type}.
Variables (name_of : R → string) (length_of : R → Z) (seconds_of : R → Q).
Variable process_item : string → Meta → result (option R).
Variable run_task : Augment.aug_task → R → R.

(** Appending records to an outcome. *)
Lemma add_items_layout (raw : bool) (xs : list R) (o : outcome R) :
  let o' := fold_left (λ o x, add_item length_of seconds_of raw x o) xs o in
  store o' = store o ++ xs
  ∧ lengths o' = lengths o ++ (length_of <$> xs)
  ∧ (total_sec o' == total_sec o + qsum (seconds_of <$> xs))%Q
  ∧ (total_raw_sec o'
     == total_raw_sec o + if raw then qsum (seconds_of <$> xs) else 0)%Q
  ∧ finalized o' = finalized o ∧ raised o' = raised o.
Proof.
  revert o. induction xs as [|x xs IH]; intros o; simpl.
  - rewrite !app_nil_r. split_and!; try done; destruct raw; rewrite ?qsum_nil; lra.
  - destruct (IH (add_item length_of seconds_of raw x o))
      as (-> & -> & Hs & Hr & -> & ->).
    simpl. rewrite <- !app_assoc. simpl.
    split_and!; try done; rewrite ?Hs, ?Hr; simpl; destruct raw;
      rewrite ?qsum_cons; unfold fmap; lra.
Qed.

(** The records written for one processed item: the item itself, then its
    augmented variants in the order of [aug_map]. *)
Lemma postprocess_layout (aug : Augment.sched) (x : R) (o : outcome R) :
  let o' := postprocess name_of length_of seconds_of run_task aug (Some x) o in
  let variants := (λ task, run_task task x) <$> Augment.tasks_for aug (name_of x) in
  store o' = store o ++ x :: variants
  ∧ lengths o' = lengths o ++ (length_of <$> x :: variants)
  ∧ (total_sec o' == total_sec o + qsum (seconds_of <$> x :: variants))%Q
  ∧ (total_raw_sec o' == total_raw_sec o + seconds_of x)%Q
  ∧ finalized o' = finalized o ∧ raised o' = raised o.
Proof.
  intros o' variants. unfold o', postprocess.
  assert (∀ (tasks : list Augment.aug_task) o0,
            fold_left (λ o task, add_item length_of seconds_of false (run_task task x) o)
              tasks o0
            = fold_left (λ o y, add_item length_of seconds_of false y o)
                ((λ task, run_task task x) <$> tasks) o0) as ->.
  { induction tasks as [|t tasks IH]; intros o0; simpl; [done|]. by rewrite IH. }
  fold variants.
  destruct (add_items_layout false variants (add_item length_of seconds_of true x o))
    as (-> & -> & Hs & Hr & -> & ->).
  simpl. rewrite <- !app_assoc. simpl.
  split_and!; try done; rewrite ?Hs, ?Hr; simpl; rewrite ?qsum_cons; unfold fmap; lra.
Qed.

(** The serial loop over items that are all processed without an exception. *)
Lemma serial_layout (aug : Augment.sched) (args : list (string * Meta))
    (xs : list (option R)) (o : outcome R) :
  Forall2 (λ a x, process_item a.1 a.2 = Ok x) args xs →
  let o' := serial name_of length_of seconds_of process_item run_task aug args o in
  let recs := omap id xs ≫= λ x,
                x :: ((λ task, run_task task x) <$> Augment.tasks_for aug (name_of x)) in
  store o' = store o ++ recs
  ∧ lengths o' = lengths o ++ (length_of <$> recs)
  ∧ (total_sec o' == total_sec o + qsum (seconds_of <$> recs))%Q
  ∧ (total_raw_sec o' == total_raw_sec o + qsum (seconds_of <$> omap id xs))%Q
  ∧ finalized o' = finalized o ∧ raised o' = raised o.
Proof.
  intros Hall. revert o. induction Hall as [|[n m] x args xs Hx _ IH]; intros o.
  - simpl. rewrite !app_nil_r. split_and!; try done; rewrite ?qsum_nil; lra.
  - simpl in Hx. cbn [serial]. rewrite Hx. destruct x as [x|].
    + destruct (IH (postprocess name_of length_of seconds_of run_task aug (Some x) o))
        as (-> & -> & Hs & Hr & -> & ->).
      destruct (postprocess_layout aug x o) as (-> & -> & Hs' & Hr' & -> & ->).
      csimpl. rewrite !fmap_app, <- !app_assoc. simpl.
      split_and!; try done; rewrite ?Hs, ?Hr, ?Hs', ?Hr';
        repeat (rewrite fmap_cons || rewrite qsum_cons || rewrite qsum_app);
        unfold fmap; lra.
    + destruct (IH (postprocess name_of length_of seconds_of run_task aug None o))
        as (-> & -> & Hs & Hr & -> & ->).
      csimpl. done.
Qed.

End StoreLayout.

(** X11.  A split whose items are all processed without an exception: every
    processed item is stored, directly followed by its augmented variants in
    the order of [aug_map]; the length index has one entry per stored record,
    in the same order; the totals are the sums of the durations of the stored
    records and of the processed items; the store is finalized. *)
Theorem split_store_layout {Meta R : Type}
    (name_of : R → string) (length_of : R → Z) (seconds_of : R → Q)
    (process_item : string → Meta → result (option R))
    (run_task : Augment.aug_task → R → R)
    (args : list (string * Meta)) (xs : list (option R))
    (apply_augmentation : bool) (schedule : result Augment.sched)
    (aug : Augment.sched) :
  (if apply_augmentation then schedule = Ok aug else aug = Augment.init) →
  Forall2 (λ a x, process_item a.1 a.2 = Ok x) args xs →
  let o := Driver.process_data_split name_of length_of seconds_of process_item
             run_task args apply_augmentation schedule in
  Driver.store o
  = (omap id xs ≫= λ x,
       x :: ((λ task, run_task task x) <$> Augment.tasks_for aug (name_of x)))
  ∧ Driver.lengths o = length_of <$> Driver.store o
  ∧ (Driver.total_sec o == Num.qsum (seconds_of <$> Driver.store o))%Q
  ∧ (Driver.total_raw_sec o == Num.qsum (seconds_of <$> omap id xs))%Q
  ∧ Driver.finalized o = true
  ∧ Driver.raised o = None.
Proof.
  intros Haug Hall o.
  assert (o = Driver.finalize
                (Driver.serial name_of length_of seconds_of process_item run_task
                   aug args Driver.start)) as ->.
  { unfold o, Driver.process_data_split.
    destruct apply_augmentation; by rewrite Haug. }
  destruct (serial_layout name_of length_of seconds_of process_item run_task
              aug args xs Driver.start Hall) as (Hs & Hl & Ht & Hr & Hf & He).
  unfold Driver.finalize. rewrite He. simpl. rewrite Hs, Hl. simpl.
  split_and!; try done.
  - rewrite Ht. simpl. lra.
  - rewrite Hr. simpl. lra.
Qed.

Lemma split_store_layout_witness :
  let o := Acoustic.process_data_split (H := Samples.backend) Samples.flags
             Samples.coin (λ _ _, 1%Q) 3 Samples.pitch_then_stretch
             [("0:a", Samples.voiced); ("0:b", Samples.voiced)] true in
  Driver.lengths o = ar_length <$> Driver.store o
  ∧ Driver.finalized o = true
  ∧ length (Driver.store o) = 6%nat.
Proof.
  intros o. unfold o, Acoustic.process_data_split.
  destruct (Augment.arrange_data_augmentation Samples.coin (λ _ _, 1%Q) Samples.flags 3
              Samples.pitch_then_stretch [("0:a", Samples.voiced); ("0:b", Samples.voiced)].*1)
    as [aug|e] eqn:Haug; [|vm_compute in Haug; discriminate].
  destruct (Acoustic.process_item (H := Samples.backend) Samples.flags "0:a" Samples.voiced)
    as [x1|e] eqn:H1; [|vm_compute in H1; discriminate].
  destruct (Acoustic.process_item (H := Samples.backend) Samples.flags "0:b" Samples.voiced)
    as [x2|e] eqn:H2; [|vm_compute in H2; discriminate].
  destruct (split_store_layout ar_name ar_length ar_seconds
              (Acoustic.process_item (H := Samples.backend) Samples.flags)
              (stretch (Backend := Samples.backend))
              [("0:a", Samples.voiced); ("0:b", Samples.voiced)] [x1; x2] true
              (Ok aug) aug eq_refl)
    as (_ & Hl & _ & _ & Hf & _).
  { apply Forall2_cons. split; [exact H1|]. apply Forall2_cons. split; [exact H2|].
    apply Forall2_nil_2. }
  split; [exact Hl|]. split; [exact Hf|].
  vm_compute in Haug. injection Haug as <-. vm_compute. reflexivity.
Defined.

(** ** The two splits *)

Lemma tasks_for_init (n : string) : Augment.tasks_for Augment.init n = [].
Proof. unfold Augment.tasks_for. simpl. by rewrite lookup_empty. Qed.

(** Without a schedule the records of a split are those of its items. *)
Lemma no_variants {R : Type} (name_of : R → string)
    (run_task : Augment.aug_task → R → R) (l : list R) :
  (l ≫= λ x, x :: ((λ task, run_task task x)
                    <$> Augment.tasks_for Augment.init (name_of x))) = l.
Proof.
  induction l as [|x l IH]; [done|]. csimpl. by rewrite tasks_for_init, IH.
Qed.

(** C4, as stated, fails: [process] binarizes the valid split before the
    train split is scheduled.  With both pitch strategies configured the
    item of the valid split is processed and stored and its store is
    finalized; only then the schedule of the train split fails its
    assertion. *)
Lemma both_pitch_counterexample :
  let r := Acoustic.process (H := Samples.backend) Samples.flags Samples.coin
             (λ _ _, 1%Q) 3 Samples.both_pitch
             [("0:v", Samples.voiced)]
             [("0:a", Samples.voiced); ("1:b", Samples.voiced); ("2:c", Samples.voiced)] in
  ar_name <$> Driver.store r.1 = ["0:v"]
  ∧ Driver.lengths r.1 = [2]
  ∧ Driver.finalized r.1 = true
  ∧ Driver.raised r.1 = None
  ∧ r.2 = Some {| Driver.store := []; Driver.lengths := []; Driver.total_sec := 0;
                  Driver.total_raw_sec := 0; Driver.finalized := false;
                  Driver.raised := Some (AssertionError FixedWithRandom) |}.
Proof. vm_compute. by repeat split. Qed.

Section TwoSplits.
Import Num Augment.

(** C4, amended.  With fixed pitch shifting alone, every task of the target
    at index [i] carries the replacement speaker id
    [original_id + (i + 1) * speaker_count]; with dataset ids below the
    speaker count that id lies outside the pre-existing ids
    [0 .. speaker_count - 1] and inside the configured [num_spk].  When fixed
    and random pitch shifting are both configured the scheduler raises, and
    the train split ends before any of its items is processed or written;
    the valid split has been processed before, without augmentation: when
    all its items are processed without an exception, their records are
    stored and the store is finalized. *)
Theorem fixed_pitch_replacement_ids `{Backend} (rnd : nat → Q) (fpow : Q → Q → Q)
    (hp : hparams) (spk_count : nat) (args : augmentation_args) :
  (∀ (names : list string) (targets : list Q) (scale : Q),
     random_pitch_shifting args = None →
     fixed_pitch_shifting args = Some {| f_targets := targets; f_scale := scale |} →
     distinct targets = true →
     use_spk_id hp = true →
     (1 + Z.of_nat (length targets)) * Z.of_nat spk_count <= num_spk hp →
     (scale < 1)%Q →
     (∀ j, 0 <= rnd j ∧ rnd j < 1)%Q →
     Forall (λ n, ∃ ds, dataset_id n = Ok ds ∧ 0 <= ds < Z.of_nat spk_count) names →
     ∃ s,
       (random_pitch_stage rnd hp args names;;
        fixed_pitch_stage rnd hp spk_count args names) init = Ok (tt, s)
       ∧ (random_time_stretching args = None →
          arrange_data_augmentation rnd fpow hp spk_count args names = Ok s)
       ∧ length (heap s)
         = (length targets
            * Z.to_nat (int_trunc (scale * inject_Z (Z.of_nat (length names)))))%nat
       ∧ grouped s
       ∧ ∀ t, t ∈ heap s →
           ∃ i target orig id,
             targets !! i = Some target
             ∧ (∀ i', targets !! i' = Some target → i' = i)
             ∧ name t ∈ names
             ∧ dataset_id (name t) = Ok orig
             ∧ key_shift (kw t) = Some target
             ∧ replace_spk_id (kw t) = Some id
             ∧ id = orig + (Z.of_nat i + 1) * Z.of_nat spk_count
             ∧ Z.of_nat spk_count <= id < num_spk hp)
  ∧ (∀ (valid_items train_items : list (string * acoustic_meta))
       (a : pitch_args) (b : fixed_args),
       random_pitch_shifting args = Some a →
       fixed_pitch_shifting args = Some b →
       ∃ e,
         Augment.arrange_data_augmentation rnd fpow hp spk_count args train_items.*1
         = Raise e
         ∧ (e = AssertionError FixedWithRandom
            ∨ Augment.random_pitch_stage rnd hp args train_items.*1 Augment.init
              = Raise e)
         ∧ let rejected :=
             {| Driver.store := []; Driver.lengths := []; Driver.total_sec := 0;
                Driver.total_raw_sec := 0; Driver.finalized := false;
                Driver.raised := Some e |} in
           let valid :=
             Driver.finalize
               (Driver.serial ar_name ar_length ar_seconds (Acoustic.process_item hp)
                  stretch Augment.init valid_items Driver.start) in
           Acoustic.process_data_split hp rnd fpow spk_count args train_items true
           = rejected
           ∧ Acoustic.process hp rnd fpow spk_count args valid_items train_items
             = (valid,
                match Driver.raised valid with
                | Some _ => None
                | None => Some rejected
                end)
           ∧ ∀ xs, Forall2 (λ it x, Acoustic.process_item hp it.1 it.2 = Ok x)
                     valid_items xs →
                   Driver.store valid = omap id xs
                   ∧ Driver.lengths valid = ar_length <$> omap id xs
                   ∧ Driver.finalized valid = true
                   ∧ Acoustic.process hp rnd fpow spk_count args valid_items
                       train_items
                     = (valid, Some rejected)).
Proof.
  split; [apply fixed_pitch_ids|].
  intros valid_items train_items a b Hrand Hfix.
  destruct (both_pitch_raises rnd fpow hp spk_count args train_items.*1 a b Hrand Hfix)
    as (e & He & Hwhich).
  exists e. split; [done|]. split; [done|]. intros rejected valid.
  assert (Acoustic.process_data_split hp rnd fpow spk_count args train_items true
          = rejected) as Htrain.
  { unfold Acoustic.process_data_split, Driver.process_data_split. by rewrite He. }
  assert (Acoustic.augmented args = true) as Haug.
  { unfold Acoustic.augmented. rewrite Hrand.
    by rewrite (bool_decide_true (is_Some (Some a))) by eauto. }
  assert (Acoustic.process hp rnd fpow spk_count args valid_items train_items
          = (valid, match Driver.raised valid with
                    | Some _ => None
                    | None => Some rejected
                    end)) as Hprocess.
  { unfold Acoustic.process. rewrite Haug, Htrain.
    unfold Acoustic.process_data_split at 1 2, Driver.process_data_split.
    fold valid. by destruct (Driver.raised valid). }
  split; [done|]. split; [done|].
  intros xs Hall.
  destruct (serial_layout ar_name ar_length ar_seconds (Acoustic.process_item hp)
              stretch Augment.init valid_items xs Driver.start Hall)
    as (Hs & Hl & _ & _ & Hf & Hr).
  rewrite no_variants in Hs, Hl. simpl in Hs, Hl, Hf, Hr.
  assert (Driver.raised valid = None) as Hnone.
  { unfold valid, Driver.finalize. by rewrite Hr. }
  rewrite Hprocess, Hnone. unfold valid, Driver.finalize. rewrite Hr. simpl.
  by rewrite Hs, Hl.
Qed.

End TwoSplits.

Lemma fixed_pitch_replacement_ids_witness :
  (∃ s, Augment.arrange_data_augmentation Samples.coin (λ _ _, 1%Q) Samples.flags 3
          Samples.fixed_only Samples.three_items = Ok s
        ∧ length (Augment.heap s) = 2%nat
        ∧ Augment.replace_spk_id ∘ Augment.kw <$> Augment.heap s = [Some (0 + 3); Some (2 + 6)])
  ∧ (∃ e, Augment.arrange_data_augmentation Samples.coin (λ _ _, 1%Q) Samples.flags 3
            Samples.both_pitch Samples.three_items = Raise e).
Proof.
  split.
  - destruct (fixed_pitch_replacement_ids (H := Samples.backend) Samples.coin
                (λ _ _, 1%Q) Samples.flags 3 Samples.fixed_only) as [Hids _].
    destruct (Hids Samples.three_items [3; -3]%Q (1 # 2)%Q)
      as (s & _ & Harr & Hlen & _).
    + reflexivity.
    + reflexivity.
    + reflexivity.
    + reflexivity.
    + simpl. lia.
    + reflexivity.
    + intros i. unfold Samples.coin. destruct (Nat.even i); split; done.
    + repeat (constructor; [eexists; split; [vm_compute; reflexivity|lia]|]).
      constructor.
    + exists s. specialize (Harr eq_refl). split; [exact Harr|]. split; [exact Hlen|].
      vm_compute in Harr. injection Harr as <-. reflexivity.
  - destruct (fixed_pitch_replacement_ids (H := Samples.backend) Samples.coin
                (λ _ _, 1%Q) Samples.flags 3 Samples.both_pitch) as [_ Hrej].
    destruct (Hrej [] (map (λ n, (n, Samples.voiced)) Samples.three_items)
                {| p_range := (-5, 5)%Q; p_scale := 1 # 2 |}
                {| f_targets := [3; -3]%Q; f_scale := 1 # 2 |} eq_refl eq_refl)
      as (e & He & _).
    exists e. exact He.
Defined.

(** ** The tasks executed over a split *)

Section Executed.
Import Augment.

Lemma bind_ext_elem {A B} (f g : A → list B) (l : list A) :
  (∀ x, x ∈ l → f x = g x) → l ≫= f = l ≫= g.
Proof.
  induction l as [|x l IH]; intros H; [done|]. csimpl.
  rewrite (H x) by by left. rewrite IH; [done|]. intros y Hy. apply H. by right.
Qed.

Lemma length_expand {A B} (l : list A) (f : A → list A) (k : A → list B) :
  (∀ x, length (f x) = length (k x)) →
  length (l ≫= λ x, x :: f x) = (length l + length (l ≫= k))%nat.
Proof.
  intros Hfk. induction l as [|x l IH]; [done|]. csimpl.
  rewrite !length_app, IH, Hfk. lia.
Qed.

Lemma bind_fmap_list {A B C} (h : A → B) (k : B → list C) (l : list A) :
  (h <$> l) ≫= k = l ≫= λ x, k (h x).
Proof. induction l as [|x l IH]; [done|]. csimpl. by rewrite IH. Qed.

(** Grouping by name loses and repeats nothing. *)
Lemma groups_permutation (names : list string) (h : list aug_task) :
  NoDup names → Forall (λ t, name t ∈ names) h →
  (names ≫= λ n, filter (λ t, name t = n) h) ≡ₚ h.
Proof.
  intros Hnd. revert h. induction Hnd as [|n ns Hn Hnd IH]; intros h Hall.
  - destruct h as [|t h]; [done|].
    apply Forall_cons in Hall as [Ht _]. by apply not_elem_of_nil in Ht.
  - csimpl.
    rewrite (bind_ext_elem _ (λ n', filter (λ t, name t = n')
                                      (filter (λ t, name t ≠ n) h))).
    + rewrite IH.
      * apply filter_app_complement.
      * apply Forall_forall. intros t Ht. apply list_elem_of_filter in Ht as [Hne Ht].
        eapply Forall_forall in Hall; [|done].
        apply elem_of_cons in Hall as [?|?]; done.
    + intros n' Hn'. rewrite list_filter_filter. apply filter_ext_elem.
      intros t _. split; [|by intros []]. intros <-. split; [done|].
      intros <-. done.
Qed.

End Executed.

(** X12.  Scheduler and driver together, for the acoustic binarizer.  When the item
    names of the split are pairwise different and every item is processed,
    the tasks executed over the split (for each item, in order, the tasks
    listed under its name) are a rearrangement of the scheduled tasks: none
    is dropped, none is executed twice.  The store then holds one record per
    item and one per scheduled task. *)
Theorem every_task_executed_once `{Backend} (hp : hparams)
    (rnd : nat → Q) (fpow : Q → Q → Q) (spk_count : nat)
    (args : augmentation_args) (items : list (string * acoustic_meta))
    (s : Augment.sched) :
  NoDup items.*1 →
  Augment.arrange_data_augmentation rnd fpow hp spk_count args items.*1 = Ok s →
  Forall (λ it, ∃ r, Acoustic.process_item hp it.1 it.2 = Ok (Some r)) items →
  let o := Acoustic.process_data_split hp rnd fpow spk_count args items true in
  (∃ recs, ar_name <$> recs = items.*1
     ∧ Driver.store o
       = (recs ≫= λ x, x :: ((λ task, stretch task x)
                              <$> Augment.tasks_for s (ar_name x))))
  ∧ (items.*1 ≫= Augment.tasks_for s) ≡ₚ Augment.heap s
  ∧ length (Driver.store o) = (length items + length (Augment.heap s))%nat
  ∧ length (Driver.lengths o) = length (Driver.store o)
  ∧ Driver.finalized o = true
  ∧ Driver.raised o = None.
Proof.
  intros Hnd Hs Hall o.
  assert (∃ recs, Forall2 (λ a x, Acoustic.process_item hp a.1 a.2 = Ok x)
                    items (Some <$> recs)
                  ∧ ar_name <$> recs = items.*1) as (recs & Hrecs & Hnames).
  { clear Hnd Hs o. induction Hall as [|[n m] items [r Hr] _ (recs & IH1 & IH2)].
    - by exists [].
    - exists (r :: recs). split; [by constructor|]. csimpl. f_equal; [|done].
      simpl in Hr.
      by destruct (acoustic_item_Some hp n m r Hr) as (_ & _ & _ & _ & _ & _ & _ & _ & _ & Hn & _). }
  assert (omap id (Some <$> recs) = recs) as Hraw.
  { clear. induction recs as [|r recs IH]; [done|]. csimpl. by rewrite IH. }
  assert ((items.*1 ≫= Augment.tasks_for s) ≡ₚ Augment.heap s) as Hperm.
  { rewrite (bind_ext_elem _ (λ n, filter (λ t, Augment.name t = n) (Augment.heap s))).
    - apply groups_permutation; [done|].
      apply (arrange_keeps rnd fpow hp spk_count args items.*1 _ (λ _, True)
               (λ _, True) (λ _, I)); try done.
    - intros n _. apply tasks_for_grouped. by eapply arrange_grouped. }
  unfold o, Acoustic.process_data_split, Driver.process_data_split. rewrite Hs.
  destruct (serial_layout ar_name ar_length ar_seconds (Acoustic.process_item hp)
              stretch s items (Some <$> recs) Driver.start Hrecs)
    as (Hst & Hl & _ & _ & Hf & He).
  unfold Driver.finalize. rewrite He. simpl. rewrite Hst, Hl, Hraw. simpl.
  split_and!; try done.
  - by exists recs.
  - rewrite (length_expand _ _ (λ x, Augment.tasks_for s (ar_name x)))
      by (intros; by rewrite length_fmap).
    rewrite <- (bind_fmap_list ar_name (Augment.tasks_for s)), Hnames.
    rewrite (Permutation_length Hperm).
    by rewrite <- (length_fmap fst items), <- Hnames, length_fmap.
  - by rewrite length_fmap.
Qed.

Lemma every_task_executed_once_witness :
  let items := [("0:a", Samples.voiced); ("0:b", Samples.voiced)] in
  let o := Acoustic.process_data_split (H := Samples.backend) Samples.flags
             Samples.coin (λ _ _, 1%Q) 3 Samples.pitch_then_stretch items true in
  length (Driver.store o) = 6%nat ∧ Driver.finalized o = true.
Proof.
  intros items o.
  destruct (Augment.arrange_data_augmentation Samples.coin (λ _ _, 1%Q) Samples.flags 3
              Samples.pitch_then_stretch items.*1)
    as [s|e] eqn:Hs; [|vm_compute in Hs; discriminate].
  destruct (every_task_executed_once (H := Samples.backend) Samples.flags
              Samples.coin (λ _ _, 1%Q) 3 Samples.pitch_then_stretch items s)
    as (_ & _ & Hlen & _ & Hf & _).
  - apply NoDup_cons. split; [|apply NoDup_singleton].
    intros Hin. apply list_elem_of_singleton in Hin. discriminate.
  - exact Hs.
  - apply Forall_cons. split; [eexists; vm_compute; reflexivity|].
    apply Forall_cons. split; [eexists; vm_compute; reflexivity|]. apply Forall_nil_2.
  - split; [|exact Hf]. unfold o. rewrite Hlen.
    vm_compute in Hs. injection Hs as <-. reflexivity.
Defined.

(** ** The duration report *)

Section ReportFacts.
Import Num.
Local Open Scope Q_scope.

Lemma qsum_zero_iff (l : list Q) :
  Forall (λ d, 0 <= d) l → (qsum l == 0 ↔ Forall (λ d, d == 0) l).
Proof.
  induction 1 as [|d l Hd Hl IH].
  - split; [done|]. intros _. apply qsum_nil.
  - rewrite qsum_cons. pose proof (qsum_nonneg l Hl). split.
    + intros Hz. constructor; [lra|]. apply IH. lra.
    + intros Hz. apply Forall_cons in Hz as [Hd0 Hl0]. apply IH in Hl0. lra.
Qed.

(** The variants add to the duration of the processed items. *)
Lemma qsum_expand_ge {R} (seconds_of : R → Q) (f : R → list R) (raw : list R) :
  Forall (λ x, 0 <= seconds_of x) (raw ≫= λ x, x :: f x) →
  qsum (seconds_of <$> raw) <= qsum (seconds_of <$> (raw ≫= λ x, x :: f x)).
Proof.
  induction raw as [|x raw IH]; csimpl; intros Hall.
  - lra.
  - apply Forall_cons in Hall as [Hx Hall]. apply Forall_app in Hall as [Hf Hall].
    rewrite fmap_app, !qsum_cons, qsum_app.
    assert (0 <= qsum (seconds_of <$> f x)).
    { apply qsum_nonneg. by apply Forall_fmap. }
    specialize (IH Hall). unfold fmap in *. lra.
Qed.

End ReportFacts.

(** X13.  The report that ends an augmented split whose items are all processed,
    when no stored record has a negative duration.  The store is finalized
    before the report.  If no processed item has a positive duration, in
    particular on a split without items, the first line is printed and the
    second one raises [ZeroDivisionError].  Otherwise both lines are printed
    and the reported factor is at least one. *)
Theorem augmented_duration_report {Meta R : Type}
    (name_of : R → string) (length_of : R → Z) (seconds_of : R → Q)
    (process_item : string → Meta → result (option R))
    (run_task : Augment.aug_task → R → R)
    (prefix : string) (args : list (string * Meta)) (xs : list (option R))
    (aug : Augment.sched) :
  Forall2 (λ a x, process_item a.1 a.2 = Ok x) args xs →
  let o := Driver.process_data_split name_of length_of seconds_of process_item
             run_task args true (Ok aug) in
  Forall (λ x, (0 <= seconds_of x)%Q) (Driver.store o) →
  Driver.finalized o = true
  ∧ (Forall (λ x, (seconds_of x == 0)%Q) (omap id xs) →
     Report.duration_report prefix true o
     = ([Report.BeforeAugmentation prefix (Driver.total_raw_sec o)],
        Raise ZeroDivisionError))
  ∧ (¬ Forall (λ x, (seconds_of x == 0)%Q) (omap id xs) →
     Report.duration_report prefix true o
     = ([Report.BeforeAugmentation prefix (Driver.total_raw_sec o);
         Report.AfterAugmentation prefix (Driver.total_sec o)
           (Driver.total_sec o / Driver.total_raw_sec o)%Q],
        Ok tt)
     ∧ (1 <= Driver.total_sec o / Driver.total_raw_sec o)%Q).
Proof.
  intros Hall o.
  assert (o = Driver.finalize
                (Driver.serial name_of length_of seconds_of process_item run_task
                   aug args Driver.start)) as Ho by done.
  destruct (serial_layout name_of length_of seconds_of process_item run_task
              aug args xs Driver.start Hall) as (Hs & _ & Ht & Hr & _ & He).
  assert (Driver.store o
          = (omap id xs ≫= λ x,
               x :: ((λ task, run_task task x) <$> Augment.tasks_for aug (name_of x))))
    as Hstore.
  { rewrite Ho. unfold Driver.finalize. rewrite He. simpl. by rewrite Hs. }
  assert (Driver.total_sec o == Num.qsum (seconds_of <$> Driver.store o))%Q as Htot.
  { rewrite Hstore, Ho. unfold Driver.finalize. rewrite He. simpl. rewrite Ht.
    simpl. lra. }
  assert (Driver.total_raw_sec o == Num.qsum (seconds_of <$> omap id xs))%Q as Hraw.
  { rewrite Ho. unfold Driver.finalize. rewrite He. simpl. rewrite Hr. simpl. lra. }
  assert (Driver.finalized o = true) as Hfin.
  { rewrite Ho. unfold Driver.finalize. by rewrite He. }
  clearbody o. intros Hpos.
  assert (Forall (λ d, 0 <= d)%Q (seconds_of <$> omap id xs)) as Hrawpos.
  { apply Forall_fmap, Forall_forall. intros x Hx.
    rewrite Forall_forall in Hpos. apply Hpos. rewrite Hstore.
    apply list_elem_of_bind. exists x. split; [by left|done]. }
  split; [done|]. unfold Report.duration_report. split.
  - intros Hz.
    assert (Driver.total_raw_sec o == 0)%Q as H0.
    { rewrite Hraw. apply qsum_zero_iff; [done|]. by apply Forall_fmap. }
    apply Qeq_bool_iff in H0. by rewrite H0.
  - intros Hnz.
    assert (¬ Driver.total_raw_sec o == 0)%Q as H0.
    { rewrite Hraw. intros Hz. apply Hnz.
      apply qsum_zero_iff in Hz; [|done]. by apply Forall_fmap in Hz. }
    destruct (Qeq_bool (Driver.total_raw_sec o) 0) eqn:Hb.
    { by apply Qeq_bool_iff in Hb. }
    split; [done|].
    assert (0 <= Driver.total_raw_sec o)%Q.
    { rewrite Hraw. by apply qsum_nonneg. }
    apply Qle_shift_div_l; [lra|]. rewrite Htot, Hraw, Hstore.
    rewrite Qmult_1_l. apply qsum_expand_ge. by rewrite <- Hstore.
Qed.

Lemma augmented_duration_report_witness :
  let o := Acoustic.process_data_split (H := Samples.backend) Samples.flags
             Samples.coin (λ _ _, 1%Q) 3 Samples.pitch_then_stretch [] true in
  Driver.finalized o = true
  ∧ Report.duration_report "train" true o
    = ([Report.BeforeAugmentation "train" 0], Raise ZeroDivisionError).
Proof.
  intros o.
  destruct (augmented_duration_report ar_name ar_length ar_seconds
              (Acoustic.process_item (H := Samples.backend) Samples.flags)
              (stretch (Backend := Samples.backend)) "train" [] [] Augment.init)
    as (Hf & Hz & _); [constructor|constructor|].
  split; [exact Hf|]. apply Hz. constructor.
Defined.

(** ** Dictionaries *)

Section DictFacts.
Context {V : Type}.
Implicit Types (d other : list (string * V)) (k : string) (v : V).

Lemma setitem_elem k v d (x : string * V) :
  x ∈ Dict.setitem k v d → x = (k, v) ∨ x ∈ d.
Proof.
  induction d as [|[k' v'] d IH]; simpl.
  - intros Hx. apply list_elem_of_singleton in Hx. by left.
  - destruct (decide (k' = k)) as [->|Hne]; intros Hx.
    + apply elem_of_cons in Hx as [->|Hx]; [by left|]. right. by right.
    + apply elem_of_cons in Hx as [->|Hx]; [right; by left|].
      destruct (IH Hx) as [->|?]; [by left|]. right. by right.
Qed.

Lemma setitem_keys k v d :
  (Dict.setitem k v d).*1 = d.*1 ++ (if decide (k ∈ d.*1) then [] else [k]).
Proof.
  induction d as [|[k' v'] d IH]; [done|]. cbn [Dict.setitem].
  destruct (decide (k' = k)) as [->|Hne]; rewrite !fmap_cons; cbn [fst].
  - rewrite decide_True by by left. by rewrite app_nil_r.
  - rewrite IH. simpl. f_equal. destruct (decide (k ∈ d.*1)) as [Hin|Hin].
    + rewrite decide_True; [done|]. by right.
    + rewrite decide_False; [done|]. intros Hk.
      apply elem_of_cons in Hk as [->|Hk]; done.
Qed.

Lemma setitem_NoDup k v d : NoDup d.*1 → NoDup (Dict.setitem k v d).*1.
Proof.
  intros Hnd. rewrite setitem_keys. destruct (decide (k ∈ d.*1)) as [Hin|Hin].
  - by rewrite app_nil_r.
  - apply NoDup_app. split; [done|]. split; [|apply NoDup_singleton].
    intros x Hx Hk. apply list_elem_of_singleton in Hk as ->. done.
Qed.

Lemma get_setitem_eq k v d : Dict.get k (Dict.setitem k v d) = Some v.
Proof.
  induction d as [|[k' v'] d IH]; simpl.
  - by rewrite decide_True.
  - destruct (decide (k' = k)) as [->|Hne]; simpl.
    + by rewrite decide_True.
    + by rewrite decide_False.
Qed.

Lemma get_setitem_ne k k' v d :
  k' ≠ k → Dict.get k' (Dict.setitem k v d) = Dict.get k' d.
Proof.
  intros Hk. induction d as [|[k0 v0] d IH]; simpl.
  - by rewrite decide_False.
  - destruct (decide (k0 = k)) as [->|Hne]; simpl.
    + by rewrite !decide_False.
    + destruct (decide (k0 = k')); [done|]. exact IH.
Qed.

Lemma get_Some_elem k v d : Dict.get k d = Some v → (k, v) ∈ d.
Proof.
  induction d as [|[k' v'] d IH]; simpl; [done|].
  destruct (decide (k' = k)) as [->|Hne].
  - intros [= ->]. by left.
  - intros H. right. by apply IH.
Qed.

Lemma get_None_keys k d : Dict.get k d = None ↔ k ∉ d.*1.
Proof.
  induction d as [|[k' v'] d IH]; cbn [Dict.get].
  - split; [intros _; apply not_elem_of_nil|done].
  - rewrite fmap_cons. cbn [fst]. destruct (decide (k' = k)) as [->|Hne].
    + split; [done|]. intros H. destruct H. by left.
    + rewrite IH, not_elem_of_cons. split; [by intros ?|by intros [_ ?]].
Qed.

Lemma update_elem d other (x : string * V) :
  x ∈ Dict.update d other → x ∈ d ∨ x ∈ other.
Proof.
  unfold Dict.update. revert d. induction other as [|[k v] other IH]; intros d; simpl.
  - by left.
  - intros Hx. destruct (IH _ Hx) as [Hx'|Hx']; [|right; by right].
    apply setitem_elem in Hx' as [->|?]; [right; by left|by left].
Qed.

Lemma update_NoDup d other : NoDup d.*1 → NoDup (Dict.update d other).*1.
Proof.
  unfold Dict.update. revert d. induction other as [|[k v] other IH]; intros d Hd;
    simpl; [done|].
  apply IH. by apply setitem_NoDup.
Qed.

Lemma update_keys d other k : k ∈ d.*1 → k ∈ (Dict.update d other).*1.
Proof.
  unfold Dict.update. revert d. induction other as [|[k' v] other IH]; intros d Hd;
    simpl; [done|].
  apply IH. rewrite setitem_keys. apply elem_of_app. by left.
Qed.

Lemma setitem_length k v d : (length (Dict.setitem k v d) ≤ S (length d))%nat.
Proof.
  induction d as [|[k' v'] d IH]; simpl; [lia|].
  destruct (decide (k' = k)); simpl; lia.
Qed.

Lemma update_length d other :
  (length (Dict.update d other) ≤ length d + length other)%nat.
Proof.
  unfold Dict.update. revert d. induction other as [|[k v] other IH]; intros d; simpl.
  - lia.
  - etrans; [apply IH|]. pose proof (setitem_length k v d). lia.
Qed.

(** After an update the entries of [other] take precedence. *)
Lemma get_update d other k :
  NoDup other.*1 →
  Dict.get k (Dict.update d other)
  = match Dict.get k other with
    | Some v => Some v
    | None => Dict.get k d
    end.
Proof.
  unfold Dict.update. revert d. induction other as [|[k' v] other IH]; intros d Hnd;
    [done|].
  rewrite fmap_cons in Hnd. apply NoDup_cons in Hnd as [Hk' Hnd].
  cbn [fold_left Dict.get fst snd]. rewrite IH by done.
  destruct (decide (k' = k)) as [->|Hne].
  - simpl in Hk'. apply get_None_keys in Hk'. rewrite Hk'. apply get_setitem_eq.
  - destruct (Dict.get k other); [done|]. by apply get_setitem_ne.
Qed.

End DictFacts.

(** ** The loaders *)

Section LoaderFacts.
Import Loader.

Lemma and_then_inr {A B} (r : failure + A) (k : A → failure + B) (b : B) :
  and_then r k = inr b → ∃ a, r = inr a ∧ k a = inr b.
Proof. destruct r as [e|a]; [done|]. intros H. by exists a. Qed.

Lemma required_inr {A} (e : failure) (o : option A) (a : A) :
  required e o = inr a → o = Some a.
Proof. destruct o; [|done]. by intros [= ->]. Qed.

(** An invariant of the dictionary under construction. *)
Lemma for_lines_inv {L D} (P : D → Prop) (body : D → L → failure + D)
    (d : D) (lines : list L) (d' : D) :
  (∀ d l d', P d → body d l = inr d' → P d') →
  P d → for_lines body d lines = inr d' → P d'.
Proof.
  intros Hbody. revert d. induction lines as [|l lines IH]; intros d Hd; simpl.
  - by intros [= <-].
  - intros H. apply and_then_inr in H as (d1 & H1 & H). eapply IH; [|done]. eauto.
Qed.

Lemma for_lines_length {L A} (body : list A → L → failure + list A)
    (d : list A) (lines : list L) (d' : list A) :
  (∀ d l d', body d l = inr d' → (length d' ≤ S (length d))%nat) →
  for_lines body d lines = inr d' → (length d' ≤ length d + length lines)%nat.
Proof.
  intros Hbody. revert d. induction lines as [|l lines IH]; intros d; simpl.
  - intros [= <-]. lia.
  - intros H. apply and_then_inr in H as (d1 & H1 & H).
    apply IH in H. apply Hbody in H1. lia.
Qed.

End LoaderFacts.

Section AcousticLoaderFacts.
Import Loader AcousticLoader.
Variable float_of : string → option Q.
Variable json_loads : string → option (gmap string string).
Variables (json : bool) (raw_data_dir : string) (ds_id : Z).

Lemma parse_label_fields (utterance_label item_name : string) (m : acoustic_meta) :
  parse_label float_of json_loads json raw_data_dir ds_id utterance_label
  = inr (item_name, m) →
  a_spk_id m = ds_id ∧ a_wav_fn m = wav_fn raw_data_dir item_name.
Proof.
  unfold parse_label. destruct json; intros H;
    repeat (apply and_then_inr in H as (? & _ & H)); by injection H as <- <-.
Qed.

(** What the loop body adds to the dictionary. *)
Lemma load_line_entry (d d' : list (string * acoustic_meta)) (utterance_label : string) :
  load_line float_of json_loads json raw_data_dir ds_id d utterance_label = inr d' →
  ∃ item_name m,
    d' = Dict.setitem (item_key ds_id item_name) m d
    ∧ length (a_ph_seq m) = length (a_ph_dur m)
    ∧ a_spk_id m = ds_id
    ∧ a_wav_fn m = wav_fn raw_data_dir item_name.
Proof.
  unfold load_line. intros H. apply and_then_inr in H as ([item_name m] & Hp & H).
  simpl in H. case_bool_decide as Hlen; [|done]. injection H as <-.
  destruct (parse_label_fields _ _ _ Hp) as [Hspk Hwav]. by exists item_name, m.
Qed.

End AcousticLoaderFacts.

(** X14.  Items loaded by the acoustic binarizer.  When [load_meta_data] returns,
    no two items share a key, every item that was there before is still
    there, at most one item per line was added, and every item that is new
    or replaced has as many durations as phonemes, carries the dataset id
    as its speaker id, and has a key of the form [ds_id:item_name] together
    with the recording [raw_data_dir/wavs/item_name.wav]. *)
Theorem acoustic_loaded_items (float_of : string → option Q)
    (json_loads : string → option (gmap string string)) (json : bool)
    (raw_data_dir : string) (ds_id : Z) (utterance_labels : list string)
    (items items' : list (string * acoustic_meta)) :
  AcousticLoader.load_meta_data float_of json_loads json raw_data_dir ds_id
    utterance_labels items = inr items' →
  NoDup items.*1 →
  NoDup items'.*1
  ∧ (∀ k, k ∈ items.*1 → k ∈ items'.*1)
  ∧ (length items' ≤ length items + length utterance_labels)%nat
  ∧ ∀ k m, (k, m) ∈ items' →
      (k, m) ∈ items
      ∨ (length (a_ph_seq m) = length (a_ph_dur m)
         ∧ a_spk_id m = ds_id
         ∧ ∃ item_name, k = Loader.item_key ds_id item_name
                         ∧ a_wav_fn m = AcousticLoader.wav_fn raw_data_dir item_name).
Proof.
  unfold AcousticLoader.load_meta_data. intros H Hnd.
  apply and_then_inr in H as (md & Hmd & [= <-]).
  split; [by apply update_NoDup|]. split; [intros k; apply update_keys|].
  split.
  { etrans; [apply update_length|].
    apply for_lines_length in Hmd; [simpl in Hmd; lia|].
    intros d l d' Hl.
    apply load_line_entry in Hl as (n & m & -> & _). apply setitem_length. }
  intros k m Hkm. apply update_elem in Hkm as [?|Hkm]; [by left|]. right.
  revert k m Hkm.
  eapply (for_lines_inv
            (λ d : list (string * acoustic_meta), ∀ k m, (k, m) ∈ d →
               length (a_ph_seq m) = length (a_ph_dur m)
               ∧ a_spk_id m = ds_id
               ∧ ∃ item_name, k = Loader.item_key ds_id item_name
                   ∧ a_wav_fn m = AcousticLoader.wav_fn raw_data_dir item_name));
    [| |exact Hmd].
  - intros d l d' Hd Hl k m Hkm.
    apply load_line_entry in Hl as (n & m' & -> & Hlen & Hspk & Hwav).
    apply setitem_elem in Hkm as [[= -> ->]|Hkm]; [|by apply Hd].
    split; [done|]. split; [done|]. by exists n.
  - intros k m Hkm. by apply not_elem_of_nil in Hkm.
Qed.

Lemma acoustic_loaded_items_witness :
  ∃ items',
    AcousticLoader.load_meta_data Cases.float_of Cases.json_loads false "raw" 3
      Cases.grid_lines [] = inr items'
    ∧ items'.*1 = ["3:a"; "3:b"]
    ∧ NoDup items'.*1.
Proof.
  eexists. split; [vm_compute; reflexivity|]. split; [reflexivity|].
  apply (acoustic_loaded_items Cases.float_of Cases.json_loads false "raw" 3
           Cases.grid_lines []); [vm_compute; reflexivity|constructor].
Defined.

(** ** Item keys *)

Section ItemKeys.
Import Augment.

Lemma digit_of_pretty_N_char (d : N) :
  (d < 10)%N → digit_of (pretty_N_char d) = Some (Z.of_N d).
Proof.
  intros Hd. destruct d as [|p]; [done|].
  do 4 (destruct p as [p|p|]; try done; try lia).
Qed.

Lemma pretty_N_char_no_colon (d : N) : Ascii.eqb (pretty_N_char d) ":"%char = false.
Proof.
  destruct d as [|p]; [done|]. do 4 (destruct p as [p|p|]; try done).
Qed.

(** Reading back the digits written by [pretty]. *)
Lemma parse_digits_pretty_N_go (x : N) (s : string) :
  parse_digits 0 (pretty_N_go x s) = parse_digits (Z.of_N x) s.
Proof.
  revert s. induction (N.lt_wf_0 x) as [x _ IH]; intros s.
  destruct (decide (0 < x)%N) as [Hx|Hx].
  - rewrite pretty_N_go_step by done. rewrite IH by (by apply N.div_lt).
    simpl. rewrite digit_of_pretty_N_char by (by apply N.mod_lt).
    f_equal. rewrite (N.div_mod x 10) at 3 by done. lia.
  - assert (x = 0%N) as -> by lia. by rewrite pretty_N_go_0.
Qed.

Lemma pretty_N_go_head (x : N) (c : Ascii.ascii) (s : string) :
  is_Some (digit_of c) →
  ∃ c' s', pretty_N_go x (String c s) = String c' s' ∧ is_Some (digit_of c').
Proof.
  revert c s. induction (N.lt_wf_0 x) as [x _ IH]; intros c s Hc.
  destruct (decide (0 < x)%N) as [Hx|Hx].
  - rewrite pretty_N_go_step by done. apply IH; [by apply N.div_lt|].
    rewrite digit_of_pretty_N_char by (by apply N.mod_lt). done.
  - assert (x = 0%N) as -> by lia. rewrite pretty_N_go_0. eauto.
Qed.

Lemma pretty_N_go_append (x : N) (s t : string) :
  pretty_N_go x s +:+ t = pretty_N_go x (s +:+ t).
Proof.
  revert s. induction (N.lt_wf_0 x) as [x _ IH]; intros s.
  destruct (decide (0 < x)%N) as [Hx|Hx].
  - rewrite (pretty_N_go_step x s), (pretty_N_go_step x (s +:+ t)) by done.
    by rewrite IH by (by apply N.div_lt).
  - assert (x = 0%N) as -> by lia. by rewrite !pretty_N_go_0.
Qed.

Lemma before_colon_pretty_N_go (x : N) (s : string) :
  before_colon (pretty_N_go x s) = pretty_N_go x (before_colon s).
Proof.
  revert s. induction (N.lt_wf_0 x) as [x _ IH]; intros s.
  destruct (decide (0 < x)%N) as [Hx|Hx].
  - rewrite (pretty_N_go_step x s), (pretty_N_go_step x (before_colon s)) by done.
    rewrite IH by (by apply N.div_lt).
    simpl. by rewrite pretty_N_char_no_colon.
  - assert (x = 0%N) as -> by lia. by rewrite !pretty_N_go_0.
Qed.

Lemma parse_int_digit_head (c : Ascii.ascii) (s : string) :
  is_Some (digit_of c) → parse_int (String c s) = parse_digits 0 (String c s).
Proof.
  intros [d Hd]. unfold parse_int.
  destruct c as [[] [] [] [] [] [] [] []]; try done; by destruct s.
Qed.

Lemma pretty_positive_go (p : positive) :
  ∃ c s, pretty p = String c s ∧ is_Some (digit_of c)
         ∧ parse_digits 0 (String c s) = Some (Z.pos p)
         ∧ ∀ t, before_colon (String c s +:+ String ":" t) = String c s.
Proof.
  assert (pretty p = pretty_N_go (N.pos p) EmptyString) as Hp by done.
  assert (0 < N.pos p)%N as Hpos by lia.
  pose proof (pretty_N_go_step (N.pos p) EmptyString Hpos) as Hstep.
  destruct (pretty_N_go_head (N.pos p `div` 10) (pretty_N_char (N.pos p `mod` 10)) EmptyString)
    as (c & s & Hcs & Hc).
  { rewrite digit_of_pretty_N_char by (by apply N.mod_lt). done. }
  exists c, s. rewrite Hp, Hstep, Hcs. split; [done|]. split; [done|]. split.
  - rewrite <- Hcs, <- Hstep, parse_digits_pretty_N_go. done.
  - intros t. rewrite <- Hcs, <- Hstep, pretty_N_go_append, before_colon_pretty_N_go.
    simpl. done.
Qed.

(** The dataset id written into a key is read back by the scheduler. *)
Lemma dataset_id_item_key (ds_id : Z) (item_name : string) :
  dataset_id (Loader.item_key ds_id item_name) = Ok ds_id.
Proof.
  unfold dataset_id, Loader.item_key. destruct ds_id as [|p|p].
  - done.
  - destruct (pretty_positive_go p) as (c & s & Hp & Hc & Hd & Hb).
    change (pretty (Z.pos p)) with (pretty p). rewrite Hp.
    change (":" +:+ item_name) with (String ":" item_name). rewrite Hb.
    by rewrite parse_int_digit_head, Hd.
  - destruct (pretty_positive_go p) as (c & s & Hp & Hc & Hd & Hb).
    change (pretty (Z.neg p)) with ("-" +:+ pretty p). rewrite Hp.
    change (("-" +:+ String c s) +:+ ":" +:+ item_name)
      with (String "-" (String c s +:+ String ":" item_name)).
    cbn [before_colon]. change (Ascii.eqb "-" ":") with false. cbv iota.
    rewrite Hb. unfold parse_int. rewrite Hd. done.
Qed.

Lemma item_key_inj (ds_id : Z) (n n' : string) :
  Loader.item_key ds_id n = Loader.item_key ds_id n' → n = n'.
Proof.
  unfold Loader.item_key. generalize (pretty ds_id). intros s.
  induction s as [|c s IH]; simpl.
  - intros [= H]. exact H.
  - intros [= H]. by apply IH.
Qed.

End ItemKeys.

(** X15.  The key of an item and the scheduler.  The dataset id that
    [load_meta_data] writes in front of the colon of a key is the number that
    the fixed pitch-shift stage reads back from the key, whatever the item
    name (colons included) and whatever the sign of the id; so for every
    item loaded into an empty table the number read back is the speaker id
    of the item. *)
Theorem item_key_round_trip :
  (∀ (ds_id : Z) (item_name : string),
     Augment.dataset_id (Loader.item_key ds_id item_name) = Ok ds_id)
  ∧ (∀ (float_of : string → option Q)
       (json_loads : string → option (gmap string string)) (json : bool)
       (raw_data_dir : string) (ds_id : Z) (utterance_labels : list string)
       (items' : list (string * acoustic_meta)),
       AcousticLoader.load_meta_data float_of json_loads json raw_data_dir ds_id
         utterance_labels [] = inr items' →
       Forall (λ kv, Augment.dataset_id kv.1 = Ok (a_spk_id kv.2)) items').
Proof.
  split; [apply dataset_id_item_key|].
  intros float_of json_loads json raw_data_dir ds_id lines items' H.
  unfold AcousticLoader.load_meta_data in H.
  apply and_then_inr in H as (md & Hmd & [= <-]).
  apply Forall_forall. intros [k m] Hkm.
  apply update_elem in Hkm as [Hkm|Hkm]; [by apply not_elem_of_nil in Hkm|].
  revert k m Hkm.
  eapply (for_lines_inv
            (λ d : list (string * acoustic_meta), ∀ k m, (k, m) ∈ d →
               Augment.dataset_id (k, m).1 = Ok (a_spk_id (k, m).2)));
    [| |exact Hmd].
  - intros d l d' Hd Hl k m Hkm.
    apply load_line_entry in Hl as (n & m' & -> & _ & Hspk & _).
    apply setitem_elem in Hkm as [[= -> ->]|Hkm]; [|by apply Hd].
    simpl. rewrite Hspk. apply dataset_id_item_key.
  - intros k m Hkm. by apply not_elem_of_nil in Hkm.
Qed.

Lemma item_key_round_trip_witness :
  Augment.dataset_id (Loader.item_key (-12) "a:b") = Ok (-12)
  ∧ ∃ items',
      AcousticLoader.load_meta_data Cases.float_of Cases.json_loads false "raw" 3
        Cases.grid_lines [] = inr items'
      ∧ Forall (λ kv, Augment.dataset_id kv.1 = Ok (a_spk_id kv.2)) items'.
Proof.
  destruct item_key_round_trip as [Hkey Hload].
  split; [apply Hkey|]. eexists. split; [vm_compute; reflexivity|].
  apply (Hload Cases.float_of Cases.json_loads false "raw" 3 Cases.grid_lines).
  vm_compute. reflexivity.
Defined.

Section LastLine.
Import Loader AcousticLoader.
Variable float_of : string → option Q.
Variable json_loads : string → option (gmap string string).
Variables (json : bool) (raw_data_dir : string) (ds_id : Z).

(** The loop over lines that all parse and pass the assertion. *)
Lemma for_lines_labels (lines : list string) (labels : list (string * acoustic_meta))
    (d : list (string * acoustic_meta)) :
  Forall2 (λ line lab,
             parse_label float_of json_loads json raw_data_dir ds_id line = inr lab)
    lines labels →
  Forall (λ lab, length (a_ph_seq lab.2) = length (a_ph_dur lab.2)) labels →
  for_lines (load_line float_of json_loads json raw_data_dir ds_id) d lines
  = inr (fold_left (λ d lab, Dict.setitem (item_key ds_id lab.1) lab.2 d) labels d).
Proof.
  intros Hp. revert d. induction Hp as [|line lab lines labels Hl _ IH]; intros d Hlen.
  - done.
  - apply Forall_cons in Hlen as [Hlab Hlen].
    cbn [for_lines]. unfold load_line at 1. rewrite Hl. cbn [and_then].
    rewrite bool_decide_eq_true_2 by done. cbn [and_then]. by apply IH.
Qed.

Lemma fold_setitem_NoDup (labels : list (string * acoustic_meta))
    (d : list (string * acoustic_meta)) :
  NoDup d.*1 →
  NoDup (fold_left (λ d lab, Dict.setitem (item_key ds_id lab.1) lab.2 d) labels d).*1.
Proof.
  revert d. induction labels as [|lab labels IH]; intros d Hd; [done|].
  simpl. apply IH. by apply setitem_NoDup.
Qed.

Lemma fold_setitem_get (labels : list (string * acoustic_meta))
    (d : list (string * acoustic_meta)) (n : string) :
  n ∉ labels.*1 →
  Dict.get (item_key ds_id n)
    (fold_left (λ d lab, Dict.setitem (item_key ds_id lab.1) lab.2 d) labels d)
  = Dict.get (item_key ds_id n) d.
Proof.
  revert d. induction labels as [|[n' m'] labels IH]; intros d Hn; [done|].
  rewrite fmap_cons in Hn. apply not_elem_of_cons in Hn as [Hne Hn].
  cbn [fold_left]. rewrite IH by done. apply get_setitem_ne.
  intros Hk. apply item_key_inj in Hk. done.
Qed.

End LastLine.

(** X16.  A repeated item name.  When every line parses and passes the assertion,
    [load_meta_data] succeeds, and the entry found under the key of an item
    name is the one of the last line bearing that name: a later line
    replaces an earlier one, also one that was in the table before. *)
Theorem repeated_item_name_replaced (float_of : string → option Q)
    (json_loads : string → option (gmap string string)) (json : bool)
    (raw_data_dir : string) (ds_id : Z) (utterance_labels : list string)
    (items : list (string * acoustic_meta))
    (before after : list (string * acoustic_meta))
    (item_name : string) (m : acoustic_meta) :
  Forall2 (λ line lab,
             AcousticLoader.parse_label float_of json_loads json raw_data_dir ds_id line
             = inr lab)
    utterance_labels (before ++ (item_name, m) :: after) →
  Forall (λ lab, length (a_ph_seq lab.2) = length (a_ph_dur lab.2))
    (before ++ (item_name, m) :: after) →
  item_name ∉ after.*1 →
  ∃ items',
    AcousticLoader.load_meta_data float_of json_loads json raw_data_dir ds_id
      utterance_labels items = inr items'
    ∧ Dict.get (Loader.item_key ds_id item_name) items' = Some m.
Proof.
  intros Hparse Hlen Hlast. unfold AcousticLoader.load_meta_data.
  rewrite (for_lines_labels float_of json_loads json raw_data_dir ds_id
             _ _ [] Hparse Hlen).
  cbn [Loader.and_then]. eexists. split; [done|].
  rewrite get_update by (apply fold_setitem_NoDup; constructor).
  rewrite fold_left_app. cbn [fold_left fst snd].
  rewrite fold_setitem_get by done. by rewrite get_setitem_eq.
Qed.

Lemma repeated_item_name_replaced_witness :
  ∃ items' m,
    AcousticLoader.load_meta_data Cases.float_of Cases.json_loads false "raw" 3
      Cases.grid_lines [] = inr items'
    ∧ Dict.get (Loader.item_key 3 "a") items' = Some m
    ∧ a_ph_seq m = ["l"; "i"] ∧ a_ph_dur m = [5; 6]%Q.
Proof.
  pose (lab1 := ("a", {| a_wav_fn := "raw/wavs/a.wav"; a_ph_seq := ["l"; "a"];
                         a_ph_dur := [1; 2]%Q; a_spk_id := 3 |})).
  pose (lab2 := ("b", {| a_wav_fn := "raw/wavs/b.wav"; a_ph_seq := ["l"; "a"];
                         a_ph_dur := [3; 4]%Q; a_spk_id := 3 |})).
  pose (m3 := {| a_wav_fn := "raw/wavs/a.wav"; a_ph_seq := ["l"; "i"];
                 a_ph_dur := [5; 6]%Q; a_spk_id := 3 |}).
  destruct (repeated_item_name_replaced Cases.float_of Cases.json_loads false "raw" 3
              Cases.grid_lines [] [lab1; lab2] [] "a" m3) as (items' & Hload & Hget).
  - apply Forall2_cons. split; [vm_compute; reflexivity|].
    apply Forall2_cons. split; [vm_compute; reflexivity|].
    apply Forall2_cons. split; [vm_compute; reflexivity|]. apply Forall2_nil_2.
  - apply Forall_cons. split; [reflexivity|]. apply Forall_cons. split; [reflexivity|].
    apply Forall_cons. split; [reflexivity|]. apply Forall_nil_2.
  - apply not_elem_of_nil.
  - exists items', m3. split; [exact Hload|]. split; [exact Hget|]. split; reflexivity.
Defined.

(** ** Items of the variance binarizer *)

Section VarianceItems.
Context `{Backend}.

Lemma each_Raise {A B} (f : A → result B) (l : list A) (e : exn) :
  Timeline.each f l = Raise e → ∃ x, x ∈ l ∧ f x = Raise e.
Proof.
  induction l as [|x l IH]; simpl; [done|].
  destruct (f x) as [y|e'] eqn:Hx; simpl.
  - destruct (Timeline.each f l) as [ys|e'']; simpl; [done|].
    intros [= ->]. destruct IH as (x' & Hin & Hx'); [done|].
    exists x'. split; [by right|done].
  - intros [= ->]. exists x. split; [by left|done].
Qed.

Lemma as_floats_Raise (l : list Q) (e : exn) :
  Timeline.as_floats l = Raise e → e = NonFinite.
Proof.
  intros (x & _ & Hx)%each_Raise.
  destruct (double_cases x) as [[y Hy]|Hy]; congruence.
Qed.

Lemma float_tensor_Raise (l : list Q) (e : exn) :
  Timeline.float_tensor l = Raise e → e = NonFinite.
Proof.
  intros (x & _ & Hx)%each_Raise.
  destruct (single_cases x) as [[y Hy]|Hy]; congruence.
Qed.

Lemma seconds_Raise (acc : Q) (l : list Q) (e : exn) :
  Timeline.sum_from acc l = Raise e → e = NonFinite.
Proof.
  revert acc. induction l as [|x l IH]; intros acc; simpl; [done|].
  unfold Float.add64. destruct (double_cases (acc + x)) as [[y ->]| ->]; simpl.
  - apply IH.
  - congruence.
Qed.

Lemma frame_length_Raise (seconds timestep : Q) (e : exn) :
  Timeline.frame_length seconds timestep = Raise e →
  e = NonFinite ∨ e = ZeroDivisionError.
Proof.
  unfold Timeline.frame_length, Float.div64.
  destruct (Qeq_bool timestep 0); simpl; [intros [= <-]; by right|].
  destruct (double_cases (seconds / timestep)) as [[y ->]| ->]; simpl; [done|].
  intros [= <-]. by left.
Qed.

Lemma cumsum_Raise (acc : Q) (l : list Q) (e : exn) :
  Timeline.cumsum_from acc l = Raise e → e = NonFinite.
Proof.
  revert acc. induction l as [|x l IH]; intros acc; simpl; [done|].
  unfold Float.add64. destruct (double_cases (acc + x)) as [[y ->]| ->]; simpl;
    [|congruence].
  destruct (single_cases y) as [[c ->]| ->]; simpl; [|congruence].
  destruct (Timeline.cumsum_from y l) as [cs|e'] eqn:Hcs; simpl; [done|].
  intros [= <-]. by eapply IH.
Qed.

Lemma ph_dur_Raise (ph_dur_sec : list Q) (timestep : Q) (e : exn) :
  Timeline.ph_dur ph_dur_sec timestep = Raise e → e = NonFinite.
Proof.
  unfold Timeline.ph_dur, Timeline.ph_acc, Timeline.cumsum.
  destruct (Timeline.cumsum_from 0 ph_dur_sec) as [cs|e'] eqn:Hcs; simpl;
    [|intros [= <-]; by eapply cumsum_Raise].
  destruct (single_cases timestep) as [[t32 ->]| ->]; simpl; [|congruence].
  destruct (Timeline.each _ cs) as [bounds|e'] eqn:Hb; simpl; [done|].
  intros [= <-]. apply each_Raise in Hb as (c & _ & Hc).
  unfold Timeline.frame_index in Hc.
  destruct (div32_cases c t32) as [[q Hq]|Hq]; rewrite Hq in Hc; simpl in Hc;
    [|congruence].
  destruct (add32_cases q (1 # 2)) as [[b Hb]|Hb]; rewrite Hb in Hc; simpl in Hc;
    congruence.
Qed.

Lemma get_mel2ph_Raise (ph_dur_sec : list Q) (len : Z) (timestep : Q) (e : exn) :
  Timeline.get_mel2ph ph_dur_sec len timestep = Raise e →
  e = NonFinite ∨ e = AlignmentError.
Proof.
  unfold Timeline.get_mel2ph.
  destruct (Timeline.ph_dur ph_dur_sec timestep) as [counts|e'] eqn:Hc; simpl.
  - destruct (existsb _ counts); [|done]. intros [= <-]. by right.
  - intros [= <-]. left. by eapply ph_dur_Raise.
Qed.

Lemma note_pitch_Raise (notes : list string) (e : exn) :
  Timeline.each Variance.note_pitch_of notes = Raise e →
  e = NonFinite ∨ ∃ note, note ∈ notes ∧ note_to_midi note = Raise e.
Proof.
  intros (note & Hin & Hn)%each_Raise. unfold Variance.note_pitch_of in Hn.
  case_bool_decide; [done|].
  destruct (note_to_midi note) as [k|e'] eqn:Hk; simpl in Hn.
  - left. destruct (single_cases (inject_Z k)) as [[y Hy]|Hy]; congruence.
  - injection Hn as <-. right. by exists note.
Qed.

(** The exceptions of lines 82-137 for an item with as many durations as
    phonemes and as many note durations as notes: the shapes of the tensors
    agree, so that no index is out of range. *)
Lemma processed_input_Raise (timestep : Q) (n : string) (m : variance_meta)
    (e : exn) :
  length (v_ph_seq m) = length (v_ph_dur m) →
  length (v_note_seq m) = length (v_note_dur m) →
  Variance.processed_input timestep n m = Raise e →
  e = NonFinite ∨ e = ZeroDivisionError ∨ e = AlignmentError ∨ e = ValueError
  ∨ encode (v_ph_seq m) = Raise e
  ∨ ∃ note, note ∈ v_note_seq m ∧ note_to_midi note = Raise e.
Proof.
  intros Hph Hnote. unfold Variance.processed_input.
  destruct (Timeline.as_floats (v_ph_dur m)) as [durs|e1] eqn:Hdurs; cbn [rbind];
    [|intros [= <-]; left; by eapply as_floats_Raise].
  destruct (Timeline.as_floats (v_note_dur m)) as [note_durs|e1] eqn:Hnotes;
    cbn [rbind]; [|intros [= <-]; left; by eapply as_floats_Raise].
  destruct (double_cases timestep) as [[ts ->]| ->]; cbn [rbind];
    [|intros [= <-]; by left].
  destruct (Timeline.seconds durs) as [secs|e1] eqn:Hsecs; cbn [rbind];
    [|intros [= <-]; left; by eapply seconds_Raise].
  destruct (Timeline.frame_length secs ts) as [len|e1] eqn:Hlen; cbn [rbind];
    [|intros [= <-]; destruct (frame_length_Raise _ _ _ Hlen); auto].
  destruct (Timeline.float_tensor durs) as [sec32|e1] eqn:Hsec32; cbn [rbind];
    [|intros [= <-]; left; by eapply float_tensor_Raise].
  destruct (Timeline.ph_dur sec32 ts) as [counts|e1] eqn:Hcounts; cbn [rbind];
    [|intros [= <-]; left; by eapply ph_dur_Raise].
  destruct (Timeline.get_mel2ph sec32 len ts) as [mel2ph|e1] eqn:Hmel; cbn [rbind];
    [|intros [= <-]; destruct (get_mel2ph_Raise _ _ _ _ Hmel); auto].
  destruct (encode (v_ph_seq m)) as [tokens|e1] eqn:Htok; cbn [rbind];
    [|intros [= <-]; auto 10].
  destruct (Timeline.float_tensor note_durs) as [note_dur|e1] eqn:Hnd; cbn [rbind];
    [|intros [= <-]; left; by eapply float_tensor_Raise].
  destruct (Timeline.get_mel2ph note_dur _ ts) as [mel2note|e1] eqn:Hmn; cbn [rbind];
    [|intros [= <-]; destruct (get_mel2ph_Raise _ _ _ _ Hmn); auto].
  destruct (Timeline.each Variance.note_pitch_of (v_note_seq m))
    as [note_pitch|e1] eqn:Hnp; cbn [rbind];
    [|intros [= <-]; destruct (note_pitch_Raise _ _ Hnp); auto 10].
  destruct (get_mel2ph_shape _ _ _ _ Hmel) as (Hl1 & Hb1 & counts' & Hc' & _ & Hcl).
  rewrite Hcounts in Hc'. injection Hc' as <-.
  destruct (get_mel2ph_shape _ _ _ _ Hmn) as (Hl2 & Hb2 & _).
  pose proof (each_length _ _ _ Hdurs) as Hd1.
  pose proof (each_length _ _ _ Hsec32) as Hd2.
  pose proof (each_length _ _ _ Hnotes) as Hn1.
  pose proof (each_length _ _ _ Hnd) as Hn2.
  pose proof (each_length _ _ _ Hnp) as Hn3.
  destruct (gather_is_Some (Tensor.pad_front 0%Q note_pitch) mel2note) as [pitch Hpitch].
  { eapply Forall_impl; [exact Hb2|]. intros i Hi. simpl in *. lia. }
  rewrite Hpitch. cbn [of_option rbind].
  destruct (gather_lookup _ _ _ Hpitch) as [Hpl _].
  destruct (ph_midi_shaped (length (v_ph_seq m)) counts mel2ph pitch) as [Hcases _].
  { lia. }
  { rewrite Hpl, Hl2. lia. }
  { eapply Forall_impl; [exact Hb1|]. intros i Hi. simpl in *. lia. }
  unfold Pitch.midi.
  destruct Hcases as [[means ->]| ->]; cbn [rbind]; [|intros [= <-]; by left].
  unfold Variance.base_pitch. destruct (forallb id _); cbn [rbind]; [|done].
  intros [= <-]. auto.
Qed.

(** The shapes of a record. *)
Lemma process_item_shapes (timestep : Q) (n : string) (m : variance_meta)
    (r : variance_record) :
  length (v_ph_seq m) = length (v_ph_dur m) →
  Variance.process_item timestep n m = Ok (Some r) →
  vr_name r = n
  ∧ vr_spk_id r = v_spk_id m
  ∧ Timeline.frame_count (v_ph_dur m) timestep = Ok (vr_length r)
  ∧ Timeline.frame_counts (v_ph_dur m) timestep = Ok (vr_ph_dur r)
  ∧ Timeline.alignment (v_ph_dur m) (vr_length r) timestep = Ok (vr_mel2ph r)
  ∧ length (vr_ph_dur r) = length (v_ph_seq m)
  ∧ length (vr_midi r) = length (v_ph_seq m)
  ∧ length (vr_mel2ph r) = Z.to_nat (vr_length r)
  ∧ Forall (λ i, (i ≤ length (v_ph_seq m))%nat) (vr_mel2ph r).
Proof.
  intros Hph Hr.
  destruct (process_item_Some _ _ _ _ Hr)
    as (x & est & Hx & _ & _ & _ & _ & _ & -> & _ & -> & _ & -> & -> & _ & -> & _ & ->).
  destruct (processed_input_inv _ _ _ _ Hx)
    as (durs & ts & sec32 & note_durs & note_dur & mel2note & note_pitch & pitch
        & Hdurs & Hts & Hsecs & Hlen & Hsec32 & Hcounts & Hmel & _ & _ & _ & Hmn & _
        & Hpitch & Hmidi & _ & _ & Hname & _ & Hspk).
  destruct (get_mel2ph_shape _ _ _ _ Hmel) as (Hl1 & Hb1 & counts' & Hc' & _ & Hcl).
  rewrite Hcounts in Hc'. injection Hc' as <-.
  destruct (get_mel2ph_shape _ _ _ _ Hmn) as (Hl2 & _).
  pose proof (each_length _ _ _ Hdurs) as Hd1.
  pose proof (each_length _ _ _ Hsec32) as Hd2.
  destruct (gather_lookup _ _ _ Hpitch) as [Hpl _].
  destruct (ph_midi_shaped (length (v_ph_seq m)) (vr_ph_dur x) (vr_mel2ph x) pitch)
    as [_ Hmeans].
  { lia. }
  { rewrite Hpl, Hl2. lia. }
  { eapply Forall_impl; [exact Hb1|]. intros i Hi. simpl in *. lia. }
  unfold Pitch.midi in Hmidi. apply rbind_Ok in Hmidi as (means & Hm & [= Hmidi]).
  destruct (Hmeans _ Hm) as (_ & Hml & _).
  split_and!; try done.
  - unfold Timeline.frame_count. rewrite Hdurs. cbn [rbind]. rewrite Hts.
    cbn [rbind]. by rewrite Hsecs.
  - unfold Timeline.frame_counts. rewrite Hdurs. cbn [rbind]. rewrite Hts.
    cbn [rbind]. by rewrite Hsec32.
  - unfold Timeline.alignment. rewrite Hdurs. cbn [rbind]. rewrite Hts.
    cbn [rbind]. by rewrite Hsec32.
  - lia.
  - by rewrite <- Hmidi, length_map.
  - eapply Forall_impl; [exact Hb1|]. intros i Hi. simpl in *. lia.
Qed.

End VarianceItems.

Section VarianceLoaderFacts.
Import Loader VarianceLoader.
Variable float_of : string → option Q.
Variable int_of : string → option Z.
Variable wav_path : string → string → string.
Variables (raw_data_dir : string) (ds_id : Z).

(** The four conditions asserted for a row, and what else the loader
    fixes. *)
Lemma load_row_entry (d d' : list (string * variance_meta))
    (utterance_label : gmap string string) :
  load_row float_of int_of wav_path raw_data_dir ds_id d utterance_label = inr d' →
  ∃ item_name m,
    d' = Dict.setitem (item_key ds_id item_name) m d
    ∧ v_spk_id m = ds_id
    ∧ v_wav_fn m = wav_path raw_data_dir item_name
    ∧ length (v_ph_seq m) = length (v_ph_dur m)
    ∧ Z.of_nat (length (v_ph_seq m)) = Num.zsum (v_ph_num m)
    ∧ length (v_note_seq m) = length (v_note_dur m)
    ∧ ∃ note, note ∈ v_note_seq m ∧ note ≠ "rest".
Proof.
  unfold load_row. intros Hl. apply and_then_inr in Hl as ([item_name m] & Hp & Hl).
  apply and_then_inr in Hl as ([] & Hc & Hl). injection Hl as <-.
  exists item_name, m. split; [done|].
  assert (v_spk_id m = ds_id ∧ v_wav_fn m = wav_path raw_data_dir item_name)
    as [Hspk Hwav].
  { unfold parse_row in Hp.
    repeat (apply and_then_inr in Hp as (? & _ & Hp)). by injection Hp as <- <-. }
  split; [done|]. split; [done|].
  unfold check_row in Hc. simpl in Hc.
  repeat case_bool_decide; simpl in Hc; try done.
  destruct (existsb _ (v_note_seq m)) eqn:Hrest; [|done].
  split_and!; try done.
  apply existsb_exists in Hrest as (note & Hin & Hne).
  exists note. split; [by apply list_elem_of_In|].
  intros ->. done.
Qed.

End VarianceLoaderFacts.

(** X17.  Items loaded by the variance binarizer.  When [load_meta_data] returns,
    no two items share a key, every item that was there before is still
    there, and every item that is new or replaced satisfies the four
    assertions: as many durations as phonemes, phoneme counts per word that
    add up to the number of phonemes, as many note durations as notes, and a
    note that is no rest; its speaker id is the dataset id and its key has
    the form [ds_id:item_name]. *)
Theorem variance_loaded_items (float_of : string → option Q)
    (int_of : string → option Z) (wav_path : string → string → string)
    (raw_data_dir : string) (ds_id : Z) (rows : list (gmap string string))
    (items items' : list (string * variance_meta)) :
  VarianceLoader.load_meta_data float_of int_of wav_path raw_data_dir ds_id rows items
  = inr items' →
  NoDup items.*1 →
  NoDup items'.*1
  ∧ (∀ k, k ∈ items.*1 → k ∈ items'.*1)
  ∧ ∀ k m, (k, m) ∈ items' →
      (k, m) ∈ items
      ∨ ((∃ item_name, k = Loader.item_key ds_id item_name)
         ∧ v_spk_id m = ds_id
         ∧ length (v_ph_seq m) = length (v_ph_dur m)
         ∧ Z.of_nat (length (v_ph_seq m)) = Num.zsum (v_ph_num m)
         ∧ length (v_note_seq m) = length (v_note_dur m)
         ∧ ∃ note, note ∈ v_note_seq m ∧ note ≠ "rest").
Proof.
  unfold VarianceLoader.load_meta_data. intros Hl Hnd.
  apply and_then_inr in Hl as (md & Hmd & [= <-]).
  split; [by apply update_NoDup|]. split; [intros k; apply update_keys|].
  intros k m Hkm. apply update_elem in Hkm as [?|Hkm]; [by left|]. right.
  revert k m Hkm.
  eapply (for_lines_inv
            (λ d : list (string * variance_meta), ∀ k m, (k, m) ∈ d →
               (∃ item_name, k = Loader.item_key ds_id item_name)
               ∧ v_spk_id m = ds_id
               ∧ length (v_ph_seq m) = length (v_ph_dur m)
               ∧ Z.of_nat (length (v_ph_seq m)) = Num.zsum (v_ph_num m)
               ∧ length (v_note_seq m) = length (v_note_dur m)
               ∧ ∃ note, note ∈ v_note_seq m ∧ note ≠ "rest"));
    [| |exact Hmd].
  - intros d l d' Hd Hrow k m Hkm.
    apply load_row_entry in Hrow as (n & m' & -> & Hspk & _ & H1 & H2 & H3 & H4).
    apply setitem_elem in Hkm as [[= -> ->]|Hkm]; [|by apply Hd].
    split; [by exists n|done].
  - intros k m Hkm. by apply not_elem_of_nil in Hkm.
Qed.

Lemma variance_loaded_items_witness :
  ∃ items',
    VarianceLoader.load_meta_data Cases.float_of Augment.parse_int Cases.wav_path
      "raw" 0 [Cases.row] [] = inr items'
    ∧ NoDup items'.*1
    ∧ items'.*1 = ["0:a"].
Proof.
  eexists. split; [vm_compute; reflexivity|]. split; [|reflexivity].
  apply (variance_loaded_items Cases.float_of Augment.parse_int Cases.wav_path
           "raw" 0 [Cases.row] []); [vm_compute; reflexivity|constructor].
Defined.

(** X18.  Loader and processing together, for the variance binarizer.  For an
    item that [load_meta_data] has loaded the shapes of the tensors of
    [process_item] agree: no index of a [gather] or [scatter_add] is out of
    range, so that an [IndexError] can only come from the phoneme encoder,
    the note names or the pitch estimator; and a record that results has
    one frame count and one MIDI value per phoneme, and an alignment array
    of the length of the item in frames whose entries do not exceed the
    number of phonemes.  The item may still raise: the row with the notes
    [rest C4] and the durations [3 0] is loaded, and [interp1d] raises
    [ValueError] for it. *)
Theorem loaded_variance_item_processed `{Backend} (float_of : string → option Q)
    (int_of : string → option Z) (wav_path : string → string → string)
    (raw_data_dir : string) (ds_id : Z) (rows : list (gmap string string))
    (items' : list (string * variance_meta)) (timestep : Q) :
  VarianceLoader.load_meta_data float_of int_of wav_path raw_data_dir ds_id rows []
  = inr items' →
  ∀ k m, (k, m) ∈ items' →
    (Variance.process_item timestep k m = Raise IndexError →
     encode (v_ph_seq m) = Raise IndexError
     ∨ (∃ note, note ∈ v_note_seq m ∧ note_to_midi note = Raise IndexError)
     ∨ ∃ length, get_pitch_parselmouth (v_wav_fn m) length true = Raise IndexError)
    ∧ ∀ r, Variance.process_item timestep k m = Ok (Some r) →
        vr_name r = k
        ∧ vr_spk_id r = ds_id
        ∧ Timeline.frame_count (v_ph_dur m) timestep = Ok (vr_length r)
        ∧ length (vr_ph_dur r) = length (v_ph_seq m)
        ∧ length (vr_midi r) = length (v_ph_seq m)
        ∧ length (vr_mel2ph r) = Z.to_nat (vr_length r)
        ∧ Forall (λ i, (i ≤ length (v_ph_seq m))%nat) (vr_mel2ph r).
Proof.
  unfold VarianceLoader.load_meta_data. intros Hl k m Hkm.
  apply and_then_inr in Hl as (md & Hmd & [= <-]).
  apply update_elem in Hkm as [Hkm|Hkm]; [by apply not_elem_of_nil in Hkm|].
  assert (v_spk_id m = ds_id
          ∧ length (v_ph_seq m) = length (v_ph_dur m)
          ∧ length (v_note_seq m) = length (v_note_dur m)) as (Hspk & Hph & Hnote).
  { revert k m Hkm.
    eapply (for_lines_inv
              (λ d : list (string * variance_meta), ∀ k m, (k, m) ∈ d →
                 v_spk_id m = ds_id
                 ∧ length (v_ph_seq m) = length (v_ph_dur m)
                 ∧ length (v_note_seq m) = length (v_note_dur m)));
      [| |exact Hmd].
    - intros d l d' Hd Hrow k m Hkm.
      apply load_row_entry in Hrow as (n & m' & -> & Hspk & _ & H1 & _ & H3 & _).
      apply setitem_elem in Hkm as [[= -> ->]|Hkm]; [done|by apply (Hd k)].
    - intros k m Hkm. by apply not_elem_of_nil in Hkm. }
  split.
  - unfold Variance.process_item.
    destruct (Variance.processed_input timestep k m) as [x|e] eqn:Hx; cbn [rbind].
    + destruct (get_pitch_parselmouth (v_wav_fn m) (vr_length x) true)
        as [est|e] eqn:Hest; cbn [rbind]; [|intros [= ->]; right; right; by eexists].
      destruct (all_unvoiced est.2); [done|].
      destruct (Timeline.each _ _) as [delta|e] eqn:Hdelta; cbn [rbind]; [done|].
      intros [= ->]. apply each_Raise in Hdelta as (fb & _ & Hfb).
      destruct (single_cases (hz_to_midi fb.1 - fb.2)) as [[y Hy]|Hy]; congruence.
    + intros [= ->].
      destruct (processed_input_Raise timestep k m IndexError Hph Hnote Hx)
        as [?|[?|[?|[?|[?|?]]]]]; try done; auto.
  - intros r Hr.
    destruct (process_item_shapes timestep k m r Hph Hr)
      as (? & ? & ? & ? & ? & ? & ? & ? & ?).
    split_and!; try done. congruence.
Qed.

Lemma loaded_variance_item_processed_witness :
  ∃ items' m r,
    VarianceLoader.load_meta_data Cases.float_of Augment.parse_int Cases.wav_path
      "raw" 0 [Cases.row; Cases.rest_row] [] = inr items'
    ∧ ("0:a", m) ∈ items'
    ∧ Variance.process_item (H := Samples.backend) (1 # 4) "0:a" m = Ok (Some r)
    ∧ length (vr_mel2ph r) = Z.to_nat (vr_length r)
    ∧ ("0:r", Samples.all_rest_loaded) ∈ items'
    ∧ Variance.process_item (H := Samples.backend) (1 # 4) "0:r"
        Samples.all_rest_loaded = Raise ValueError.
Proof.
  destruct (VarianceLoader.load_meta_data Cases.float_of Augment.parse_int Cases.wav_path
              "raw" 0 [Cases.row; Cases.rest_row] []) as [e|items'] eqn:Hload;
    [vm_compute in Hload; discriminate|].
  assert (∃ m, ("0:a", m) ∈ items'
               ∧ ∃ r, Variance.process_item (H := Samples.backend) (1 # 4) "0:a" m
                      = Ok (Some r)) as (m & Hm & r & Hr).
  { vm_compute in Hload. injection Hload as <-. eexists. split; [by left|].
    eexists. vm_compute. reflexivity. }
  assert (("0:r", Samples.all_rest_loaded) ∈ items') as Hrest.
  { vm_compute in Hload. injection Hload as <-. right. by left. }
  destruct (loaded_variance_item_processed (H := Samples.backend) Cases.float_of
              Augment.parse_int Cases.wav_path "raw" 0 [Cases.row; Cases.rest_row]
              items' (1 # 4) Hload "0:a" m Hm) as (_ & Hshape).
  destruct (Hshape r Hr) as (_ & _ & _ & _ & _ & Hlen & _).
  exists items', m, r. split_and!; first [done|vm_compute; reflexivity].
Defined.

(** ** The vocoder registry *)

Section VocoderFacts.
Import Text Vocoders.

Lemma split_on_nonempty (sep : Ascii.ascii) (s : string) : split_on sep s ≠ [].
Proof.
  destruct s as [|c s]; simpl; [done|].
  destruct (Ascii.eqb c sep); [done|]. by destruct (split_on sep s).
Qed.

(** Splitting at a separator distributes over a separator in the text. *)
Lemma split_on_sep (sep : Ascii.ascii) (p t : string) :
  split_on sep (p +:+ String sep t) = split_on sep p ++ split_on sep t.
Proof.
  induction p as [|c p IH]; simpl.
  - by rewrite Ascii.eqb_refl.
  - destruct (Ascii.eqb c sep); [by rewrite IH|]. rewrite IH.
    pose proof (split_on_nonempty sep p). by destruct (split_on sep p).
Qed.

Lemma short_name_component (path cls : string) :
  split_on "." cls = [cls] → short_name (path +:+ "." +:+ cls) = cls.
Proof.
  intros Hcls. unfold short_name.
  change ("." +:+ cls) with (String "."%char cls).
  rewrite split_on_sep, Hcls, last_snoc. done.
Qed.

End VocoderFacts.

(** X19.  The vocoder of [process_item].  A name that is registered is taken as it
    is.  Otherwise the part after the last dot is looked up: a dotted path
    that is not itself registered resolves to the entry of its last
    component, and a name without a dot that is not registered is a
    [KeyError]. *)
Theorem vocoder_resolution {V : Type} (VOCODERS : gmap string V) :
  (∀ vocoder v, VOCODERS !! vocoder = Some v →
     Vocoders.resolve VOCODERS vocoder = Some v)
  ∧ (∀ path cls, Text.split_on "." cls = [cls] →
       VOCODERS !! (path +:+ "." +:+ cls) = None →
       Vocoders.resolve VOCODERS (path +:+ "." +:+ cls) = VOCODERS !! cls)
  ∧ (∀ vocoder, Text.split_on "." vocoder = [vocoder] →
       VOCODERS !! vocoder = None →
       Vocoders.resolve VOCODERS vocoder = None).
Proof.
  unfold Vocoders.resolve. split; [|split].
  - intros vocoder v ->. done.
  - intros path cls Hcls ->. by rewrite short_name_component.
  - intros vocoder Hv Hnone. rewrite Hnone. unfold Vocoders.short_name.
    by rewrite Hv.
Qed.

Lemma vocoder_resolution_witness :
  Vocoders.resolve ({[ "NsfHifiGAN" := 1%nat ]} : gmap string nat)
    "modules.vocoders.nsf_hifigan.NsfHifiGAN" = Some 1%nat.
Proof.
  destruct (vocoder_resolution ({[ "NsfHifiGAN" := 1%nat ]} : gmap string nat))
    as (_ & Hpath & _).
  etrans; [apply (Hpath "modules.vocoders.nsf_hifigan" "NsfHifiGAN"); reflexivity|].
  reflexivity.
Defined.

(** ** Frame alignment in the acoustic model *)

Section EncoderFacts.
Import Encoder.
Context {A : Type}.

Lemma concat_replicate_singleton (k : nat) (e : A) :
  concat (replicate k [e]) = replicate k e.
Proof. induction k as [|k IH]; [done|]. simpl. by rewrite IH. Qed.

Lemma last_lookup_pred (x : list A) : last x = x !! (length x - 1)%nat.
Proof.
  rewrite last_lookup. f_equal. lia.
Qed.

End EncoderFacts.

(** X20.  Fitting a frame-level input ([f0], or a frame-level key shift or speed)
    to the frame count.  An input with at least one frame always fits: the
    result has exactly [nframes] frames, frame [i] being frame [i] of the
    input, or its last frame when the input is shorter.  An input without
    frames fits only a frame count of zero; otherwise the access to its last
    frame raises [IndexError]. *)
Theorem fit_frames {A : Type} (nframes : nat) (x : list A) :
  (x ≠ [] ∨ nframes = 0%nat →
   ∃ y, Encoder.fit nframes x = Ok y
     ∧ length y = nframes
     ∧ (∀ i, (i < nframes)%nat → y !! i = x !! (i `min` (length x - 1))%nat)
     ∧ Encoder.fit nframes y = Ok y)
  ∧ (x = [] → (0 < nframes)%nat → Encoder.fit nframes x = Raise IndexError).
Proof.
  assert (∀ y : list A, length y = nframes → Encoder.fit nframes y = Ok y) as Hidem.
  { intros y Hy. unfold Encoder.fit. rewrite Hy, Z.sub_diag. simpl.
    by rewrite <- Hy, firstn_all. }
  split.
  - intros Hx. unfold Encoder.fit.
    destruct (0 <? Z.of_nat nframes - Z.of_nat (length x)) eqn:Hd.
    + apply Z.ltb_lt in Hd.
      destruct x as [|a x] using rev_ind; [destruct Hx; [done|lia]|]. clear IHx.
      rewrite last_snoc. cbn [of_option rbind].
      rewrite length_app in *. simpl in *.
      assert (length (take nframes ((x ++ [a])
                ++ replicate (Z.to_nat (Z.of_nat nframes - Z.of_nat (length x + 1))) a))
              = nframes) as Hlen.
      { rewrite length_take, !length_app, length_replicate. simpl. lia. }
      eexists. split; [reflexivity|]. split; [exact Hlen|]. split; [|by apply Hidem].
      intros i Hi. rewrite lookup_take_lt by done.
      replace (length x + 1 - 1)%nat with (length x) by lia.
      destruct (decide (i < length x + 1)%nat) as [Hlt|Hge].
      * rewrite lookup_app_l by (rewrite length_app; simpl; lia).
        f_equal. lia.
      * rewrite lookup_app_r by (rewrite length_app; simpl; lia).
        rewrite Nat.min_r by lia. rewrite lookup_app_r by lia.
        rewrite Nat.sub_diag. simpl. apply lookup_replicate.
        split; [done|]. rewrite length_app. simpl. lia.
    + apply Z.ltb_ge in Hd. cbn [rbind].
      assert (length (take nframes x) = nframes) as Hlen.
      { rewrite length_take. lia. }
      eexists. split; [reflexivity|]. split; [exact Hlen|]. split; [|by apply Hidem].
      intros i Hi. rewrite lookup_take_lt by done. f_equal. lia.
  - intros -> Hn. unfold Encoder.fit. simpl.
    destruct (0 <? Z.of_nat nframes - Z.of_nat 0) eqn:Hd; [done|].
    apply Z.ltb_ge in Hd. lia.
Qed.

Lemma fit_frames_witness :
  Encoder.fit 5 [1; 2; 3]%nat = Ok [1; 2; 3; 3; 3]%nat
  ∧ Encoder.fit 2 [1; 2; 3]%nat = Ok [1; 2]%nat
  ∧ Encoder.fit 2 ([] : list nat) = Raise IndexError.
Proof.
  split; [reflexivity|]. split; [reflexivity|].
  apply (proj2 (fit_frames 2 ([] : list nat))); [reflexivity|lia].
Defined.

(** X21.  Adding a speaker mix to the condition.  A mix with at least one frame is
    always accepted and spans the whole condition: frame [i] of the
    condition receives frame [i] of the mix, or its last frame when the mix
    is shorter.  A mix without frames is rejected unless the condition has
    no frame either. *)
Theorem speaker_mix_added {A : Type} (add : A → A → A) (condition spk_embed : list A) :
  (spk_embed ≠ [] →
   ∃ out, Encoder.add_frames add condition
            (Encoder.fit_mix (length condition) spk_embed) = Some out
     ∧ length out = length condition
     ∧ ∀ i c, condition !! i = Some c →
         ∃ e, spk_embed !! (i `min` (length spk_embed - 1))%nat = Some e
              ∧ out !! i = Some (add c e))
  ∧ (spk_embed = [] → condition ≠ [] →
     Encoder.add_frames add condition (Encoder.fit_mix (length condition) spk_embed)
     = None).
Proof.
  split.
  - intros Hne. unfold Encoder.fit_mix.
    destruct (length condition <? length spk_embed)%nat eqn:Hcut.
    { apply Nat.ltb_lt in Hcut. unfold Encoder.add_frames.
      rewrite bool_decide_eq_true_2 by (rewrite length_take; lia).
      eexists. split; [reflexivity|]. split.
      { rewrite length_zip_with, length_take. lia. }
      intros i c Hc. pose proof (lookup_lt_Some _ _ _ Hc) as Hi.
      destruct (lookup_lt_is_Some_2 spk_embed i) as [e He]; [lia|].
      exists e. rewrite Nat.min_l by lia. split; [done|].
      rewrite lookup_zip_with, Hc. simpl. by rewrite lookup_take_lt, He. }
    apply Nat.ltb_ge in Hcut.
    destruct (1 <? length spk_embed)%nat eqn:Hmany.
    { apply Nat.ltb_lt in Hmany.
      destruct spk_embed as [|l spk_embed] using rev_ind; [done|]. clear IHspk_embed.
      rewrite length_app in *. simpl in *.
      replace (length spk_embed + 1 - 1)%nat with (length spk_embed) by lia.
      rewrite drop_app_length. rewrite concat_replicate_singleton.
      unfold Encoder.add_frames.
      rewrite bool_decide_eq_true_2
        by (rewrite !length_app, length_replicate; simpl; lia).
      eexists. split; [reflexivity|]. split.
      { rewrite length_zip_with, !length_app, length_replicate. simpl. lia. }
      intros i c Hc. pose proof (lookup_lt_Some _ _ _ Hc) as Hi.
      rewrite lookup_zip_with, Hc. simpl.
      destruct (decide (i < length spk_embed + 1)%nat) as [Hlt|Hge].
      - destruct (lookup_lt_is_Some_2 (spk_embed ++ [l]) i) as [e He];
          [rewrite length_app; simpl; lia|].
        exists e. rewrite Nat.min_l by lia. split; [done|].
        rewrite (lookup_app_l (spk_embed ++ [l])) by (rewrite length_app; simpl; lia).
        by rewrite He.
      - exists l. rewrite Nat.min_r by lia. split; [by rewrite list_lookup_middle|].
        rewrite (lookup_app_r (spk_embed ++ [l])) by (rewrite length_app; simpl; lia).
        rewrite lookup_replicate_2; [done|]. rewrite length_app. simpl. lia. }
    apply Nat.ltb_ge in Hmany.
    destruct spk_embed as [|e [|e' spk_embed]]; [done| |simpl in Hmany; lia].
    simpl in Hcut. unfold Encoder.add_frames.
    case_bool_decide as Hone.
    + eexists. split; [reflexivity|]. split.
      { rewrite length_zip_with. simpl in *. lia. }
      intros i c Hc. pose proof (lookup_lt_Some _ _ _ Hc) as Hi.
      simpl in Hone. assert (i = 0%nat) as -> by lia.
      exists e. split; [done|]. rewrite lookup_zip_with, Hc. done.
    + eexists. split; [reflexivity|]. split; [by rewrite length_fmap|].
      intros i c Hc. exists e. rewrite Nat.min_r by (simpl; lia).
      split; [done|]. by rewrite list_lookup_fmap, Hc.
  - intros -> Hc. unfold Encoder.fit_mix, Encoder.add_frames. simpl.
    destruct condition; [done|]. simpl. done.
Qed.

Lemma speaker_mix_added_witness :
  Encoder.add_frames Nat.add [10; 20; 30; 40]%nat
    (Encoder.fit_mix 4 [1; 2]%nat) = Some [11; 22; 32; 42]%nat
  ∧ Encoder.add_frames Nat.add [10; 20]%nat (Encoder.fit_mix 2 ([] : list nat)) = None.
Proof.
  split; [reflexivity|].
  apply (proj2 (speaker_mix_added Nat.add [10; 20]%nat ([] : list nat)));
    [reflexivity|discriminate].
Defined.

(** ** The tokens of [str.split()] *)

Section Tokens.
Import Text.

Lemma split_ws_head (c : Ascii.ascii) (s : string) :
  is_space c = false → ∃ w ws, split_ws (String c s) = String c w :: ws.
Proof.
  intros Hc. cbn [split_ws]. rewrite Hc. destruct s as [|c' s]; [by eexists _, _|].
  destruct (is_space c'); [by eexists _, _|].
  destruct (split_ws (String c' s)); by eexists _, _.
Qed.

Lemma split_ws_single (c : Ascii.ascii) :
  is_space c = false → split_ws (String c EmptyString) = [String c EmptyString].
Proof. intros Hc. cbn [split_ws]. by rewrite Hc. Qed.

Lemma split_ws_step (c c' : Ascii.ascii) (s : string) :
  is_space c = false → is_space c' = false →
  split_ws (String c (String c' s))
  = match split_ws (String c' s) with
    | w :: ws => String c w :: ws
    | [] => [String c EmptyString]
    end.
Proof.
  intros Hc Hc'.
  change (split_ws (String c (String c' s)))
    with (if is_space c then split_ws (String c' s)
          else if is_space c' then String c EmptyString :: split_ws (String c' s)
          else match split_ws (String c' s) with
               | w :: ws => String c w :: ws
               | [] => [String c EmptyString]
               end).
  by rewrite Hc, Hc'.
Qed.

(** Every token is a single token of itself: it is not empty and holds no
    whitespace. *)
Lemma split_ws_tokens (s : string) :
  Forall (λ w, w ≠ EmptyString ∧ split_ws w = [w]) (split_ws s).
Proof.
  induction s as [|c s IH]; [constructor|]. cbn [split_ws].
  destruct (is_space c) eqn:Hc; [exact IH|].
  destruct s as [|c' s].
  { constructor; [|constructor]. split; [done|]. by apply split_ws_single. }
  destruct (is_space c') eqn:Hc'.
  { constructor; [|exact IH]. split; [done|]. by apply split_ws_single. }
  destruct (split_ws_head c' s Hc') as (w & ws & Hw).
  change (Forall (λ w, w ≠ EmptyString ∧ split_ws w = [w])
            match split_ws (String c' s) with
            | w :: ws => String c w :: ws
            | [] => [String c EmptyString]
            end).
  rewrite Hw in IH |- *.
  apply Forall_cons in IH as [[_ Htok] IH]. constructor; [|exact IH].
  split; [done|]. by rewrite split_ws_step, Htok.
Qed.

End Tokens.

(** X22.  The phonemes and notes of loaded items.  Every phoneme that the acoustic
    loader stores, and every phoneme and every note that the variance loader
    stores, is a token of [str.split()]: it is not empty and holds no
    whitespace, so that splitting it again gives the token itself. *)
Theorem loaded_names_are_tokens :
  (∀ (float_of : string → option Q)
     (json_loads : string → option (gmap string string)) (json : bool)
     (raw_data_dir : string) (ds_id : Z) (utterance_labels : list string)
     (items' : list (string * acoustic_meta)),
     AcousticLoader.load_meta_data float_of json_loads json raw_data_dir ds_id
       utterance_labels [] = inr items' →
     Forall (λ kv, Forall (λ ph, ph ≠ EmptyString ∧ Text.split_ws ph = [ph])
                     (a_ph_seq kv.2)) items')
  ∧ (∀ (float_of : string → option Q) (int_of : string → option Z)
       (wav_path : string → string → string) (raw_data_dir : string) (ds_id : Z)
       (rows : list (gmap string string)) (items' : list (string * variance_meta)),
       VarianceLoader.load_meta_data float_of int_of wav_path raw_data_dir ds_id
         rows [] = inr items' →
       Forall (λ kv, Forall (λ ph, ph ≠ EmptyString ∧ Text.split_ws ph = [ph])
                       (v_ph_seq kv.2)
                     ∧ Forall (λ note, note ≠ EmptyString ∧ Text.split_ws note = [note])
                         (v_note_seq kv.2)) items').
Proof.
  split.
  - intros float_of json_loads json raw_data_dir ds_id utterance_labels items' Hl.
    unfold AcousticLoader.load_meta_data in Hl.
    apply and_then_inr in Hl as (md & Hmd & [= <-]).
    apply Forall_forall. intros [k m] Hkm.
    apply update_elem in Hkm as [Hkm|Hkm]; [by apply not_elem_of_nil in Hkm|].
    revert k m Hkm.
    eapply (for_lines_inv
              (λ d, ∀ k m, (k, m) ∈ d →
                 Forall (λ ph, ph ≠ EmptyString ∧ Text.split_ws ph = [ph]) (a_ph_seq m)));
      [| |exact Hmd].
    + intros d line d' Hd Hline k m Hkm. unfold AcousticLoader.load_line in Hline.
      apply and_then_inr in Hline as ([item_name m0] & Hp & Hline).
      simpl in Hline. case_bool_decide; [|done]. injection Hline as <-.
      apply setitem_elem in Hkm as [[= -> ->]|Hkm]; [|by eapply Hd].
      unfold AcousticLoader.parse_label in Hp. destruct json;
        repeat (apply and_then_inr in Hp as (? & _ & Hp)); injection Hp as _ <-;
        apply split_ws_tokens.
    + intros k m Hkm. by apply not_elem_of_nil in Hkm.
  - intros float_of int_of wav_path raw_data_dir ds_id rows items' Hl.
    unfold VarianceLoader.load_meta_data in Hl.
    apply and_then_inr in Hl as (md & Hmd & [= <-]).
    apply Forall_forall. intros [k m] Hkm.
    apply update_elem in Hkm as [Hkm|Hkm]; [by apply not_elem_of_nil in Hkm|].
    revert k m Hkm.
    eapply (for_lines_inv
              (λ d, ∀ k m, (k, m) ∈ d →
                 Forall (λ ph, ph ≠ EmptyString ∧ Text.split_ws ph = [ph]) (v_ph_seq m)
                 ∧ Forall (λ note, note ≠ EmptyString ∧ Text.split_ws note = [note])
                     (v_note_seq m)));
      [| |exact Hmd].
    + intros d line d' Hd Hline k m Hkm. unfold VarianceLoader.load_row in Hline.
      apply and_then_inr in Hline as ([item_name m0] & Hp & Hline).
      apply and_then_inr in Hline as ([] & _ & Hline). injection Hline as <-.
      apply setitem_elem in Hkm as [[= -> ->]|Hkm]; [|by eapply Hd].
      unfold VarianceLoader.parse_row in Hp.
      repeat (apply and_then_inr in Hp as (? & _ & Hp)). injection Hp as _ <-.
      split; apply split_ws_tokens.
    + intros k m Hkm. by apply not_elem_of_nil in Hkm.
Qed.

Lemma loaded_names_are_tokens_witness :
  ∃ items',
    VarianceLoader.load_meta_data Cases.float_of Augment.parse_int Cases.wav_path
      "raw" 0 [Cases.row] [] = inr items'
    ∧ (v_note_seq <$> items'.*2) = [["C4"; "rest"]]
    ∧ Forall (λ kv, Forall (λ ph, ph ≠ EmptyString ∧ Text.split_ws ph = [ph])
                      (v_ph_seq kv.2)
                    ∧ Forall (λ note, note ≠ EmptyString ∧ Text.split_ws note = [note])
                        (v_note_seq kv.2)) items'.
Proof.
  eexists. split; [vm_compute; reflexivity|]. split; [reflexivity|].
  apply (proj2 loaded_names_are_tokens Cases.float_of Augment.parse_int Cases.wav_path
           "raw" 0 [Cases.row] _). vm_compute. reflexivity.
Defined.

(** ** The relabelling script: the rules *)

Section RuleFacts.
Import Relabel.

Lemma split_on_one (sep : Ascii.ascii) (s b : string) :
  Text.split_on sep s = [b] → s = b.
Proof.
  revert b. induction s as [|c s IH]; intros b; simpl.
  - by intros [= <-].
  - destruct (Ascii.eqb c sep).
    { intros [= _ Hs]. by apply split_on_nonempty in Hs. }
    destruct (Text.split_on sep s) as [|w [|w' ws]] eqn:Hw; try done.
    { by apply split_on_nonempty in Hw. }
    intros [= <-]. f_equal. by apply IH.
Qed.

Lemma split_on_two (sep : Ascii.ascii) (s a b : string) :
  Text.split_on sep s = [a; b] → s = a +:+ String sep b.
Proof.
  revert a. induction s as [|c s IH]; intros a; simpl; [done|].
  destruct (Ascii.eqb c sep) eqn:Hc.
  - apply Ascii.eqb_eq in Hc as ->. intros [= <- Hs].
    apply split_on_one in Hs as ->. reflexivity.
  - destruct (Text.split_on sep s) as [|w ws] eqn:Hw; [done|].
    intros [= <- ->]. rewrite (IH w eq_refl). reflexivity.
Qed.

Lemma lstrip_head (s : string) (c : Ascii.ascii) (r : string) :
  lstrip s = String c r → Text.is_space c = false.
Proof.
  induction s as [|a s IH]; simpl; [done|].
  destruct (Text.is_space a) eqn:Ha; [done|]. by intros [= <- _].
Qed.

Lemma rstrip_head (s : string) (c : Ascii.ascii) (r : string) :
  rstrip s = String c r → ∃ s', s = String c s'.
Proof.
  destruct s as [|a s]; simpl; [done|].
  destruct (rstrip s); [destruct (Text.is_space a)|]; intros [= <- _]; by eexists.
Qed.

Lemma rstrip_last (s u : string) (c : Ascii.ascii) :
  rstrip s = u +:+ String c EmptyString → Text.is_space c = false.
Proof.
  revert u. induction s as [|a s IH]; intros u; simpl.
  - by destruct u.
  - destruct (rstrip s) as [|c' r] eqn:Hr.
    + destruct (Text.is_space a) eqn:Ha; [by destruct u|].
      destruct u as [|b u]; simpl; [by intros [= <-]|]. intros [= _ Hu]. by destruct u.
    + destruct u as [|b u]; simpl; [done|]. intros [= _ Hu]. by apply (IH u).
Qed.

(** A stripped line neither begins nor ends with whitespace. *)
Lemma strip_ends (s : string) :
  (∀ c r, strip s = String c r → Text.is_space c = false)
  ∧ (∀ u c, strip s = u +:+ String c EmptyString → Text.is_space c = false).
Proof.
  unfold strip. split.
  - intros c r Hs. destruct (rstrip_head _ _ _ Hs) as [s' Hs'].
    by eapply lstrip_head.
  - intros u c. apply rstrip_last.
Qed.

Lemma load_rule_inr (rules rules' : list (string * string)) (line : string) :
  load_rule rules line = inr rules' →
  rules' = rules
  ∨ ∃ src dest, rules' = Dict.setitem src dest rules
                ∧ strip line = src +:+ String "009"%char dest
                ∧ src ≠ EmptyString ∧ dest ≠ EmptyString.
Proof.
  unfold load_rule. case_decide as Hl; [intros [= <-]; by left|].
  destruct (Text.split_on _ _) as [|src [|dest [|]]] eqn:Hs; try done.
  intros [= <-]. right. exists src, dest. apply split_on_two in Hs.
  destruct (strip_ends line) as [Hhead Hlast].
  split; [done|]. split; [done|]. split.
  - intros ->. simpl in Hs. by apply Hhead in Hs.
  - intros ->. by apply Hlast in Hs.
Qed.

Lemma load_rules_inv (P : list (string * string) → Prop)
    (lines : list string) (rules rules' : list (string * string)) :
  (∀ d line d', line ∈ lines → P d → load_rule d line = inr d' → P d') →
  P rules → load_rules rules lines = inr rules' → P rules'.
Proof.
  revert rules. induction lines as [|line lines IH]; intros rules Hstep HP; simpl.
  - by intros [= <-].
  - destruct (load_rule rules line) as [e|d] eqn:Hd; [done|]. simpl.
    apply IH.
    + intros d0 l d' Hl. apply Hstep. by right.
    + eapply Hstep; [by left|done|done].
Qed.

End RuleFacts.

(** X23.  The rules of [rules.txt].  When the rules are loaded, no source occurs
    twice among them, there is at most one rule per line, and every rule
    stems from a line that, stripped, reads [src<TAB>dest] with neither part
    empty.  So a rule never has an empty source, and a rule with an empty
    destination, which would delete a phoneme, cannot be loaded. *)
Theorem loaded_rules_well_formed (rules_file : list string)
    (replace_rules : list (string * string)) :
  Relabel.load_rules [] rules_file = inr replace_rules →
  NoDup replace_rules.*1
  ∧ (length replace_rules ≤ length rules_file)%nat
  ∧ ∀ src dest, (src, dest) ∈ replace_rules →
      src ≠ EmptyString ∧ dest ≠ EmptyString
      ∧ ∃ line, line ∈ rules_file
                ∧ Relabel.strip line = src +:+ String "009"%char dest.
Proof.
  intros Hload. split; [|split].
  - revert Hload. apply (load_rules_inv (λ d, NoDup d.*1)); [|constructor].
    intros d line d' _ Hd Hl. apply load_rule_inr in Hl as [->|(s & t & -> & _)]; [done|].
    by apply setitem_NoDup.
  - assert (∀ lines rules rules', Relabel.load_rules rules lines = inr rules' →
              (length rules' ≤ length rules + length lines)%nat) as Hlen.
    { clear. induction lines as [|line lines IH]; intros rules rules'; simpl.
      - intros [= <-]. lia.
      - destruct (Relabel.load_rule rules line) as [e|d] eqn:Hd; [done|]. simpl.
        intros Hr. apply IH in Hr.
        apply load_rule_inr in Hd as [->|(s & t & -> & _)]; [lia|].
        pose proof (setitem_length s t rules). lia. }
    apply Hlen in Hload. simpl in Hload. lia.
  - revert Hload.
    apply (load_rules_inv (λ d, ∀ src dest, (src, dest) ∈ d →
             src ≠ EmptyString ∧ dest ≠ EmptyString
             ∧ ∃ line, line ∈ rules_file
                       ∧ Relabel.strip line = src +:+ String "009"%char dest)).
    + intros d line d' Hline Hd Hl src dest Hin.
      apply load_rule_inr in Hl as [->|(s & t & -> & Hs & Hs1 & Hs2)]; [by apply Hd|].
      apply setitem_elem in Hin as [[= -> ->]|Hin]; [|by apply Hd].
      split; [done|]. split; [done|]. by exists line.
    + intros src dest Hin. by apply not_elem_of_nil in Hin.
Qed.

Lemma loaded_rules_well_formed_witness :
  Relabel.load_rules [] RelabelCases.rules_file = inr [("sh", "x"); ("N", "n")]
  ∧ NoDup [("sh", "x"); ("N", "n")].*1
  ∧ Relabel.load_rules [] ["k" +:+ String "009"%char EmptyString] = inl Relabel.ValueError.
Proof.
  assert (Relabel.load_rules [] RelabelCases.rules_file = inr [("sh", "x"); ("N", "n")])
    as Hload by (vm_compute; reflexivity).
  split; [exact Hload|]. split; [|vm_compute; reflexivity].
  exact (proj1 (loaded_rules_well_formed _ _ Hload)).
Defined.

(** ** The relabelling script: the marks *)

Section RelabelFacts.
Import Relabel.

Lemma setitem_present_keys {V} (k : string) (v w : V) (d : list (string * V)) :
  Dict.get k d = Some w → (Dict.setitem k v d).*1 = d.*1.
Proof.
  intros Hk. rewrite setitem_keys, decide_True, app_nil_r; [done|].
  apply get_Some_elem in Hk. apply list_elem_of_fmap. by exists (k, w).
Qed.

(** The rules applied to one mark.  Every source has a counter, so no
    [KeyError] arises; a counter grows by at most one; nothing changes when
    no source occurs in the mark. *)
Lemma apply_rules_run (rules : list (string * string)) (cc : list (string * nat))
    (m : string) :
  NoDup rules.*1 →
  (∀ k, k ∈ rules.*1 → is_Some (Dict.get k cc)) →
  ∃ cc' m', apply_rules rules (cc, m) = inr (cc', m')
    ∧ cc'.*1 = cc.*1
    ∧ (∀ k, k ∉ rules.*1 → Dict.get k cc' = Dict.get k cc)
    ∧ (∀ k n, Dict.get k cc = Some n →
         ∃ n', Dict.get k cc' = Some n' ∧ (n ≤ n' ≤ n + 1)%nat)
    ∧ ((∀ k, k ∈ rules.*1 → contains k m = false) → cc' = cc ∧ m' = m).
Proof.
  revert cc m. induction rules as [|[src dest] rules IH]; intros cc m Hnd Hkeys.
  - exists cc, m. simpl. split_and!; try done.
    intros k n Hk. exists n. split; [done|lia].
  - rewrite fmap_cons in Hnd. cbn [fst] in Hnd. apply NoDup_cons in Hnd as [Hsrc Hnd].
    cbn [apply_rules apply_rule].
    destruct (contains src m) eqn:Hc.
    + destruct (Hkeys src) as [n0 Hn0]; [by left|].
      unfold increment. rewrite Hn0. cbn [and_then].
      destruct (IH (Dict.setitem src (n0 + 1)%nat cc) (replace src dest m) Hnd)
        as (cc' & m' & Hrun & Hk' & Hout & Hbound & _).
      { intros k Hk. destruct (decide (k = src)) as [->|Hne].
        - rewrite get_setitem_eq. by eexists.
        - rewrite get_setitem_ne by done. apply Hkeys. by right. }
      exists cc', m'. split; [done|]. split.
      { rewrite Hk'. by eapply setitem_present_keys. }
      split.
      { intros k Hk. rewrite fmap_cons in Hk. cbn [fst] in Hk.
        apply not_elem_of_cons in Hk as [Hne Hk].
        rewrite Hout by done. by rewrite get_setitem_ne. }
      split.
      { intros k n Hk. destruct (decide (k = src)) as [->|Hne].
        - exists (n0 + 1)%nat. rewrite Hout, get_setitem_eq by done.
          split; [done|]. rewrite Hn0 in Hk. injection Hk as <-. lia.
        - destruct (Hbound k n) as (n' & Hn' & Hle); [by rewrite get_setitem_ne|].
          by exists n'. }
      intros Hno. rewrite Hno in Hc; [done|]. by left.
    + cbn [and_then].
      destruct (IH cc m Hnd) as (cc' & m' & Hrun & Hk' & Hout & Hbound & Hsame).
      { intros k Hk. apply Hkeys. by right. }
      exists cc', m'. split; [done|]. split; [done|]. split.
      { intros k Hk. rewrite fmap_cons in Hk. cbn [fst] in Hk.
        apply not_elem_of_cons in Hk as [Hne Hk]. by apply Hout. }
      split; [done|].
      intros Hno. apply Hsame. intros k Hk. apply Hno. by right.
Qed.

Lemma relabel_intervals_run (rules : list (string * string))
    (cc : list (string * nat)) (ivs : list interval) :
  NoDup rules.*1 →
  (∀ k, k ∈ rules.*1 → is_Some (Dict.get k cc)) →
  ∃ cc' ivs', relabel_intervals rules cc ivs = inr (cc', ivs')
    ∧ cc'.*1 = cc.*1
    ∧ Forall2 (relabelled rules) ivs ivs'
    ∧ (∀ k, k ∉ rules.*1 → Dict.get k cc' = Dict.get k cc)
    ∧ (∀ k n, Dict.get k cc = Some n →
         ∃ n', Dict.get k cc' = Some n' ∧ (n ≤ n' ≤ n + length ivs)%nat).
Proof.
  intros Hnd. revert cc. induction ivs as [|iv ivs IH]; intros cc Hkeys.
  - exists cc, []. simpl. split_and!; try done.
    intros k n Hk. exists n. split; [done|lia].
  - cbn [relabel_intervals].
    destruct (apply_rules_run rules cc (mark iv) Hnd Hkeys)
      as (cc1 & m1 & -> & Hk1 & Hout1 & Hb1 & Hsame1).
    cbn [and_then fst snd].
    destruct (IH cc1) as (cc2 & ivs2 & -> & Hk2 & Hall & Hout2 & Hb2).
    { intros k Hk. destruct (Hkeys k Hk) as [n Hn].
      destruct (Hb1 k n Hn) as (n' & -> & _). by eexists. }
    cbn [and_then fst snd]. eexists _, _. split; [reflexivity|].
    split; [congruence|]. split.
    { constructor; [|done]. split; [done|]. split; [done|]. simpl.
      intros Hno. by apply Hsame1. }
    split.
    { intros k Hk. rewrite Hout2, Hout1; done. }
    intros k n Hk. destruct (Hb1 k n Hk) as (n1 & Hn1 & Hle1).
    destruct (Hb2 k n1 Hn1) as (n2 & Hn2 & Hle2). exists n2. split; [done|].
    simpl. lia.
Qed.

Lemma phones_tier_none (tg : list tier) :
  phones_tier tg = None ↔ Forall (λ t, name t ≠ "phones") tg.
Proof.
  induction tg as [|t tg IH]; simpl; [done|].
  case_decide as Hn.
  - split; [done|]. intros Hall. by apply Forall_cons in Hall as [? _].
  - rewrite fmap_None, IH. split; [by constructor|].
    intros Hall. by apply Forall_cons in Hall as [_ ?].
Qed.

Lemma phones_tier_first (before after : list tier) (t : tier) :
  Forall (λ t, name t ≠ "phones") before → name t = "phones" →
  phones_tier (before ++ t :: after) = Some (length before, t).
Proof.
  intros Hb Ht. induction Hb as [|t0 before Hn _ IH]; simpl.
  - by rewrite decide_True.
  - rewrite decide_False by done. by rewrite IH.
Qed.

Lemma phones_tier_some (tg : list tier) (i : nat) (t : tier) :
  phones_tier tg = Some (i, t) →
  ∃ before after, tg = before ++ t :: after ∧ i = length before
    ∧ Forall (λ t, name t ≠ "phones") before ∧ name t = "phones".
Proof.
  revert i. induction tg as [|t0 tg IH]; intros i; simpl; [done|].
  case_decide as Hn.
  - intros [= <- <-]. by exists [], tg.
  - destruct (phones_tier tg) as [[j t1]|]; [|done]. simpl. intros [= <- <-].
    destruct (IH j eq_refl) as (before & after & -> & -> & Hb & Ht).
    exists (t0 :: before), after. split; [done|]. split; [done|]. split; [|done].
    by constructor.
Qed.

Lemma relabelled_layout (rules : list (string * string)) (ivs ivs' : list interval) :
  Forall2 (relabelled rules) ivs ivs' →
  (λ iv, (minTime iv, maxTime iv)) <$> ivs' = (λ iv, (minTime iv, maxTime iv)) <$> ivs.
Proof.
  induction 1 as [|iv iv' ivs ivs' (H1 & H2 & _) _ IH]; [done|].
  rewrite !fmap_cons. by rewrite H1, H2, IH.
Qed.

(** One file with a tier named [phones]. *)
Lemma process_file_run (rules : list (string * string)) (cc : list (string * nat))
    (before after : list tier) (t : tier) :
  NoDup rules.*1 →
  (∀ k, k ∈ rules.*1 → is_Some (Dict.get k cc)) →
  Forall (λ t, name t ≠ "phones") before → name t = "phones" →
  ∃ cc' ivs',
    process_file rules cc (before ++ t :: after)
    = inr (cc', before ++ {| name := "phones"; intervals := ivs' |} :: after)
    ∧ Forall2 (relabelled rules) (intervals t) ivs'
    ∧ cc'.*1 = cc.*1
    ∧ (∀ k, k ∉ rules.*1 → Dict.get k cc' = Dict.get k cc)
    ∧ (∀ k n, Dict.get k cc = Some n →
         ∃ n', Dict.get k cc' = Some n'
               ∧ (n ≤ n' ≤ n + length (intervals t))%nat).
Proof.
  intros Hnd Hkeys Hb Ht. unfold process_file.
  rewrite (phones_tier_first before after t Hb Ht).
  destruct (relabel_intervals_run rules cc (intervals t) Hnd Hkeys)
    as (cc' & ivs' & -> & Hk & Hall & Hout & Hbound).
  cbn [and_then fst snd]. exists cc', ivs'. split.
  { f_equal. f_equal. rewrite Ht.
    rewrite insert_app_r_alt by lia. rewrite Nat.sub_diag. done. }
  done.
Qed.

End RelabelFacts.

(** X24.  One TextGrid file.  Without a tier named [phones] the file raises
    [TypeError].  Otherwise the file is written with the tiers before and
    after the first tier named [phones] as they were; in that tier every
    interval keeps its boundaries, and keeps its mark when no source of a
    rule occurs in it; no counter is missing, the counters keep their keys,
    and each grows by at most the number of intervals of the tier, however
    often its source occurs in a mark. *)
Theorem relabelled_textgrid (replace_rules : list (string * string))
    (consonant_count : list (string * nat)) :
  NoDup replace_rules.*1 →
  (∀ k, k ∈ replace_rules.*1 → is_Some (Dict.get k consonant_count)) →
  (∀ tg, Forall (λ t, Relabel.name t ≠ "phones") tg →
     Relabel.process_file replace_rules consonant_count tg = inl Relabel.TypeError)
  ∧ (∀ before t after,
       Forall (λ t, Relabel.name t ≠ "phones") before → Relabel.name t = "phones" →
       ∃ count' ivs',
         Relabel.process_file replace_rules consonant_count (before ++ t :: after)
         = inr (count', before ++ {| Relabel.name := "phones";
                                     Relabel.intervals := ivs' |} :: after)
         ∧ Forall2 (λ iv iv',
                      Relabel.minTime iv' = Relabel.minTime iv
                      ∧ Relabel.maxTime iv' = Relabel.maxTime iv
                      ∧ ((∀ k, k ∈ replace_rules.*1 →
                               Relabel.contains k (Relabel.mark iv) = false) →
                         Relabel.mark iv' = Relabel.mark iv))
             (Relabel.intervals t) ivs'
         ∧ count'.*1 = consonant_count.*1
         ∧ ∀ k n, Dict.get k consonant_count = Some n →
             ∃ n', Dict.get k count' = Some n'
                   ∧ (n ≤ n' ≤ n + length (Relabel.intervals t))%nat).
Proof.
  intros Hnd Hkeys. split.
  - intros tg Hall. unfold Relabel.process_file.
    by rewrite (proj2 (phones_tier_none tg) Hall).
  - intros before t after Hb Ht.
    destruct (process_file_run replace_rules consonant_count before after t
                Hnd Hkeys Hb Ht) as (cc' & ivs' & Hrun & Hall & Hk & _ & Hbound).
    exists cc', ivs'. done.
Qed.

Lemma relabelled_textgrid_witness :
  Relabel.process_file [("sh", "x"); ("N", "n")] [("sh", 0%nat); ("N", 0%nat)]
    RelabelCases.no_phones = inl Relabel.TypeError
  ∧ ∃ count' ivs',
      Relabel.process_file [("sh", "x"); ("N", "n")] [("sh", 0%nat); ("N", 0%nat)]
        RelabelCases.grid
      = inr (count', [ {| Relabel.name := "words";
                          Relabel.intervals :=
                            [ {| Relabel.minTime := 0; Relabel.maxTime := 1;
                                 Relabel.mark := "shi" |} ] |};
                       {| Relabel.name := "phones"; Relabel.intervals := ivs' |} ])
      ∧ count'.*1 = ["sh"; "N"].
Proof.
  assert (NoDup [("sh", "x"); ("N", "n")].*1) as Hnd.
  { apply NoDup_cons. split; [|apply NoDup_singleton].
    intros Hin. apply list_elem_of_singleton in Hin. discriminate. }
  assert (∀ k, k ∈ [("sh", "x"); ("N", "n")].*1
               → is_Some (Dict.get k [("sh", 0%nat); ("N", 0%nat)])) as Hkeys.
  { intros k Hk. apply elem_of_cons in Hk as [->|Hk]; [by eexists|].
    apply list_elem_of_singleton in Hk as ->. by eexists. }
  destruct (relabelled_textgrid [("sh", "x"); ("N", "n")]
              [("sh", 0%nat); ("N", 0%nat)] Hnd Hkeys) as [Hnone Hsome].
  split.
  - apply Hnone. apply Forall_cons. split; [discriminate|]. apply Forall_nil_2.
  - destruct (Hsome [ {| Relabel.name := "words";
                         Relabel.intervals :=
                           [ {| Relabel.minTime := 0; Relabel.maxTime := 1;
                                Relabel.mark := "shi" |} ] |} ]
                {| Relabel.name := "phones";
                   Relabel.intervals :=
                     [ {| Relabel.minTime := 0; Relabel.maxTime := 0.5;
                          Relabel.mark := "sh" |};
                       {| Relabel.minTime := 0.5; Relabel.maxTime := 1;
                          Relabel.mark := "i" |} ] |} [])
      as (count' & ivs' & Hrun & _ & Hk & _).
    + apply Forall_cons. split; [discriminate|]. apply Forall_nil_2.
    + reflexivity.
    + exists count', ivs'. split; [exact Hrun|exact Hk].
Defined.

(** ** The relabelling script as a whole *)

Section ScriptFacts.
Import Relabel.

Lemma initial_count_get (rules : list (string * string)) (k : string) :
  k ∈ rules.*1 → Dict.get k (initial_count rules) = Some 0%nat.
Proof.
  induction rules as [|[src dest] rules IH]; simpl.
  - intros Hk. by apply not_elem_of_nil in Hk.
  - intros Hk. case_decide as Hs; [done|].
    apply elem_of_cons in Hk as [->|Hk]; [done|]. by apply IH.
Qed.

Lemma process_file_layout (rules : list (string * string)) (before after : list tier)
    (t : tier) (ivs' : list interval) :
  name t = "phones" → Forall2 (relabelled rules) (intervals t) ivs' →
  layout (before ++ {| name := "phones"; intervals := ivs' |} :: after)
  = layout (before ++ t :: after).
Proof.
  intros Ht Hall. unfold layout. rewrite !fmap_app, !fmap_cons. simpl.
  by rewrite Ht, (relabelled_layout rules _ _ Hall).
Qed.

Lemma visited_first (before after : list tier) (t : tier) :
  Forall (λ t, name t ≠ "phones") before → name t = "phones" →
  visited (before ++ t :: after) = length (intervals t).
Proof. intros Hb Ht. unfold visited. by rewrite (phones_tier_first _ _ _ Hb Ht). Qed.

Lemma has_phones (tg : list tier) :
  Exists (λ t, name t = "phones") tg →
  ∃ before t after, tg = before ++ t :: after
    ∧ Forall (λ t, name t ≠ "phones") before ∧ name t = "phones".
Proof.
  intros Hex. destruct (phones_tier tg) as [[i t]|] eqn:Hp.
  - destruct (phones_tier_some tg i t Hp) as (before & after & -> & _ & Hb & Ht).
    by exists before, t, after.
  - apply phones_tier_none in Hp. exfalso.
    induction Hex as [t tg Ht|t tg _ IH].
    + by apply Forall_cons in Hp as [? _].
    + apply IH. by apply Forall_cons in Hp as [_ ?].
Qed.

(** The loop over the files, every file having a tier named [phones]. *)
Lemma process_files_run (rules : list (string * string)) (cc : list (string * nat))
    (tgs : list (list tier)) :
  NoDup rules.*1 →
  (∀ k, k ∈ rules.*1 → is_Some (Dict.get k cc)) →
  Forall (Exists (λ t, name t = "phones")) tgs →
  ∃ written cc',
    process_files rules cc tgs = (written, inr cc')
    ∧ Forall2 (λ tg out, layout out = layout tg) tgs written
    ∧ (∀ k n, Dict.get k cc = Some n →
         ∃ n', Dict.get k cc' = Some n'
               ∧ (n ≤ n' ≤ n + sum_list (visited <$> tgs))%nat).
Proof.
  intros Hnd Hkeys Hall. revert cc Hkeys.
  induction Hall as [|tg tgs Htg _ IH]; intros cc Hkeys.
  - exists [], cc. simpl. split; [done|]. split; [done|].
    intros k n Hk. exists n. split; [done|lia].
  - destruct (has_phones tg Htg) as (before & t & after & -> & Hb & Ht).
    destruct (process_file_run rules cc before after t Hnd Hkeys Hb Ht)
      as (cc1 & ivs' & Hrun & Hivs & Hk1 & _ & Hb1).
    cbn [process_files]. rewrite Hrun.
    destruct (IH cc1) as (written & cc2 & -> & Hlay & Hb2).
    { intros k Hk. destruct (Hkeys k Hk) as [n Hn].
      destruct (Hb1 k n Hn) as (n' & -> & _). by eexists. }
    eexists _, _. split; [reflexivity|]. split.
    { constructor; [|done]. by eapply process_file_layout. }
    intros k n Hk. destruct (Hb1 k n Hk) as (n1 & Hn1 & Hle1).
    destruct (Hb2 k n1 Hn1) as (n2 & Hn2 & Hle2). exists n2. split; [done|].
    rewrite fmap_cons. cbn [sum_list foldr]. simpl.
    rewrite (visited_first _ _ _ Hb Ht). lia.
Qed.

(** The loop over the files, up to the first file without a tier named
    [phones]. *)
Lemma process_files_stop (rules : list (string * string)) (cc : list (string * nat))
    (before after : list (list tier)) (tg : list tier) :
  NoDup rules.*1 →
  (∀ k, k ∈ rules.*1 → is_Some (Dict.get k cc)) →
  Forall (Exists (λ t, name t = "phones")) before →
  Forall (λ t, name t ≠ "phones") tg →
  ∃ written,
    process_files rules cc (before ++ tg :: after) = (written, inl TypeError)
    ∧ Forall2 (λ tg out, layout out = layout tg) before written.
Proof.
  intros Hnd Hkeys Hall Htg. revert cc Hkeys.
  induction Hall as [|tg0 tgs Htg0 _ IH]; intros cc Hkeys.
  - exists []. simpl. unfold process_file.
    rewrite (proj2 (phones_tier_none tg) Htg). done.
  - destruct (has_phones tg0 Htg0) as (bef & t & aft & -> & Hb & Ht).
    destruct (process_file_run rules cc bef aft t Hnd Hkeys Hb Ht)
      as (cc1 & ivs' & Hrun & Hivs & Hk1 & _ & Hb1).
    simpl. rewrite Hrun.
    destruct (IH cc1) as (written & -> & Hlay).
    { intros k Hk. destruct (Hkeys k Hk) as [n Hn].
      destruct (Hb1 k n Hn) as (n' & -> & _). by eexists. }
    eexists. split; [reflexivity|].
    constructor; [|done]. by eapply process_file_layout.
Qed.

Lemma report_run (rules : list (string * string)) (cc : list (string * nat))
    (bound : nat) :
  (∀ k, k ∈ rules.*1 → ∃ n, Dict.get k cc = Some n ∧ (n ≤ bound)%nat) →
  ∃ printed, report rules cc = inr printed
    ∧ fst <$> printed = rules
    ∧ Forall (λ line, (line.2 ≤ bound)%nat) printed.
Proof.
  unfold report. induction rules as [|[src dest] rules IH]; intros Hkeys.
  - by exists [].
  - destruct (Hkeys src) as (n & Hn & Hle); [by left|]. rewrite Hn.
    destruct IH as (printed & -> & Hp & Hall).
    { intros k Hk. apply Hkeys. by right. }
    cbn [and_then]. eexists. split; [reflexivity|]. split.
    + rewrite fmap_cons. simpl. by rewrite Hp.
    + by constructor.
Qed.

End ScriptFacts.

(** X25.  The script as a whole, once the rules are loaded.  If every file has a
    tier named [phones], one TextGrid is written per file, with the tiers
    and the interval boundaries of its input, and the report has one line
    per rule, in the order of the rules, whose count is at most the number
    of intervals visited.  If a file has no tier named [phones], the script
    ends with [TypeError] at the first such file: the files before it are
    written, and no report is printed. *)
Theorem script_outcome (rules_file : list string) (tgs : list (list Relabel.tier))
    (replace_rules : list (string * string)) :
  Relabel.load_rules [] rules_file = inr replace_rules →
  let out := Relabel.main rules_file tgs in
  (Forall (Exists (λ t, Relabel.name t = "phones")) tgs →
   ∃ printed,
     out.2 = inr printed
     ∧ Forall2 (λ tg written, Relabel.layout written = Relabel.layout tg) tgs out.1
     ∧ fst <$> printed = replace_rules
     ∧ Forall (λ line, (line.2 ≤ sum_list (Relabel.visited <$> tgs))%nat) printed)
  ∧ (∀ before tg after,
       tgs = before ++ tg :: after →
       Forall (Exists (λ t, Relabel.name t = "phones")) before →
       Forall (λ t, Relabel.name t ≠ "phones") tg →
       out.2 = inl Relabel.TypeError
       ∧ Forall2 (λ tg written, Relabel.layout written = Relabel.layout tg)
           before out.1).
Proof.
  intros Hload out.
  assert (NoDup replace_rules.*1) as Hnd.
  { revert Hload. apply (load_rules_inv (λ d, NoDup d.*1)); [|constructor].
    intros d line d' _ Hd Hl. apply load_rule_inr in Hl as [->|(s & t & -> & _)]; [done|].
    by apply setitem_NoDup. }
  assert (∀ k, k ∈ replace_rules.*1
               → is_Some (Dict.get k (Relabel.initial_count replace_rules))) as Hkeys.
  { intros k Hk. rewrite initial_count_get by done. by eexists. }
  unfold out, Relabel.main. rewrite Hload. split.
  - intros Hall.
    destruct (process_files_run replace_rules _ tgs Hnd Hkeys Hall)
      as (written & cc' & -> & Hlay & Hbound).
    destruct (report_run replace_rules cc' (sum_list (Relabel.visited <$> tgs)))
      as (printed & Hrep & Hp & Hle).
    { intros k Hk. destruct (Hbound k 0%nat) as (n' & Hn' & Hle).
      - by apply initial_count_get.
      - exists n'. split; [done|]. lia. }
    exists printed. simpl. done.
  - intros before tg after -> Hall Htg.
    destruct (process_files_stop replace_rules _ before after tg Hnd Hkeys Hall Htg)
      as (written & -> & Hlay).
    simpl. done.
Qed.

Lemma script_outcome_witness :
  (Relabel.main RelabelCases.rules_file [RelabelCases.grid; RelabelCases.no_phones]).2
  = inl Relabel.TypeError
  ∧ length (Relabel.main RelabelCases.rules_file
              [RelabelCases.grid; RelabelCases.no_phones]).1 = 1%nat.
Proof.
  assert (Relabel.load_rules [] RelabelCases.rules_file = inr [("sh", "x"); ("N", "n")])
    as Hload by (vm_compute; reflexivity).
  destruct (script_outcome RelabelCases.rules_file
              [RelabelCases.grid; RelabelCases.no_phones] _ Hload) as [_ Hstop].
  destruct (Hstop [RelabelCases.grid] RelabelCases.no_phones [] eq_refl)
    as [Herr Hlay].
  - apply Forall_cons. split; [|apply Forall_nil_2].
    apply Exists_cons_tl, Exists_cons_hd. reflexivity.
  - apply Forall_cons. split; [discriminate|]. apply Forall_nil_2.
  - split; [exact Herr|]. by rewrite <- (Forall2_length _ _ _ Hlay).
Defined.
